(** * TOTP generator (totp_2fa_generator.py): embedding and properties

    The two functions of the module, [generate_totp] and
    [generate_totp_url], are embedded as executable Rocq functions.  The
    library calls they make (UTF-8 [str.encode], [int.to_bytes],
    [hmac.digest] with the SHA-1 / SHA-2 family, [base64.b32encode],
    [str], [str.rjust], indexing of [bytes]) are embedded next to them so
    that every statement can be evaluated on concrete inputs.

    Conventions.
    - A Python [int] is a [Z]; [bytes] is a [list byte]; a [str] is the
      list of its code points.
    - A raised exception is a value: [Raise e], in the error monad
      [outcome].
    - [time.time()] is an argument, [now], a rational number of seconds.
      Line 20 is embedded twice: [time_steps] divides exactly,
      [time_steps64] divides in binary64 as the interpreter does, and
      [generate_totp] and [generate_totp64] are the function over the
      one and the other.  The two agree for binary64 clock readings
      [0 <= now < 2^53] and periods [0 < period < 2^53]
      ([time_steps64_exact]); beyond, [generate_totp64] is the
      function.
    - [str] of an [int] is total here; the cap of 4300 digits that the
      interpreter puts on the conversion is a hypothesis where a
      statement depends on it.
    - [digits] is a digit count, a [nat]: with a negative [digits] the
      source leaves integer arithmetic ([10**digits] is a float).
    - Which hash names [hmac.digest] resolves depends on the build of the
      interpreter.  The SHA-1 and SHA-2 names are embedded with their
      functions; the other names of a build are an argument, [extra], and
      every statement holds for every build. *)

From Stdlib Require Import ZArith List Lia Bool.
From Stdlib.Strings Require Import String Ascii Byte.
From Stdlib Require Import QArith Qround Qabs.
From Stdlib Require Qcanon.
Import ListNotations.
Local Open Scope Z_scope.

(** ** Exceptions and the error monad *)

Inductive exn : Set :=
| ZeroDivisionError
| OverflowError
| UnicodeEncodeError
| ValueError
| IndexError.

Inductive outcome (A : Type) : Type :=
| Ok (a : A)
| Raise (e : exn).
Arguments Ok {A} a.
Arguments Raise {A} e.

Definition bind {A B : Type} (c : outcome A) (k : A -> outcome B) : outcome B :=
  match c with
  | Ok a => k a
  | Raise e => Raise e
  end.

Notation "x <- c ;; k" := (bind c (fun x => k))
  (at level 61, c at next level, right associativity).

(** ** Bytes and integers *)

Definition bytes := list byte.

Definition byte_val (b : byte) : Z := Z.of_N (Byte.to_N b).

Definition byte_of (z : Z) : byte :=
  match Byte.of_N (Z.to_N (z mod 256)) with
  | Some b => b
  | None => x00
  end.

(** The [len] low digits of [n] in base [b], most significant first. *)
Fixpoint be_digits (b : Z) (len : nat) (n : Z) : list Z :=
  match len with
  | O => []
  | S k => (n / b ^ Z.of_nat k) mod b :: be_digits b k n
  end.

(** The number with digits [ds] in base [b], most significant first. *)
Definition from_digits (b : Z) (ds : list Z) : Z :=
  fold_left (fun acc d => acc * b + d) ds 0.

(** [n.to_bytes(len, 'big')] once the range check has passed. *)
Definition be_bytes (len : nat) (n : Z) : bytes :=
  map byte_of (be_digits 256 len n).

(** [int.to_bytes(len, 'big')], unsigned: a negative or too large [n]
    raises [OverflowError]. *)
Definition int_to_bytes_big (len : nat) (n : Z) : outcome bytes :=
  if n <? 0 then Raise OverflowError
  else if 256 ^ Z.of_nat len <=? n then Raise OverflowError
  else Ok (be_bytes len n).

(** [int.from_bytes(bs, 'big')]. *)
Definition int_from_bytes_big (bs : bytes) : Z :=
  from_digits 256 (map byte_val bs).

(** [bs[i]] on [bytes]: a negative index counts from the end, an index
    out of range raises [IndexError]. *)
Definition bytes_index (bs : bytes) (i : Z) : outcome Z :=
  let n := Z.of_nat (List.length bs) in
  let j := if i <? 0 then i + n else i in
  if (j <? 0) || (n <=? j) then Raise IndexError
  else match nth_error bs (Z.to_nat j) with
       | Some b => Ok (byte_val b)
       | None => Raise IndexError
       end.

(** ** Text: [str], [str(int)], [str.rjust], [str.encode] *)

(** A [str] is the list of its code points. *)
Definition pystr := list Z.

(** A literal of the source, written as a Rocq string of ASCII characters. *)
Definition lit (s : string) : pystr :=
  map (fun a => Z.of_N (N_of_ascii a)) (list_ascii_of_string s).

Definition digit_char (d : Z) : Z := 48 + d.

(** Decimal digits of a positive number, most significant first. *)
Fixpoint pos_digits (fuel : nat) (n : Z) (acc : pystr) : pystr :=
  match fuel with
  | O => acc
  | S f =>
      if n <? 10 then digit_char n :: acc
      else pos_digits f (n / 10) (digit_char (n mod 10) :: acc)
  end.

(** [str(n)] for an [int]. *)
Definition str_of_int (n : Z) : pystr :=
  if n <? 0 then 45 :: pos_digits (S (Z.to_nat (Z.log2 (- n)))) (- n) []
  else pos_digits (S (Z.to_nat (Z.log2 n))) n [].

(** [s.rjust(width, fill)]. *)
Definition rjust (s : pystr) (width : nat) (fill : Z) : pystr :=
  repeat fill (width - List.length s) ++ s.

(** [s.rstrip(c)] for a one-character [c]. *)
Fixpoint rstrip (s : pystr) (c : Z) : pystr :=
  match s with
  | [] => []
  | x :: rest =>
      match rstrip rest c with
      | [] => if x =? c then [] else [x]
      | r => x :: r
      end
  end.

(** UTF-8 of one code point; a surrogate cannot be encoded.  No [str]
    holds a value above 0x10FFFF; the encoder rejects it as well. *)
Definition utf8_char (c : Z) : outcome bytes :=
  if c <? 0 then Raise UnicodeEncodeError
  else if c <? 0x80 then Ok [byte_of c]
  else if c <? 0x800 then
    Ok [byte_of (Z.lor 0xC0 (Z.shiftr c 6));
        byte_of (Z.lor 0x80 (Z.land c 0x3F))]
  else if (0xD800 <=? c) && (c <=? 0xDFFF) then Raise UnicodeEncodeError
  else if c <? 0x10000 then
    Ok [byte_of (Z.lor 0xE0 (Z.shiftr c 12));
        byte_of (Z.lor 0x80 (Z.land (Z.shiftr c 6) 0x3F));
        byte_of (Z.lor 0x80 (Z.land c 0x3F))]
  else if c <? 0x110000 then
    Ok [byte_of (Z.lor 0xF0 (Z.shiftr c 18));
        byte_of (Z.lor 0x80 (Z.land (Z.shiftr c 12) 0x3F));
        byte_of (Z.lor 0x80 (Z.land (Z.shiftr c 6) 0x3F));
        byte_of (Z.lor 0x80 (Z.land c 0x3F))]
  else Raise UnicodeEncodeError.

(** [s.encode()]. *)
Fixpoint encode (s : pystr) : outcome bytes :=
  match s with
  | [] => Ok []
  | c :: rest =>
      b <- utf8_char c ;;
      bs <- encode rest ;;
      Ok (b ++ bs)
  end.

(** [bytes.decode()] of ASCII output (base32 text): one code point a byte. *)
Definition decode_ascii (bs : bytes) : pystr := map byte_val bs.

(** ** Hash functions: SHA-1 and the SHA-2 family (FIPS 180-4) *)

Module Sha.

(** Split a list into pieces of [n] elements. *)
Fixpoint chunks {A : Type} (fuel n : nat) (l : list A) : list (list A) :=
  match fuel with
  | O => []
  | S f =>
      match l with
      | [] => []
      | _ => firstn n l :: chunks f n (skipn n l)
      end
  end.

(** Message padding: 0x80, zeros, and the bit length in [lenb] bytes, up
    to a multiple of [block] bytes. *)
Definition pad (block lenb : nat) (msg : bytes) : bytes :=
  let l := List.length msg in
  let k := ((block - (l + 1 + lenb) mod block) mod block)%nat in
  msg ++ x80 :: repeat x00 k ++ be_bytes lenb (8 * Z.of_nat l).

Definition blocks (block lenb wordb : nat) (msg : bytes) : list (list Z) :=
  let p := pad block lenb msg in
  map (fun blk => map int_from_bytes_big (chunks (List.length blk) wordb blk))
      (chunks (List.length p) block p).

Section Words.
(** Word size in bits. *)
Variable w : Z.

Definition wrap (x : Z) : Z := x mod 2 ^ w.
Definition add (x y : Z) : Z := wrap (x + y).
Definition rotl (n x : Z) : Z :=
  wrap (Z.lor (Z.shiftl x n) (Z.shiftr x (w - n))).
Definition rotr (n x : Z) : Z :=
  wrap (Z.lor (Z.shiftr x n) (Z.shiftl x (w - n))).
Definition not_ (x : Z) : Z := Z.lxor x (2 ^ w - 1).
Definition ch (x y z : Z) : Z := Z.lxor (Z.land x y) (Z.land (not_ x) z).
Definition maj (x y z : Z) : Z :=
  Z.lxor (Z.lxor (Z.land x y) (Z.land x z)) (Z.land y z).
Definition parity (x y z : Z) : Z := Z.lxor (Z.lxor x y) z.
End Words.

(** *** SHA-1 *)

(** Message schedule; [ws] holds the words so far, latest first. *)
Fixpoint sha1_expand (n : nat) (ws : list Z) : list Z :=
  match n with
  | O => ws
  | S k =>
      let x := Z.lxor (Z.lxor (nth 2 ws 0) (nth 7 ws 0))
                      (Z.lxor (nth 13 ws 0) (nth 15 ws 0)) in
      sha1_expand k (rotl 32 1 x :: ws)
  end.

Definition sha1_f (t : nat) (b c d : Z) : Z :=
  if (t <? 20)%nat then ch 32 b c d
  else if (t <? 40)%nat then parity b c d
  else if (t <? 60)%nat then maj b c d
  else parity b c d.

Definition sha1_k (t : nat) : Z :=
  if (t <? 20)%nat then 0x5A827999
  else if (t <? 40)%nat then 0x6ED9EBA1
  else if (t <? 60)%nat then 0x8F1BBCDC
  else 0xCA62C1D6.

Definition state5 : Type := Z * Z * Z * Z * Z.

Fixpoint sha1_rounds (t : nat) (ws : list Z) (s : state5) : state5 :=
  match ws with
  | [] => s
  | wt :: rest =>
      let '(a, b, c, d, e) := s in
      let tmp := add 32 (add 32 (add 32 (add 32 (rotl 32 5 a) (sha1_f t b c d)) e)
                                (sha1_k t)) wt in
      sha1_rounds (S t) rest (tmp, a, rotl 32 30 b, c, d)
  end.

Definition sha1_block (s : state5) (blk : list Z) : state5 :=
  let ws := rev (sha1_expand 64 (rev blk)) in
  let '(a, b, c, d, e) := sha1_rounds 0 ws s in
  let '(h0, h1, h2, h3, h4) := s in
  (add 32 h0 a, add 32 h1 b, add 32 h2 c, add 32 h3 d, add 32 h4 e).

Definition sha1_init : state5 :=
  (0x67452301, 0xEFCDAB89, 0x98BADCFE, 0x10325476, 0xC3D2E1F0).

Definition sha1 (msg : bytes) : bytes :=
  let '(h0, h1, h2, h3, h4) :=
    fold_left sha1_block (blocks 64 8 4 msg) sha1_init in
  be_bytes 4 h0 ++ be_bytes 4 h1 ++ be_bytes 4 h2 ++ be_bytes 4 h3
    ++ be_bytes 4 h4.

(** *** SHA-2 *)

(** The rotation and shift amounts and the round constants that tell the
    32-bit from the 64-bit functions. *)
Record sha2_params : Type := {
  bits : Z;
  big0 : Z * Z * Z;
  big1 : Z * Z * Z;
  small0 : Z * Z * Z;
  small1 : Z * Z * Z;
  ktab : list Z
}.

Definition k512 : list Z :=
  [0x428a2f98d728ae22; 0x7137449123ef65cd;
   0xb5c0fbcfec4d3b2f; 0xe9b5dba58189dbbc;
   0x3956c25bf348b538; 0x59f111f1b605d019;
   0x923f82a4af194f9b; 0xab1c5ed5da6d8118;
   0xd807aa98a3030242; 0x12835b0145706fbe;
   0x243185be4ee4b28c; 0x550c7dc3d5ffb4e2;
   0x72be5d74f27b896f; 0x80deb1fe3b1696b1;
   0x9bdc06a725c71235; 0xc19bf174cf692694;
   0xe49b69c19ef14ad2; 0xefbe4786384f25e3;
   0x0fc19dc68b8cd5b5; 0x240ca1cc77ac9c65;
   0x2de92c6f592b0275; 0x4a7484aa6ea6e483;
   0x5cb0a9dcbd41fbd4; 0x76f988da831153b5;
   0x983e5152ee66dfab; 0xa831c66d2db43210;
   0xb00327c898fb213f; 0xbf597fc7beef0ee4;
   0xc6e00bf33da88fc2; 0xd5a79147930aa725;
   0x06ca6351e003826f; 0x142929670a0e6e70;
   0x27b70a8546d22ffc; 0x2e1b21385c26c926;
   0x4d2c6dfc5ac42aed; 0x53380d139d95b3df;
   0x650a73548baf63de; 0x766a0abb3c77b2a8;
   0x81c2c92e47edaee6; 0x92722c851482353b;
   0xa2bfe8a14cf10364; 0xa81a664bbc423001;
   0xc24b8b70d0f89791; 0xc76c51a30654be30;
   0xd192e819d6ef5218; 0xd69906245565a910;
   0xf40e35855771202a; 0x106aa07032bbd1b8;
   0x19a4c116b8d2d0c8; 0x1e376c085141ab53;
   0x2748774cdf8eeb99; 0x34b0bcb5e19b48a8;
   0x391c0cb3c5c95a63; 0x4ed8aa4ae3418acb;
   0x5b9cca4f7763e373; 0x682e6ff3d6b2b8a3;
   0x748f82ee5defb2fc; 0x78a5636f43172f60;
   0x84c87814a1f0ab72; 0x8cc702081a6439ec;
   0x90befffa23631e28; 0xa4506cebde82bde9;
   0xbef9a3f7b2c67915; 0xc67178f2e372532b;
   0xca273eceea26619c; 0xd186b8c721c0c207;
   0xeada7dd6cde0eb1e; 0xf57d4f7fee6ed178;
   0x06f067aa72176fba; 0x0a637dc5a2c898a6;
   0x113f9804bef90dae; 0x1b710b35131c471b;
   0x28db77f523047d84; 0x32caab7b40c72493;
   0x3c9ebe0a15c9bebc; 0x431d67c49c100d4c;
   0x4cc5d4becb3e42b6; 0x597f299cfc657e2a;
   0x5fcb6fab3ad6faec; 0x6c44198c4a475817].

(** The 64 constants of the 32-bit functions are the high halves of the
    first 64 constants above: both tables are cut from the cube roots of
    the first primes. *)
Definition k256 : list Z :=
  Eval cbv in map (fun k => Z.shiftr k 32) (firstn 64 k512).

Definition params32 : sha2_params :=
  {| bits := 32; big0 := (2, 13, 22); big1 := (6, 11, 25);
     small0 := (7, 18, 3); small1 := (17, 19, 10); ktab := k256 |}.

Definition params64 : sha2_params :=
  {| bits := 64; big0 := (28, 34, 39); big1 := (14, 18, 41);
     small0 := (1, 8, 7); small1 := (19, 61, 6); ktab := k512 |}.

Section Sha2.
Variable p : sha2_params.

Definition rot3 (r : Z * Z * Z) (x : Z) : Z :=
  let '(i, j, k) := r in
  Z.lxor (Z.lxor (rotr (bits p) i x) (rotr (bits p) j x)) (rotr (bits p) k x).

Definition rot2shr (r : Z * Z * Z) (x : Z) : Z :=
  let '(i, j, k) := r in
  Z.lxor (Z.lxor (rotr (bits p) i x) (rotr (bits p) j x)) (Z.shiftr x k).

(** Message schedule; [ws] holds the words so far, latest first. *)
Fixpoint sha2_expand (n : nat) (ws : list Z) : list Z :=
  match n with
  | O => ws
  | S k =>
      let x := add (bits p)
                 (add (bits p) (rot2shr (small1 p) (nth 1 ws 0)) (nth 6 ws 0))
                 (add (bits p) (rot2shr (small0 p) (nth 14 ws 0)) (nth 15 ws 0)) in
      sha2_expand k (x :: ws)
  end.

Definition state8 : Type := Z * Z * Z * Z * Z * Z * Z * Z.

Fixpoint sha2_rounds (ks ws : list Z) (s : state8) : state8 :=
  match ks, ws with
  | kt :: ks', wt :: ws' =>
      let '(a, b, c, d, e, f, g, h) := s in
      let t1 := add (bits p)
                  (add (bits p) (add (bits p) h (rot3 (big1 p) e))
                                (ch (bits p) e f g))
                  (add (bits p) kt wt) in
      let t2 := add (bits p) (rot3 (big0 p) a) (maj a b c) in
      sha2_rounds ks' ws'
        (add (bits p) t1 t2, a, b, c, add (bits p) d t1, e, f, g)
  | _, _ => s
  end.

Definition sha2_block (s : state8) (blk : list Z) : state8 :=
  let n := (List.length (ktab p) - 16)%nat in
  let ws := rev (sha2_expand n (rev blk)) in
  let '(a, b, c, d, e, f, g, h) := sha2_rounds (ktab p) ws s in
  let '(h0, h1, h2, h3, h4, h5, h6, h7) := s in
  (add (bits p) h0 a, add (bits p) h1 b, add (bits p) h2 c,
   add (bits p) h3 d, add (bits p) h4 e, add (bits p) h5 f,
   add (bits p) h6 g, add (bits p) h7 h).
End Sha2.

Definition sha256_init : state8 :=
  (0x6a09e667, 0xbb67ae85, 0x3c6ef372, 0xa54ff53a,
   0x510e527f, 0x9b05688c, 0x1f83d9ab, 0x5be0cd19).

Definition sha224_init : state8 :=
  (0xc1059ed8, 0x367cd507, 0x3070dd17, 0xf70e5939,
   0xffc00b31, 0x68581511, 0x64f98fa7, 0xbefa4fa4).

Definition sha512_init : state8 :=
  (0x6a09e667f3bcc908, 0xbb67ae8584caa73b,
   0x3c6ef372fe94f82b, 0xa54ff53a5f1d36f1,
   0x510e527fade682d1, 0x9b05688c2b3e6c1f,
   0x1f83d9abfb41bd6b, 0x5be0cd19137e2179).

Definition sha384_init : state8 :=
  (0xcbbb9d5dc1059ed8, 0x629a292a367cd507,
   0x9159015a3070dd17, 0x152fecd8f70e5939,
   0x67332667ffc00b31, 0x8eb44a8768581511,
   0xdb0c2e0d64f98fa7, 0x47b5481dbefa4fa4).

Definition sha256 (msg : bytes) : bytes :=
  let '(h0, h1, h2, h3, h4, h5, h6, h7) :=
    fold_left (sha2_block params32) (blocks 64 8 4 msg) sha256_init in
  be_bytes 4 h0 ++ be_bytes 4 h1 ++ be_bytes 4 h2 ++ be_bytes 4 h3
    ++ be_bytes 4 h4 ++ be_bytes 4 h5 ++ be_bytes 4 h6 ++ be_bytes 4 h7.

(** SHA-224 keeps the first seven words. *)
Definition sha224 (msg : bytes) : bytes :=
  let '(h0, h1, h2, h3, h4, h5, h6, _) :=
    fold_left (sha2_block params32) (blocks 64 8 4 msg) sha224_init in
  be_bytes 4 h0 ++ be_bytes 4 h1 ++ be_bytes 4 h2 ++ be_bytes 4 h3
    ++ be_bytes 4 h4 ++ be_bytes 4 h5 ++ be_bytes 4 h6.

Definition sha512 (msg : bytes) : bytes :=
  let '(h0, h1, h2, h3, h4, h5, h6, h7) :=
    fold_left (sha2_block params64) (blocks 128 16 8 msg) sha512_init in
  be_bytes 8 h0 ++ be_bytes 8 h1 ++ be_bytes 8 h2 ++ be_bytes 8 h3
    ++ be_bytes 8 h4 ++ be_bytes 8 h5 ++ be_bytes 8 h6 ++ be_bytes 8 h7.

(** SHA-384 keeps the first six words. *)
Definition sha384 (msg : bytes) : bytes :=
  let '(h0, h1, h2, h3, h4, h5, _, _) :=
    fold_left (sha2_block params64) (blocks 128 16 8 msg) sha384_init in
  be_bytes 8 h0 ++ be_bytes 8 h1 ++ be_bytes 8 h2 ++ be_bytes 8 h3
    ++ be_bytes 8 h4 ++ be_bytes 8 h5.

End Sha.

(** ** HMAC (RFC 2104) and the hash registry *)

(** What [hmac] needs to know of a hash function. *)
Record hash_alg : Type := {
  block_size : nat;
  digest_size : nat;
  hash_fn : bytes -> bytes
}.

Definition SHA1 : hash_alg :=
  {| block_size := 64; digest_size := 20; hash_fn := Sha.sha1 |}.
Definition SHA224 : hash_alg :=
  {| block_size := 64; digest_size := 28; hash_fn := Sha.sha224 |}.
Definition SHA256 : hash_alg :=
  {| block_size := 64; digest_size := 32; hash_fn := Sha.sha256 |}.
Definition SHA384 : hash_alg :=
  {| block_size := 128; digest_size := 48; hash_fn := Sha.sha384 |}.
Definition SHA512 : hash_alg :=
  {| block_size := 128; digest_size := 64; hash_fn := Sha.sha512 |}.

Definition xor_byte (c : Z) (b : byte) : byte := byte_of (Z.lxor (byte_val b) c).

(** HMAC of [msg] under [key] with the hash function [h]. *)
Definition hmac (h : hash_alg) (key msg : bytes) : bytes :=
  let k0 := if (block_size h <? List.length key)%nat then hash_fn h key else key in
  let k := k0 ++ repeat x00 (block_size h - List.length k0) in
  hash_fn h (map (xor_byte 0x5c) k ++ hash_fn h (map (xor_byte 0x36) k ++ msg)).

Definition pystr_eqb (a b : pystr) : bool :=
  if list_eq_dec Z.eq_dec a b then true else false.

(** The hash names a build resolves besides the SHA-1 and SHA-2 spellings
    listed in [hashlib_new] (MD5, SHA-3, BLAKE2, other spellings, ...). *)
Definition registry : Type := pystr -> option hash_alg.

(** The constructor behind a hash name; an unknown name is a [ValueError]
    (unsupported hash type). *)
Definition hashlib_new (extra : registry) (name : pystr) : outcome hash_alg :=
  if pystr_eqb name (lit "SHA1") || pystr_eqb name (lit "sha1") then Ok SHA1
  else if pystr_eqb name (lit "SHA224") || pystr_eqb name (lit "sha224") then Ok SHA224
  else if pystr_eqb name (lit "SHA256") || pystr_eqb name (lit "sha256") then Ok SHA256
  else if pystr_eqb name (lit "SHA384") || pystr_eqb name (lit "sha384") then Ok SHA384
  else if pystr_eqb name (lit "SHA512") || pystr_eqb name (lit "sha512") then Ok SHA512
  else match extra name with
       | Some h => Ok h
       | None => Raise ValueError
       end.

(** [hmac.digest(key, msg, digest)] with a hash name for [digest]. *)
Definition hmac_digest (extra : registry) (key msg : bytes) (digest : pystr)
  : outcome bytes :=
  h <- hashlib_new extra digest ;;
  Ok (hmac h key msg).

(** ** Base32 (RFC 4648), as [base64.b32encode] *)

Definition b32_alphabet : bytes :=
  list_byte_of_string "ABCDEFGHIJKLMNOPQRSTUVWXYZ234567".

Definition b32_char (v : Z) : byte := nth (Z.to_nat v) b32_alphabet x00.

(** The eight characters of a 40-bit quantum. *)
Definition b32_quantum (c : Z) : bytes := map b32_char (be_digits 32 8 c).

(** Characters that carry data in a final quantum of [n] bytes. *)
Definition b32_data_chars (n : nat) : nat :=
  match n with
  | 1 => 2
  | 2 => 4
  | 3 => 5
  | 4 => 7
  | _ => 8
  end%nat.

(** Five bytes make eight characters; a shorter final group is filled with
    zero bytes, and the characters that carry no data become ['=']. *)
Fixpoint b32encode (s : bytes) : bytes :=
  match s with
  | [] => []
  | b0 :: b1 :: b2 :: b3 :: b4 :: rest =>
      b32_quantum (int_from_bytes_big [b0; b1; b2; b3; b4]) ++ b32encode rest
  | _ =>
      let n := List.length s in
      let c := int_from_bytes_big (s ++ repeat x00 (5 - n)) in
      firstn (b32_data_chars n) (b32_quantum c)
        ++ repeat "="%byte (8 - b32_data_chars n)
  end.

(** ** The module's functions *)

(** [time.time() / period]: true division, by zero a [ZeroDivisionError];
    the quotient is exact here (see [time_steps64] for binary64). *)
Definition time_div (now : Q) (period : Z) : outcome Q :=
  if period =? 0 then Raise ZeroDivisionError
  else Ok (now / inject_Z period)%Q.

(** Line 20: [steps = math.floor(time.time() / period).to_bytes(8, 'big')],
    with the exact quotient. *)
Definition time_steps (now : Q) (period : Z) : outcome bytes :=
  q <- time_div now period ;;
  int_to_bytes_big 8 (Qfloor q).

(** Lines 23 to 30: the code read off a digest. *)
Definition truncate_digest (hash_digest : bytes) (digits : nat) : outcome pystr :=
  last <- bytes_index hash_digest (-1) ;;
  let offset := Z.land last 0xf in
  b0 <- bytes_index hash_digest offset ;;
  b1 <- bytes_index hash_digest (offset + 1) ;;
  b2 <- bytes_index hash_digest (offset + 2) ;;
  b3 <- bytes_index hash_digest (offset + 3) ;;
  let binary :=
    Z.lor (Z.lor (Z.lor (Z.shiftl (Z.land b0 0x7f) 24)
                        (Z.shiftl (Z.land b1 0xff) 16))
                 (Z.shiftl (Z.land b2 0xff) 8))
          (Z.land b3 0xff) in
  Ok (rjust (str_of_int (binary mod 10 ^ Z.of_nat digits)) digits 48).

(** [generate_totp(secret, digits, period, algorithm)] at clock reading
    [now], on a build whose further hash names are [extra]. *)
Definition generate_totp (extra : registry) (now : Q)
    (secret : pystr) (digits : nat) (period : Z) (algorithm : pystr)
  : outcome pystr :=
  steps <- time_steps now period ;;
  key <- encode secret ;;
  hash_digest <- hmac_digest extra key steps algorithm ;;
  truncate_digest hash_digest digits.

(** [generate_totp_url(secret, issuer, user, algorithm, digits, period)];
    [digits] is only formatted here, so it is any [int]. *)
Definition generate_totp_url (secret issuer user algorithm : pystr)
    (digits period : Z) : outcome pystr :=
  key <- encode secret ;;
  let b32_encoded_secret := rstrip (decode_ascii (b32encode key)) 61 in
  Ok (lit "otpauth://totp/" ++ issuer ++ lit ":" ++ user
        ++ lit "?secret=" ++ b32_encoded_secret
        ++ lit "&issuer=" ++ issuer
        ++ lit "&algorithm=" ++ algorithm
        ++ lit "&digits=" ++ str_of_int digits
        ++ lit "&period=" ++ str_of_int period).

(** ** Line 20 in binary64

    [time.time()] is a binary64 number and [/] on line 20 is the division
    of binary64: the exact quotient rounded to the nearest binary64
    number, ties to even (IEEE 754).  The functions below compute that
    rounding on exact rationals. *)

(** [2^e <= a / b], for positive [a] and [b]. *)
Definition pow2_le (e a b : Z) : bool :=
  if 0 <=? e then b * 2 ^ e <=? a else b <=? a * 2 ^ (- e).

(** [floor (log2 (a / b))], for positive [a] and [b]. *)
Definition ilog2 (a b : Z) : Z :=
  let e := Z.log2 a - Z.log2 b in
  if pow2_le e a b then e else e - 1.

(** The integer nearest to [a / b], ties to even, for positive [b]. *)
Definition rne_div (a b : Z) : Z :=
  let q := a / b in
  match 2 * (a mod b) ?= b with
  | Lt => q
  | Gt => q + 1
  | Eq => if Z.even q then q else q + 1
  end.

(** The number with 53 significant bits nearest to [a / b], for positive
    [a] and [b]: a multiple of [2^u], where [u] is the exponent of the
    last place, at least [-1074] (subnormal numbers). *)
Definition round64_pos (a b : Z) : Q :=
  let u := Z.max (ilog2 a b) (-1022) - 52 in
  if 0 <=? u then inject_Z (rne_div a (b * 2 ^ u) * 2 ^ u)
  else rne_div (a * 2 ^ (- u)) b # Z.to_pos (2 ^ (- u)).

(** The binary64 number nearest to [x], ties to even, with the exponent
    not bounded above. *)
Definition round64 (x : Q) : Q :=
  let (n, d) := Qred x in
  Qred match n with
       | 0 => 0
       | Z.pos _ => round64_pos n (Z.pos d)
       | Z.neg m => - round64_pos (Z.pos m) (Z.pos d)
       end.

(** A binary64 result: a number below [2^1024] in magnitude, or an
    infinity (of either sign). *)
Inductive float64 : Type :=
| Finite (x : Q)
| Infinite.

Definition to_float64 (x : Q) : float64 :=
  let r := round64 x in
  if Qle_bool (inject_Z (2 ^ 1024)) (Qabs r) then Infinite else Finite r.

(** [float(n)] for an [int], as [/] converts its right operand: too large
    an [int] is an [OverflowError]. *)
Definition float_of_int (n : Z) : outcome Q :=
  match to_float64 (inject_Z n) with
  | Finite y => Ok y
  | Infinite => Raise OverflowError
  end.

(** [x / y] on binary64: by zero a [ZeroDivisionError]. *)
Definition float_truediv (x y : Q) : outcome float64 :=
  if Qeq_bool y 0 then Raise ZeroDivisionError
  else Ok (to_float64 (x / y)).

(** [math.floor]: an infinity is an [OverflowError]. *)
Definition math_floor (x : float64) : outcome Z :=
  match x with
  | Finite q => Ok (Qfloor q)
  | Infinite => Raise OverflowError
  end.

(** Line 20 on a binary64 clock reading [now]. *)
Definition time_steps64 (now : Q) (period : Z) : outcome bytes :=
  y <- float_of_int period ;;
  q <- float_truediv now y ;;
  k <- math_floor q ;;
  int_to_bytes_big 8 k.

(** [generate_totp] with line 20 in binary64. *)
Definition generate_totp64 (extra : registry) (now : Q)
    (secret : pystr) (digits : nat) (period : Z) (algorithm : pystr)
  : outcome pystr :=
  steps <- time_steps64 now period ;;
  key <- encode secret ;;
  hash_digest <- hmac_digest extra key steps algorithm ;;
  truncate_digest hash_digest digits.

(** ** Notions of the specification *)

(** The closed set of algorithms of the specification. *)
Definition supported_algorithm (algorithm : pystr) : option hash_alg :=
  if pystr_eqb algorithm (lit "SHA1") then Some SHA1
  else if pystr_eqb algorithm (lit "SHA256") then Some SHA256
  else if pystr_eqb algorithm (lit "SHA512") then Some SHA512
  else None.

(** Low nibble of the last digest byte. *)
Definition spec_offset (digest : bytes) : nat :=
  Z.to_nat (byte_val (last digest x00) mod 16).

(** The four bytes starting at the offset, the first one masked by 0x7F,
    combined big-endian. *)
Definition spec_binary (digest : bytes) : Z :=
  match firstn 4 (skipn (spec_offset digest) digest) with
  | b :: rest => int_from_bytes_big (byte_of (Z.land (byte_val b) 0x7F) :: rest)
  | [] => 0
  end.

Definition is_digit (c : Z) : Prop := 48 <= c <= 57.

(** The number a string of decimal digits denotes. *)
Definition decimal_value (s : pystr) : Z :=
  from_digits 10 (map (fun c => c - 48) s).

(** [int(s)] for a decimal numeral with an optional minus sign. *)
Definition int_of_str (s : pystr) : option Z :=
  let digits_ok := forallb (fun c => (48 <=? c) && (c <=? 57)) in
  match s with
  | [] => None
  | 45 :: ((_ :: _) as ds) =>
      if digits_ok ds then Some (- decimal_value ds) else None
  | ds => if digits_ok ds then Some (decimal_value ds) else None
  end.

(** Value of a base32 character. *)
Definition b32_rev (c : Z) : option Z :=
  let fix find (i : Z) (l : bytes) : option Z :=
    match l with
    | [] => None
    | x :: l' => if byte_val x =? c then Some i else find (i + 1) l'
    end in
  find 0 b32_alphabet.

Fixpoint b32_values (cs : pystr) : option (list Z) :=
  match cs with
  | [] => Some []
  | c :: rest =>
      match b32_rev c, b32_values rest with
      | Some v, Some vs => Some (v :: vs)
      | _, _ => None
      end
  end.

(** Bytes that a final quantum with [pad] padding characters carries;
    other amounts of padding are malformed. *)
Definition b32_leftover (pad : nat) : option nat :=
  match pad with
  | 0 => Some 5
  | 1 => Some 4
  | 3 => Some 3
  | 4 => Some 2
  | 6 => Some 1
  | _ => None
  end%nat.

(** One group of eight characters; only the last group may carry padding. *)
Definition b32_decode_quantum (final : bool) (g : pystr) : option bytes :=
  let body := if final then rstrip g 61 else g in
  let pad := (8 - List.length body)%nat in
  match b32_leftover pad, b32_values body with
  | Some n, Some vs =>
      Some (firstn n (be_bytes 5 (Z.shiftl (from_digits 32 vs) (5 * Z.of_nat pad))))
  | _, _ => None
  end.

(** [base64.b32decode] of ASCII text: the input is a whole number of
    groups of eight characters. *)
Fixpoint b32decode (s : pystr) : option bytes :=
  match s with
  | [] => Some []
  | c0 :: c1 :: c2 :: c3 :: c4 :: c5 :: c6 :: c7 :: rest =>
      let g := [c0; c1; c2; c3; c4; c5; c6; c7] in
      match rest with
      | [] => b32_decode_quantum true g
      | _ =>
          match b32_decode_quantum false g, b32decode rest with
          | Some a, Some b => Some (a ++ b)
          | _, _ => None
          end
      end
  | _ => None
  end.

(** Putting back the padding that [rstrip] removed. *)
Definition restore_padding (s : pystr) : pystr :=
  s ++ repeat 61 ((8 - List.length s mod 8) mod 8)%nat.

(** *** Auxiliary notions *)

(** A hash function whose output has the advertised size. *)
Definition sized (h : hash_alg) : Prop :=
  forall m, List.length (hash_fn h m) = digest_size h.

(** A build that knows no hash names beyond the SHA-1 and SHA-2 ones. *)
Definition plain_build : registry := fun _ => None.

(** The text of the first [k] characters of a quantum. *)
Definition quantum_text (k : nat) (c : Z) : pystr :=
  map byte_val (firstn k (b32_quantum c)).

(** The text that [generate_totp_url] returns, for a secret whose bytes
    are [key]. *)
Definition uri_text (key : bytes) (issuer user algorithm : pystr)
    (digits period : Z) : pystr :=
  lit "otpauth://totp/" ++ issuer ++ lit ":" ++ user
    ++ lit "?secret=" ++ rstrip (decode_ascii (b32encode key)) 61
    ++ lit "&issuer=" ++ issuer
    ++ lit "&algorithm=" ++ algorithm
    ++ lit "&digits=" ++ str_of_int digits
    ++ lit "&period=" ++ str_of_int period.

(** *** Reading a URI back

    The label and the query are split at the first ['?'], the parameters
    of the query at every ['&'], and a parameter into name and value at
    its first ['=']; nothing is percent-decoded. *)

(** Text before the first [c] and, when there is one, the text after it. *)
Fixpoint split_first (c : Z) (s : pystr) : pystr * option pystr :=
  match s with
  | [] => ([], None)
  | x :: rest =>
      if x =? c then ([], Some rest)
      else let '(a, b) := split_first c rest in (x :: a, b)
  end.

(** The pieces of [s] between the occurrences of [c]. *)
Fixpoint split_all (c : Z) (s : pystr) : list pystr :=
  match s with
  | [] => [[]]
  | x :: rest =>
      let ps := split_all c rest in
      if x =? c then [] :: ps else (x :: hd [] ps) :: tl ps
  end.

Fixpoint strip_prefix (p s : pystr) : option pystr :=
  match p, s with
  | [], _ => Some s
  | a :: p', b :: s' => if a =? b then strip_prefix p' s' else None
  | _ :: _, [] => None
  end.

Definition query_params (q : pystr) : list (pystr * pystr) :=
  map (fun kv => let '(k, v) := split_first 61 kv in
                 (k, match v with Some t => t | None => [] end))
      (split_all 38 q).

Fixpoint lookup_param (name : pystr) (ps : list (pystr * pystr)) : option pystr :=
  match ps with
  | [] => None
  | (k, v) :: rest => if pystr_eqb k name then Some v else lookup_param name rest
  end.

(** Label and parameters of an [otpauth://totp/] URI. *)
Definition read_uri (uri : pystr) : option (pystr * list (pystr * pystr)) :=
  match strip_prefix (lit "otpauth://totp/") uri with
  | Some r =>
      match split_first 63 r with
      | (label, Some q) => Some (label, query_params q)
      | (_, None) => None
      end
  | None => None
  end.

Definition uri_label (uri : pystr) : option pystr :=
  option_map fst (read_uri uri).

Definition uri_param (name uri : pystr) : option pystr :=
  match read_uri uri with
  | Some (_, ps) => lookup_param name ps
  | None => None
  end.

(** *** The rest of the module *)

(** A code point that UTF-8 can encode: in range and no surrogate. *)
Definition is_scalar (c : Z) : bool :=
  (0 <=? c) && (c <? 0x110000) && negb ((0xD800 <=? c) && (c <=? 0xDFFF)).

(** Defaults of the signatures (lines 7 and 33). *)
Definition default_digits : nat := 6.
Definition default_period : Z := 30.
Definition default_algorithm : pystr := lit "SHA1".

(** Lines 59 to 76: what running the module prints at clock reading
    [now], one entry a [print] call, and the exception that ends the run,
    if any.  The first call leaves [algorithm] to its default, the second
    one as well. *)
Definition module_body (extra : registry) (now : Q)
  : list pystr * option exn :=
  match generate_totp extra now (lit "SuperDuper!#123!#1231") 6 30
          default_algorithm with
  | Raise e => ([], Some e)
  | Ok code =>
      match generate_totp_url (lit "SuperDuper!#123!#1231")
              (lit "BasselTech Test") (lit "Bassel Admin")
              default_algorithm 6 30 with
      | Raise e => ([code], Some e)
      | Ok url => ([code; url], None)
      end
  end.

(** * Properties *)

(** ** The error monad *)

Lemma bind_Ok {A B : Type} (c : outcome A) (k : A -> outcome B) (b : B) :
  bind c k = Ok b -> exists a, c = Ok a /\ k a = Ok b.
Proof.
  destruct c as [a | e]; simpl; intro H.
  - exists a. split; [reflexivity | exact H].
  - discriminate H.
Qed.

(** ** Bytes *)

Lemma byte_val_range (b : byte) : 0 <= byte_val b < 256.
Proof.
  unfold byte_val. pose proof (Byte.to_N_bounded b). lia.
Qed.

Lemma byte_of_val (b : byte) : byte_of (byte_val b) = b.
Proof.
  unfold byte_of. rewrite Z.mod_small by apply byte_val_range.
  unfold byte_val. rewrite N2Z.id, Byte.of_to_N. reflexivity.
Qed.

Lemma byte_val_of (z : Z) : byte_val (byte_of z) = z mod 256.
Proof.
  assert (Hr : 0 <= z mod 256 < 256) by (apply Z.mod_pos_bound; lia).
  unfold byte_of.
  destruct (Byte.of_N (Z.to_N (z mod 256))) as [b |] eqn:E.
  - apply Byte.to_of_N in E. unfold byte_val. rewrite E. lia.
  - apply Byte.of_N_None_iff in E. lia.
Qed.

Lemma byte_val_of_small (z : Z) : 0 <= z < 256 -> byte_val (byte_of z) = z.
Proof.
  intro H. rewrite byte_val_of. apply Z.mod_small, H.
Qed.

(** ** Positional notation *)

Section Digits.
Variable b : Z.
Hypothesis b_pos : 0 < b.

Lemma fold_digits (ds : list Z) (acc : Z) :
  fold_left (fun a d => a * b + d) ds acc
  = acc * b ^ Z.of_nat (List.length ds) + from_digits b ds.
Proof.
  unfold from_digits. revert acc.
  induction ds as [| d ds IH]; intro acc.
  - simpl. lia.
  - cbn [fold_left List.length]. rewrite IH, (IH (0 * b + d)).
    rewrite Nat2Z.inj_succ, Z.pow_succ_r by lia. ring.
Qed.

Lemma from_digits_cons (d : Z) (ds : list Z) :
  from_digits b (d :: ds) = d * b ^ Z.of_nat (List.length ds) + from_digits b ds.
Proof.
  unfold from_digits at 1. cbn [fold_left]. rewrite fold_digits. ring.
Qed.

Lemma from_digits_app (ds1 ds2 : list Z) :
  from_digits b (ds1 ++ ds2)
  = from_digits b ds1 * b ^ Z.of_nat (List.length ds2) + from_digits b ds2.
Proof.
  unfold from_digits at 1. rewrite fold_left_app, fold_digits.
  reflexivity.
Qed.

Lemma from_digits_range (ds : list Z) :
  Forall (fun d => 0 <= d < b) ds ->
  0 <= from_digits b ds < b ^ Z.of_nat (List.length ds).
Proof.
  induction 1 as [| d ds Hd _ IH].
  - cbn. lia.
  - rewrite from_digits_cons. cbn [List.length].
    rewrite Nat2Z.inj_succ, Z.pow_succ_r by lia. nia.
Qed.

Lemma be_digits_length (len : nat) (n : Z) :
  List.length (be_digits b len n) = len.
Proof.
  induction len as [| k IH]; simpl; [reflexivity | now rewrite IH].
Qed.

Lemma be_digits_range (len : nat) (n : Z) :
  Forall (fun d => 0 <= d < b) (be_digits b len n).
Proof.
  induction len as [| k IH]; simpl; constructor.
  - apply Z.mod_pos_bound, b_pos.
  - exact IH.
Qed.

Lemma from_be_digits (len : nat) (n : Z) :
  from_digits b (be_digits b len n) = n mod b ^ Z.of_nat len.
Proof.
  induction len as [| k IH].
  - cbn. now rewrite Z.mod_1_r.
  - cbn [be_digits]. rewrite from_digits_cons, be_digits_length, IH.
    rewrite Nat2Z.inj_succ, Z.pow_succ_r by lia.
    rewrite (Z.mul_comm b), Z.rem_mul_r by (try apply Z.pow_nonzero; lia).
    ring.
Qed.

Lemma be_digits_mod (len : nat) (n : Z) :
  be_digits b len (n mod b ^ Z.of_nat len) = be_digits b len n.
Proof.
  revert n. induction len as [| k IH]; intro n; [reflexivity |].
  cbn [be_digits].
  assert (Hk : 0 < b ^ Z.of_nat k) by (apply Z.pow_pos_nonneg; lia).
  rewrite Nat2Z.inj_succ, Z.pow_succ_r by lia.
  rewrite (Z.mul_comm b), Z.rem_mul_r by lia.
  f_equal.
  - rewrite Z.add_comm, Z.mul_comm, Z.div_add_l by lia.
    rewrite (Z.div_small (n mod _)) by (apply Z.mod_pos_bound; lia).
    rewrite Z.add_0_r. apply Z.mod_mod. lia.
  - rewrite <- IH, <- (IH n). f_equal.
    rewrite (Z.mul_comm (b ^ Z.of_nat k)), Z.mod_add by lia.
    apply Z.mod_mod. lia.
Qed.

Lemma be_digits_from (ds : list Z) :
  Forall (fun d => 0 <= d < b) ds ->
  be_digits b (List.length ds) (from_digits b ds) = ds.
Proof.
  induction 1 as [| d ds Hd Hds IH]; [reflexivity |].
  pose proof (from_digits_range ds Hds) as Hr.
  cbn [List.length be_digits]. rewrite from_digits_cons. f_equal.
  - rewrite Z.div_add_l by lia. rewrite Z.div_small by lia.
    rewrite Z.add_0_r. apply Z.mod_small, Hd.
  - rewrite <- be_digits_mod.
    rewrite Z.add_comm, Z.mod_add by lia.
    rewrite Z.mod_small by lia. exact IH.
Qed.

(** The leading digits of a number are the digits of a quotient. *)
Lemma be_digits_firstn (k len : nat) (n : Z) :
  (k <= len)%nat ->
  firstn k (be_digits b len n)
  = be_digits b k (n / b ^ Z.of_nat (len - k)).
Proof.
  revert len. induction k as [| k IH]; intros len Hk; [reflexivity |].
  destruct len as [| len]; [lia |].
  cbn [be_digits firstn].
  assert (Hp : forall m : nat, 0 < b ^ Z.of_nat m)
    by (intro m; apply Z.pow_pos_nonneg; lia).
  replace (S len - S k)%nat with (len - k)%nat by lia.
  f_equal.
  - pose proof (Hp (len - k)%nat). pose proof (Hp k).
    rewrite Z.div_div by lia.
    rewrite <- Z.pow_add_r by lia. do 3 f_equal. lia.
  - apply IH. lia.
Qed.
End Digits.

(** ** Integers and bytes *)

Lemma be_bytes_length (len : nat) (n : Z) : List.length (be_bytes len n) = len.
Proof.
  unfold be_bytes. rewrite length_map. apply be_digits_length.
Qed.

Lemma map_val_of (ds : list Z) :
  Forall (fun d => 0 <= d < 256) ds -> map byte_val (map byte_of ds) = ds.
Proof.
  induction 1 as [| d ds Hd _ IH]; [reflexivity |].
  cbn [map]. now rewrite byte_val_of_small, IH.
Qed.

Lemma map_of_val (bs : bytes) : map byte_of (map byte_val bs) = bs.
Proof.
  induction bs as [| x bs IH]; [reflexivity |].
  cbn [map]. now rewrite byte_of_val, IH.
Qed.

Lemma bytes_digits_range (bs : bytes) :
  Forall (fun d => 0 <= d < 256) (map byte_val bs).
Proof.
  apply Forall_forall. intros d Hd. apply in_map_iff in Hd.
  destruct Hd as [x [<- _]]. apply byte_val_range.
Qed.

Lemma from_bytes_be_bytes (len : nat) (n : Z) :
  int_from_bytes_big (be_bytes len n) = n mod 256 ^ Z.of_nat len.
Proof.
  unfold int_from_bytes_big, be_bytes.
  rewrite map_val_of by (apply be_digits_range; lia).
  apply from_be_digits. lia.
Qed.

Lemma be_bytes_from_bytes (bs : bytes) :
  be_bytes (List.length bs) (int_from_bytes_big bs) = bs.
Proof.
  unfold int_from_bytes_big, be_bytes.
  rewrite <- (length_map byte_val bs).
  rewrite be_digits_from by (try apply bytes_digits_range; lia).
  apply map_of_val.
Qed.

Lemma from_bytes_range (bs : bytes) :
  0 <= int_from_bytes_big bs < 256 ^ Z.of_nat (List.length bs).
Proof.
  unfold int_from_bytes_big. rewrite <- (length_map byte_val bs).
  apply from_digits_range; [lia | apply bytes_digits_range].
Qed.

Lemma int_to_bytes_big_ok (len : nat) (n : Z) :
  0 <= n < 256 ^ Z.of_nat len -> int_to_bytes_big len n = Ok (be_bytes len n).
Proof.
  intros [Hlo Hhi]. unfold int_to_bytes_big.
  destruct (Z.ltb_spec n 0); [lia |].
  destruct (Z.leb_spec (256 ^ Z.of_nat len) n); [lia | reflexivity].
Qed.

Lemma int_to_bytes_big_negative (len : nat) (n : Z) :
  n < 0 -> int_to_bytes_big len n = Raise OverflowError.
Proof.
  intro H. unfold int_to_bytes_big.
  destruct (Z.ltb_spec n 0); [reflexivity | lia].
Qed.

Lemma int_to_bytes_big_too_big (len : nat) (n : Z) :
  256 ^ Z.of_nat len <= n -> int_to_bytes_big len n = Raise OverflowError.
Proof.
  intro H. unfold int_to_bytes_big.
  destruct (Z.ltb_spec n 0); [reflexivity |].
  destruct (Z.leb_spec (256 ^ Z.of_nat len) n); [reflexivity | lia].
Qed.

Lemma int_to_bytes_big_inv (len : nat) (n : Z) (bs : bytes) :
  int_to_bytes_big len n = Ok bs ->
  0 <= n < 256 ^ Z.of_nat len /\ bs = be_bytes len n.
Proof.
  unfold int_to_bytes_big.
  destruct (Z.ltb_spec n 0) as [| Hlo]; [discriminate |].
  destruct (Z.leb_spec (256 ^ Z.of_nat len) n) as [| Hhi]; [discriminate |].
  intro E. injection E as <-. split; [lia | reflexivity].
Qed.

Lemma bytes_index_nth (bs : bytes) (i : Z) :
  0 <= i < Z.of_nat (List.length bs) ->
  bytes_index bs i = Ok (byte_val (nth (Z.to_nat i) bs x00)).
Proof.
  intros [Hlo Hhi]. unfold bytes_index. cbv zeta.
  rewrite (proj2 (Z.ltb_ge i 0)) by lia. cbv iota.
  rewrite (proj2 (Z.ltb_ge i 0)) by lia.
  rewrite (proj2 (Z.leb_gt _ i)) by lia.
  cbn [orb].
  destruct (nth_error bs (Z.to_nat i)) as [x |] eqn:E.
  - now rewrite (nth_error_nth _ _ x00 E).
  - apply nth_error_None in E. lia.
Qed.

Lemma last_is_nth {A : Type} (l : list A) (d : A) :
  last l d = nth (List.length l - 1) l d.
Proof.
  induction l as [| x [| y l] IH]; try reflexivity.
  change (last (x :: y :: l) d) with (last (y :: l) d). rewrite IH.
  cbn [List.length]. now replace (S (S (List.length l)) - 1)%nat
    with (S (S (List.length l) - 1)) by lia.
Qed.

Lemma bytes_index_last (bs : bytes) :
  bs <> [] -> bytes_index bs (-1) = Ok (byte_val (last bs x00)).
Proof.
  intro Hne.
  assert (Hlen : (0 < List.length bs)%nat)
    by (destruct bs; [congruence | simpl; lia]).
  unfold bytes_index. cbv zeta.
  change (-1 <? 0) with true. cbv iota.
  rewrite (proj2 (Z.ltb_ge (-1 + _) 0)) by lia.
  rewrite (proj2 (Z.leb_gt _ (-1 + _))) by lia.
  cbn [orb].
  replace (Z.to_nat (-1 + Z.of_nat (List.length bs)))
    with (List.length bs - 1)%nat by lia.
  destruct (nth_error bs (List.length bs - 1)) as [x |] eqn:E.
  - now rewrite last_is_nth, (nth_error_nth _ _ x00 E).
  - apply nth_error_None in E. lia.
Qed.

Lemma bytes_index_out (bs : bytes) (i : Z) :
  Z.of_nat (List.length bs) <= i -> bytes_index bs i = Raise IndexError.
Proof.
  intro H. unfold bytes_index. cbv zeta.
  rewrite (proj2 (Z.ltb_ge i 0)) by lia. cbv iota.
  rewrite (proj2 (Z.leb_le _ i)) by lia.
  now rewrite orb_true_r.
Qed.

(** ** Digest sizes *)

Lemma sha1_length (m : bytes) : List.length (Sha.sha1 m) = 20%nat.
Proof.
  unfold Sha.sha1.
  destruct (fold_left _ _ _) as [[[[a b] c] d] e].
  now rewrite !length_app, !be_bytes_length.
Qed.

Lemma sha224_length (m : bytes) : List.length (Sha.sha224 m) = 28%nat.
Proof.
  unfold Sha.sha224.
  destruct (fold_left _ _ _) as [[[[[[[a b] c] d] e] f] g] h].
  now rewrite !length_app, !be_bytes_length.
Qed.

Lemma sha256_length (m : bytes) : List.length (Sha.sha256 m) = 32%nat.
Proof.
  unfold Sha.sha256.
  destruct (fold_left _ _ _) as [[[[[[[a b] c] d] e] f] g] h].
  now rewrite !length_app, !be_bytes_length.
Qed.

Lemma sha384_length (m : bytes) : List.length (Sha.sha384 m) = 48%nat.
Proof.
  unfold Sha.sha384.
  destruct (fold_left _ _ _) as [[[[[[[a b] c] d] e] f] g] h].
  now rewrite !length_app, !be_bytes_length.
Qed.

Lemma sha512_length (m : bytes) : List.length (Sha.sha512 m) = 64%nat.
Proof.
  unfold Sha.sha512.
  destruct (fold_left _ _ _) as [[[[[[[a b] c] d] e] f] g] h].
  now rewrite !length_app, !be_bytes_length.
Qed.

Lemma hmac_length (h : hash_alg) (key msg : bytes) :
  sized h -> List.length (hmac h key msg) = digest_size h.
Proof.
  intro Hs. unfold hmac. apply Hs.
Qed.

Lemma pystr_eqb_eq (a c : pystr) : pystr_eqb a c = true <-> a = c.
Proof.
  unfold pystr_eqb. destruct (list_eq_dec Z.eq_dec a c); split; congruence.
Qed.

Lemma supported_cases (algorithm : pystr) (h : hash_alg) :
  supported_algorithm algorithm = Some h ->
  (algorithm = lit "SHA1" /\ h = SHA1)
  \/ (algorithm = lit "SHA256" /\ h = SHA256)
  \/ (algorithm = lit "SHA512" /\ h = SHA512).
Proof.
  unfold supported_algorithm.
  destruct (pystr_eqb algorithm (lit "SHA1")) eqn:E1;
    [apply pystr_eqb_eq in E1; intro H; injection H as <-; auto |].
  destruct (pystr_eqb algorithm (lit "SHA256")) eqn:E2;
    [apply pystr_eqb_eq in E2; intro H; injection H as <-; auto |].
  destruct (pystr_eqb algorithm (lit "SHA512")) eqn:E3;
    [apply pystr_eqb_eq in E3; intro H; injection H as <-; auto |].
  discriminate.
Qed.

Lemma supported_sized (algorithm : pystr) (h : hash_alg) :
  supported_algorithm algorithm = Some h ->
  sized h /\ (20 <= digest_size h)%nat.
Proof.
  intro H. apply supported_cases in H.
  destruct H as [[_ ->] | [[_ ->] | [_ ->]]]; (split; [intro m | simpl; lia]).
  - apply sha1_length.
  - apply sha256_length.
  - apply sha512_length.
Qed.

(** The library resolves every algorithm of the specification, on any
    build. *)
Lemma supported_resolved (extra : registry) (algorithm : pystr) (h : hash_alg) :
  supported_algorithm algorithm = Some h ->
  hashlib_new extra algorithm = Ok h.
Proof.
  intro H. apply supported_cases in H.
  destruct H as [[-> ->] | [[-> ->] | [-> ->]]]; reflexivity.
Qed.

(** ** Dynamic truncation *)

Lemma lor_shiftl (hi lo n : Z) :
  0 <= n -> 0 <= lo < 2 ^ n -> Z.lor (Z.shiftl hi n) lo = hi * 2 ^ n + lo.
Proof.
  intros Hn Hlo.
  assert (Hdisj : Z.land (Z.shiftl hi n) lo = 0).
  { apply Z.bits_inj'. intros i Hi.
    rewrite Z.land_spec, Z.bits_0.
    destruct (Z.lt_ge_cases i n) as [Hlt | Hge].
    - now rewrite Z.shiftl_spec_low by lia.
    - rewrite <- (Z.mod_small lo (2 ^ n)) by lia.
      rewrite Z.mod_pow2_bits_high by lia. apply andb_false_r. }
  rewrite <- Z.lxor_lor, <- Z.add_nocarry_lxor by exact Hdisj.
  now rewrite Z.shiftl_mul_pow2 by lia.
Qed.

Lemma truncation_bits (b0 b1 b2 b3 : Z) :
  0 <= b0 < 256 -> 0 <= b1 < 256 -> 0 <= b2 < 256 -> 0 <= b3 < 256 ->
  Z.lor (Z.lor (Z.lor (Z.shiftl (Z.land b0 0x7f) 24)
                      (Z.shiftl (Z.land b1 0xff) 16))
               (Z.shiftl (Z.land b2 0xff) 8))
        (Z.land b3 0xff)
  = (b0 mod 128) * 2 ^ 24 + b1 * 2 ^ 16 + b2 * 2 ^ 8 + b3.
Proof.
  intros H0 H1 H2 H3.
  change 0x7f with (Z.ones 7). change 0xff with (Z.ones 8).
  rewrite !Z.land_ones by lia.
  change (2 ^ 7) with 128.
  rewrite (Z.mod_small b1), (Z.mod_small b2), (Z.mod_small b3) by lia.
  pose proof (Z.mod_pos_bound b0 128 ltac:(lia)) as Hm.
  set (x := b0 mod 128) in *.
  transitivity (((x * 2 ^ 8 + b1) * 2 ^ 8 + b2) * 2 ^ 8 + b3); [| lia].
  rewrite (Z.shiftl_mul_pow2 b1), (Z.shiftl_mul_pow2 b2) by lia.
  rewrite lor_shiftl by lia.
  replace (x * 2 ^ 24 + b1 * 2 ^ 16) with (Z.shiftl (x * 2 ^ 8 + b1) 16)
    by (rewrite Z.shiftl_mul_pow2 by lia; lia).
  rewrite lor_shiftl by lia.
  replace ((x * 2 ^ 8 + b1) * 2 ^ 16 + b2 * 2 ^ 8)
    with (Z.shiftl ((x * 2 ^ 8 + b1) * 2 ^ 8 + b2) 8)
    by (rewrite Z.shiftl_mul_pow2 by lia; lia).
  now rewrite lor_shiftl by lia.
Qed.

Lemma skipn_nth_cons {A : Type} (n : nat) (l : list A) (d : A) :
  (n < List.length l)%nat -> skipn n l = nth n l d :: skipn (S n) l.
Proof.
  revert l. induction n as [| n IH]; intros [| x l] H; simpl in H; try lia.
  - reflexivity.
  - cbn [skipn nth]. rewrite (IH l) by lia. reflexivity.
Qed.

Lemma window4 (o : nat) (d : bytes) :
  (o + 4 <= List.length d)%nat ->
  firstn 4 (skipn o d)
  = [nth o d x00; nth (o + 1) d x00; nth (o + 2) d x00; nth (o + 3) d x00].
Proof.
  intro H.
  rewrite (skipn_nth_cons o d x00) by lia.
  rewrite (skipn_nth_cons (S o) d x00) by lia.
  rewrite (skipn_nth_cons (S (S o)) d x00) by lia.
  rewrite (skipn_nth_cons (S (S (S o))) d x00) by lia.
  cbn [firstn].
  now replace (o + 1)%nat with (S o) by lia;
    replace (o + 2)%nat with (S (S o)) by lia;
    replace (o + 3)%nat with (S (S (S o))) by lia.
Qed.

(** The 31-bit number of the specification, written out. *)
Lemma spec_binary_sum (d : bytes) :
  (spec_offset d + 4 <= List.length d)%nat ->
  let o := spec_offset d in
  spec_binary d
  = (byte_val (nth o d x00) mod 128) * 2 ^ 24
    + byte_val (nth (o + 1) d x00) * 2 ^ 16
    + byte_val (nth (o + 2) d x00) * 2 ^ 8
    + byte_val (nth (o + 3) d x00).
Proof.
  intros H o. unfold spec_binary. fold o. rewrite (window4 o d H).
  unfold int_from_bytes_big, from_digits. cbn [map fold_left].
  rewrite byte_val_of.
  change 0x7F with (Z.ones 7). rewrite Z.land_ones by lia.
  change (2 ^ 7) with 128.
  pose proof (Z.mod_pos_bound (byte_val (nth o d x00)) 128 ltac:(lia)).
  rewrite (Z.mod_small _ 256) by lia. lia.
Qed.

Lemma spec_offset_range (d : bytes) : (spec_offset d <= 15)%nat.
Proof.
  unfold spec_offset.
  pose proof (Z.mod_pos_bound (byte_val (last d x00)) 16 ltac:(lia)). lia.
Qed.

Lemma spec_binary_range (d : bytes) :
  (20 <= List.length d)%nat -> 0 <= spec_binary d < 2 ^ 31.
Proof.
  intro H. pose proof (spec_offset_range d) as Ho.
  rewrite spec_binary_sum by lia. cbv zeta.
  set (o := spec_offset d).
  pose proof (Z.mod_pos_bound (byte_val (nth o d x00)) 128 ltac:(lia)).
  pose proof (byte_val_range (nth (o + 1) d x00)).
  pose proof (byte_val_range (nth (o + 2) d x00)).
  pose proof (byte_val_range (nth (o + 3) d x00)).
  lia.
Qed.

(** On a digest of at least 20 bytes every read of lines 23 to 28 is in
    range, and the bit operations compute the number of the
    specification. *)
Lemma truncate_digest_spec (d : bytes) (digits : nat) :
  (20 <= List.length d)%nat ->
  truncate_digest d digits
  = Ok (rjust (str_of_int (spec_binary d mod 10 ^ Z.of_nat digits)) digits 48).
Proof.
  intro H. pose proof (spec_offset_range d) as Ho.
  unfold truncate_digest.
  rewrite bytes_index_last by (destruct d; [simpl in H; lia | discriminate]).
  cbn [bind].
  change 0xf with (Z.ones 4). rewrite Z.land_ones by lia.
  change (2 ^ 4) with 16.
  pose proof (Z.mod_pos_bound (byte_val (last d x00)) 16 ltac:(lia)) as Hm.
  assert (Eo : byte_val (last d x00) mod 16 = Z.of_nat (spec_offset d))
    by (unfold spec_offset; lia).
  rewrite Eo.
  rewrite !bytes_index_nth by lia. cbn [bind].
  rewrite truncation_bits by apply byte_val_range.
  rewrite spec_binary_sum by lia. cbv zeta.
  replace (Z.to_nat (Z.of_nat (spec_offset d))) with (spec_offset d) by lia.
  replace (Z.to_nat (Z.of_nat (spec_offset d) + 1)) with (spec_offset d + 1)%nat by lia.
  replace (Z.to_nat (Z.of_nat (spec_offset d) + 2)) with (spec_offset d + 2)%nat by lia.
  replace (Z.to_nat (Z.of_nat (spec_offset d) + 3)) with (spec_offset d + 3)%nat by lia.
  reflexivity.
Qed.

(** ** Decimal text *)

Lemma decimal_value_app (s t : pystr) :
  decimal_value (s ++ t)
  = decimal_value s * 10 ^ Z.of_nat (List.length t) + decimal_value t.
Proof.
  unfold decimal_value. rewrite map_app, from_digits_app by lia.
  now rewrite length_map.
Qed.

Lemma decimal_value_zeros (k : nat) (s : pystr) :
  decimal_value (repeat 48 k ++ s) = decimal_value s.
Proof.
  induction k as [| k IH]; [reflexivity |].
  cbn [repeat app]. unfold decimal_value in *. cbn [map].
  rewrite from_digits_cons by lia. rewrite IH. lia.
Qed.

Lemma pos_digits_spec (fuel : nat) (n : Z) (acc : pystr) :
  (0 < fuel)%nat -> 0 <= n < 2 ^ Z.of_nat fuel ->
  exists ds,
    pos_digits fuel n acc = ds ++ acc
    /\ Forall is_digit ds
    /\ decimal_value ds = n
    /\ (1 <= List.length ds)%nat
    /\ (forall k : nat, (1 <= k)%nat -> n < 10 ^ Z.of_nat k ->
        (List.length ds <= k)%nat).
Proof.
  revert n acc. induction fuel as [| f IH]; intros n acc Hf Hn; [lia |].
  cbn [pos_digits]. destruct (Z.ltb_spec n 10) as [Hlt | Hge].
  - exists [digit_char n]. unfold digit_char, is_digit.
    repeat split.
    + constructor; [lia | constructor].
    + unfold decimal_value, from_digits. cbn [map fold_left]. lia.
    + simpl. lia.
    + intros k Hk _. simpl. lia.
  - rewrite Nat2Z.inj_succ, Z.pow_succ_r in Hn by lia.
    assert (Hq : 0 <= n / 10 < 2 ^ Z.of_nat f).
    { split; [apply Z.div_pos; lia |].
      apply Z.div_lt_upper_bound; lia. }
    assert (Hf' : (0 < f)%nat).
    { destruct f; [| lia]. cbn in Hn. lia. }
    destruct (IH (n / 10) (digit_char (n mod 10) :: acc) Hf' Hq)
      as [ds [E [Hd [Hv [Hl Hk]]]]].
    pose proof (Z.mod_pos_bound n 10 ltac:(lia)) as Hm.
    exists (ds ++ [digit_char (n mod 10)]). repeat split.
    + now rewrite E, <- app_assoc.
    + apply Forall_app. split; [exact Hd |].
      constructor; [unfold is_digit, digit_char; lia | constructor].
    + rewrite decimal_value_app, Hv.
      unfold digit_char, decimal_value, from_digits.
      cbn [map fold_left List.length].
      pose proof (Z.div_mod n 10 ltac:(lia)). lia.
    + rewrite length_app. simpl. lia.
    + intros k Hk1 Hnk. rewrite length_app. cbn [List.length].
      destruct k as [| [| k]]; [lia | cbn in Hnk; lia |].
      enough (List.length ds <= S k)%nat by lia.
      apply Hk; [lia |].
      rewrite Nat2Z.inj_succ, Z.pow_succ_r in Hnk by lia.
      apply Z.div_lt_upper_bound; lia.
Qed.

(** [str(n)] of a non-negative [n]: decimal digits that denote [n], and
    no more of them than [n] needs. *)
Lemma str_of_int_nonneg (n : Z) :
  0 <= n ->
  Forall is_digit (str_of_int n)
  /\ decimal_value (str_of_int n) = n
  /\ (1 <= List.length (str_of_int n))%nat
  /\ (forall k : nat, (1 <= k)%nat -> n < 10 ^ Z.of_nat k ->
      (List.length (str_of_int n) <= k)%nat).
Proof.
  intro Hn. unfold str_of_int.
  destruct (Z.ltb_spec n 0); [lia |].
  assert (Hfuel : 0 <= n < 2 ^ Z.of_nat (S (Z.to_nat (Z.log2 n)))).
  { pose proof (Z.log2_nonneg n).
    rewrite Nat2Z.inj_succ, Z2Nat.id by lia.
    destruct (Z.eq_dec n 0) as [-> | Hnz]; [cbn; lia |].
    pose proof (Z.log2_spec n ltac:(lia)). lia. }
  destruct (pos_digits_spec (S (Z.to_nat (Z.log2 n))) n []
              (Nat.lt_0_succ _) Hfuel) as [ds [E H']].
  rewrite E, app_nil_r. exact H'.
Qed.

Lemma rjust_length (s : pystr) (width : nat) (fill : Z) :
  List.length (rjust s width fill) = Nat.max width (List.length s).
Proof.
  unfold rjust. rewrite length_app, repeat_length. lia.
Qed.

(** The text returned on line 30, characterised: decimal digits, of the
    value [v mod 10^digits], [digits] of them (one when [digits] is 0). *)
Lemma code_text (v : Z) (digits : nat) :
  let code := rjust (str_of_int (v mod 10 ^ Z.of_nat digits)) digits 48 in
  Forall is_digit code
  /\ decimal_value code = v mod 10 ^ Z.of_nat digits
  /\ List.length code = Nat.max 1 digits.
Proof.
  assert (Hp : 0 < 10 ^ Z.of_nat digits) by (apply Z.pow_pos_nonneg; lia).
  pose proof (Z.mod_pos_bound v _ Hp) as Hm.
  destruct (str_of_int_nonneg _ (proj1 Hm)) as [Hd [Hv [Hl Hk]]].
  cbv zeta. unfold rjust. repeat split.
  - apply Forall_app. split; [| exact Hd].
    apply Forall_forall. intros c Hc. apply repeat_spec in Hc. subst c.
    unfold is_digit. lia.
  - now rewrite decimal_value_zeros.
  - rewrite length_app, repeat_length.
    destruct digits as [| k].
    + change (10 ^ Z.of_nat 0) with 1 in *.
      specialize (Hk 1%nat (le_n 1)). change (10 ^ Z.of_nat 1) with 10 in Hk.
      specialize (Hk ltac:(lia)). lia.
    + specialize (Hk (S k) ltac:(lia) (proj2 Hm)). lia.
Qed.

Lemma digits_ok_forallb (s : pystr) :
  Forall is_digit s -> forallb (fun c => (48 <=? c) && (c <=? 57)) s = true.
Proof.
  intro H. apply forallb_forall. intros c Hc.
  rewrite Forall_forall in H. specialize (H c Hc). unfold is_digit in H.
  apply andb_true_iff. split; apply Z.leb_le; lia.
Qed.

(** Reading back the decimal text of an [int] gives the [int]. *)
Lemma int_of_str_of_int (n : Z) : int_of_str (str_of_int n) = Some n.
Proof.
  destruct (Z.lt_ge_cases n 0) as [Hneg | Hpos].
  - destruct (str_of_int_nonneg (- n) ltac:(lia)) as [Hd [Hv [Hl _]]].
    assert (E : str_of_int n = 45 :: str_of_int (- n)).
    { unfold str_of_int.
      rewrite (proj2 (Z.ltb_lt n 0)) by lia.
      now rewrite (proj2 (Z.ltb_ge (- n) 0)) by lia. }
    rewrite E. destruct (str_of_int (- n)) as [| c ds] eqn:Es;
      [simpl in Hl; lia |].
    unfold int_of_str. rewrite (digits_ok_forallb _ Hd), Hv.
    f_equal. lia.
  - destruct (str_of_int_nonneg n Hpos) as [Hd [Hv [Hl _]]].
    destruct (str_of_int n) as [| c ds] eqn:Es; [simpl in Hl; lia |].
    assert (Hc : is_digit c) by (now inversion Hd).
    unfold int_of_str. rewrite (digits_ok_forallb _ Hd), Hv.
    unfold is_digit in Hc.
    destruct c as [| c | c]; try lia.
    do 6 (destruct c as [c | c |]; try lia; try reflexivity).
Qed.

(** ** Encoding the secret *)

Lemma utf8_char_scalar (c : Z) :
  is_scalar c = true -> exists bs, utf8_char c = Ok bs.
Proof.
  unfold is_scalar, utf8_char. intro H.
  apply andb_true_iff in H. destruct H as [H Hs].
  apply andb_true_iff in H. destruct H as [Hlo Hhi].
  apply Z.leb_le in Hlo. apply Z.ltb_lt in Hhi.
  apply negb_true_iff in Hs.
  rewrite (proj2 (Z.ltb_ge c 0)) by lia.
  destruct (c <? 0x80); [eexists; reflexivity |].
  destruct (c <? 0x800); [eexists; reflexivity |].
  rewrite Hs.
  destruct (c <? 0x10000); [eexists; reflexivity |].
  rewrite (proj2 (Z.ltb_lt c 0x110000)) by lia.
  eexists; reflexivity.
Qed.

Lemma utf8_char_not_scalar (c : Z) :
  is_scalar c = false -> utf8_char c = Raise UnicodeEncodeError.
Proof.
  unfold is_scalar, utf8_char. intro H.
  destruct (Z.ltb_spec c 0) as [| Hlo]; [reflexivity |].
  rewrite (proj2 (Z.leb_le 0 c)) in H by lia. cbn [andb] in H.
  destruct (Z.ltb_spec c 0x80) as [| H1];
    [rewrite (proj2 (Z.ltb_lt c 0x110000)), (proj2 (Z.leb_gt 0xD800 c)) in H by lia;
     discriminate |].
  destruct (Z.ltb_spec c 0x800) as [| H2];
    [rewrite (proj2 (Z.ltb_lt c 0x110000)), (proj2 (Z.leb_gt 0xD800 c)) in H by lia;
     discriminate |].
  destruct ((0xD800 <=? c) && (c <=? 0xDFFF)) eqn:Hs; [reflexivity |].
  destruct (Z.ltb_spec c 0x10000) as [| H3];
    [rewrite (proj2 (Z.ltb_lt c 0x110000)) in H by lia; discriminate |].
  destruct (Z.ltb_spec c 0x110000) as [| H4]; [discriminate | reflexivity].
Qed.

Lemma encode_scalar (s : pystr) :
  forallb is_scalar s = true -> exists key, encode s = Ok key.
Proof.
  induction s as [| c s IH]; intro H; [now exists [] |].
  cbn [forallb] in H. apply andb_true_iff in H. destruct H as [Hc Hs].
  destruct (utf8_char_scalar c Hc) as [b Hb].
  destruct (IH Hs) as [key Hk].
  exists (b ++ key). cbn [encode]. now rewrite Hb, Hk.
Qed.

Lemma encode_not_scalar (s : pystr) :
  forallb is_scalar s = false -> encode s = Raise UnicodeEncodeError.
Proof.
  induction s as [| c s IH]; intro H; [discriminate |].
  cbn [forallb] in H. cbn [encode].
  destruct (is_scalar c) eqn:Hc.
  - destruct (utf8_char_scalar c Hc) as [b ->]. cbn [bind].
    cbn [andb] in H. now rewrite (IH H).
  - now rewrite (utf8_char_not_scalar c Hc).
Qed.

Lemma encode_app (s t : pystr) (a b : bytes) :
  encode s = Ok a -> encode t = Ok b -> encode (s ++ t) = Ok (a ++ b).
Proof.
  revert a. induction s as [| c s IH]; intros a Hs Ht.
  - injection Hs as <-. exact Ht.
  - cbn [encode app] in *.
    destruct (utf8_char c) as [x | e]; [| discriminate]. cbn [bind] in *.
    destruct (encode s) as [y | e]; [| discriminate]. cbn [bind] in *.
    injection Hs as <-. rewrite (IH y eq_refl Ht). cbn [bind].
    now rewrite app_assoc.
Qed.

(** ** The time-step counter *)

Lemma time_steps_zero (now : Q) : time_steps now 0 = Raise ZeroDivisionError.
Proof. reflexivity. Qed.

Lemma time_steps_eq (now : Q) (period : Z) :
  period <> 0 ->
  time_steps now period = int_to_bytes_big 8 (Qfloor (now / inject_Z period)).
Proof.
  intro H. unfold time_steps, time_div.
  destruct (Z.eqb_spec period 0); [contradiction | reflexivity].
Qed.

Lemma inject_Z_pos (z : Z) : 0 < z -> (0 < inject_Z z)%Q.
Proof.
  intro H. unfold Qlt. simpl. lia.
Qed.

(** [Qfloor] of the quotient is the mathematical floor: the integer [k]
    with [k * period <= now < (k + 1) * period]. *)
Lemma floor_div_bounds (now : Q) (period : Z) :
  0 < period ->
  (inject_Z (Qfloor (now / inject_Z period)) * inject_Z period <= now
   /\ now < inject_Z (Qfloor (now / inject_Z period) + 1) * inject_Z period)%Q.
Proof.
  intro Hp. pose proof (inject_Z_pos period Hp) as Hq.
  assert (Hnz : ~ (inject_Z period == 0)%Q)
    by (intro E; rewrite E in Hq; now apply Qlt_irrefl in Hq).
  assert (E : (now / inject_Z period * inject_Z period == now)%Q)
    by (rewrite Qmult_comm; now apply Qmult_div_r).
  split.
  - rewrite <- E at 2. apply Qmult_le_compat_r.
    + apply Qfloor_le.
    + now apply Qlt_le_weak.
  - rewrite <- E at 1. apply Qmult_lt_r; [exact Hq | apply Qlt_floor].
Qed.

Lemma floor_div_nonneg (now : Q) (period : Z) :
  0 < period -> (0 <= now)%Q -> 0 <= Qfloor (now / inject_Z period).
Proof.
  intros Hp Hn. change 0 with (Qfloor 0). apply Qfloor_resp_le.
  apply Qle_shift_div_l; [now apply inject_Z_pos |].
  now rewrite Qmult_0_l.
Qed.

Lemma floor_div_negative (now : Q) (period : Z) :
  period < 0 -> (0 < now)%Q -> Qfloor (now / inject_Z period) < 0.
Proof.
  intros Hp Hn. destruct now as [n d]. destruct period as [| q | q]; try lia.
  unfold Qlt in Hn. simpl in Hn.
  unfold Qdiv, Qmult, Qinv, inject_Z, Qfloor. simpl.
  apply Z.div_lt_upper_bound; lia.
Qed.


(** ** Binary64 rounding

    [ilog2] is the floor of the binary logarithm, and rounding to 53
    significant bits keeps the floor of a quotient whose numerator is
    below [2^53]. *)

Lemma pow2_split (x y : Z) : 0 <= x -> 0 <= y -> 2 ^ (x + y) = 2 ^ x * 2 ^ y.
Proof. intros; apply Z.pow_add_r; lia. Qed.

Lemma pow2_pos (x : Z) : 0 <= x -> 0 < 2 ^ x.
Proof. intros; apply Z.pow_pos_nonneg; lia. Qed.

Lemma ilog2_lower (a b : Z) :
  0 < a -> 0 < b -> pow2_le (ilog2 a b) a b = true.
Proof.
  intros Ha Hb. unfold ilog2.
  destruct (pow2_le (Z.log2 a - Z.log2 b) a b) eqn:E; [exact E|].
  pose proof (Z.log2_spec a Ha) as [La _].
  pose proof (Z.log2_spec b Hb) as [_ Ub].
  pose proof (Z.log2_nonneg a) as Na. pose proof (Z.log2_nonneg b) as Nb.
  unfold pow2_le.
  destruct (0 <=? Z.log2 a - Z.log2 b - 1) eqn:S.
  - apply Z.leb_le in S. apply Z.leb_le.
    assert (P : 2 ^ Z.log2 a
                = 2 ^ Z.succ (Z.log2 b) * 2 ^ (Z.log2 a - Z.log2 b - 1)).
    { rewrite <- pow2_split by lia. f_equal. lia. }
    pose proof (pow2_pos (Z.log2 a - Z.log2 b - 1) S). nia.
  - apply Z.leb_gt in S. apply Z.leb_le.
    assert (P : 2 ^ Z.succ (Z.log2 b)
                = 2 ^ Z.log2 a * 2 ^ (- (Z.log2 a - Z.log2 b - 1))).
    { rewrite <- pow2_split by lia. f_equal. lia. }
    pose proof (pow2_pos (- (Z.log2 a - Z.log2 b - 1)) ltac:(lia)). nia.
Qed.

Lemma ilog2_upper (a b : Z) :
  0 < a -> 0 < b -> pow2_le (ilog2 a b + 1) a b = false.
Proof.
  intros Ha Hb. unfold ilog2.
  destruct (pow2_le (Z.log2 a - Z.log2 b) a b) eqn:E.
  - pose proof (Z.log2_spec a Ha) as [_ Ua].
    pose proof (Z.log2_spec b Hb) as [Lb _].
    pose proof (Z.log2_nonneg a) as Na. pose proof (Z.log2_nonneg b) as Nb.
    unfold pow2_le.
    destruct (0 <=? Z.log2 a - Z.log2 b + 1) eqn:S.
    + apply Z.leb_le in S. apply Z.leb_gt.
      assert (P : 2 ^ Z.succ (Z.log2 a)
                  = 2 ^ Z.log2 b * 2 ^ (Z.log2 a - Z.log2 b + 1)).
      { rewrite <- pow2_split by lia. f_equal. lia. }
      pose proof (pow2_pos (Z.log2 a - Z.log2 b + 1) S). nia.
    + apply Z.leb_gt in S. apply Z.leb_gt.
      assert (P : 2 ^ Z.log2 b
                  = 2 ^ Z.succ (Z.log2 a) * 2 ^ (- (Z.log2 a - Z.log2 b + 1))).
      { rewrite <- pow2_split by lia. f_equal. lia. }
      pose proof (pow2_pos (- (Z.log2 a - Z.log2 b + 1)) ltac:(lia)). nia.
  - replace (Z.log2 a - Z.log2 b - 1 + 1) with (Z.log2 a - Z.log2 b) by lia.
    exact E.
Qed.

Lemma rne_div_bounds (a b : Z) : a / b <= rne_div a b <= a / b + 1.
Proof.
  unfold rne_div.
  destruct (2 * (a mod b) ?= b); [destruct (Z.even (a / b))| |]; lia.
Qed.

Lemma rne_div_below (a b k : Z) :
  0 < b -> 2 * a < (2 * k - 1) * b -> rne_div a b < k.
Proof.
  intros Hb H.
  pose proof (Z.div_mod a b ltac:(lia)) as D.
  pose proof (Z.mod_pos_bound a b Hb) as R.
  unfold rne_div.
  destruct (2 * (a mod b) ?= b) eqn:C.
  - apply Z.compare_eq in C.
    assert (a / b + 1 < k) by nia.
    destruct (Z.even (a / b)); lia.
  - nia.
  - apply Z.compare_gt_iff in C. nia.
Qed.

Lemma rne_div_one (a : Z) : rne_div a 1 = a.
Proof.
  unfold rne_div. rewrite Z.mod_1_r, Z.div_1_r. reflexivity.
Qed.

Lemma div_between (m p n : Z) : 0 < p -> n * p <= m < (n + 1) * p -> m / p = n.
Proof.
  intros Hp H. symmetry. apply (Z.div_unique_pos m p n (m - n * p)); lia.
Qed.

(** A quotient whose numerator is below [2^53] is rounded to a number
    with the same floor: between an integer and the quotient below it
    there is at least half a unit in the last place. *)
Lemma round64_pos_floor (a b : Z) :
  0 < a < 2 ^ 53 -> 0 < b -> Qfloor (round64_pos a b) = a / b.
Proof.
  intros [Ha Ha53] Hb.
  pose proof (ilog2_lower a b Ha Hb) as L.
  pose proof (ilog2_upper a b Ha Hb) as U.
  unfold round64_pos. set (e := ilog2 a b) in *.
  assert (He : e <= 52).
  { destruct (Z_le_gt_dec e 52) as [|G]; [assumption|exfalso].
    unfold pow2_le in L. rewrite (proj2 (Z.leb_le 0 e)) in L by lia.
    apply Z.leb_le in L.
    assert (2 ^ 53 <= 2 ^ e) by (apply Z.pow_le_mono_r; lia). nia. }
  pose proof (Z.div_mod a b ltac:(lia)) as D.
  pose proof (Z.mod_pos_bound a b Hb) as R.
  assert (N0 : 0 <= a / b) by (apply Z.div_pos; lia).
  destruct (0 <=? Z.max e (-1022) - 52) eqn:S.
  - apply Z.leb_le in S.
    assert (e = 52) by lia. subst e.
    replace (Z.max (ilog2 a b) (-1022) - 52) with 0 by lia.
    unfold pow2_le in L. rewrite H in L. cbn [Z.leb Z.compare] in L.
    apply Z.leb_le in L.
    assert (b = 1) by lia. subst b.
    cbn [Z.pow Z.pow_pos Pos.iter Z.mul Pos.mul].
    rewrite rne_div_one, Z.mul_1_r, Qfloor_Z, Z.div_1_r. reflexivity.
  - apply Z.leb_gt in S.
    set (s := - (Z.max e (-1022) - 52)) in *.
    assert (Hs : 0 < s) by lia.
    pose proof (pow2_pos s ltac:(lia)) as HP.
    unfold Qfloor. rewrite Z2Pos.id by exact HP.
    set (P := 2 ^ s) in *.
    apply div_between; [exact HP|]. split.
    + transitivity (a * P / b); [|apply rne_div_bounds].
      apply Z.div_le_lower_bound; [exact Hb|]. nia.
    + apply rne_div_below; [exact Hb|].
      destruct (Z_le_gt_dec (-1022) e) as [Hn|Hn].
      * (* normal range *)
        assert (B : b < 2 * P).
        { assert (E2 : 2 * P = 2 ^ (53 - e)).
          { unfold P, s. rewrite Z.max_l by lia.
            replace (53 - e) with (1 + - (e - 52)) by lia.
            rewrite pow2_split by lia. reflexivity. }
          rewrite E2. unfold pow2_le in L.
          destruct (0 <=? e) eqn:Se.
          - apply Z.leb_le in Se. apply Z.leb_le in L.
            assert (2 ^ 53 = 2 ^ (53 - e) * 2 ^ e).
            { rewrite <- pow2_split by lia. f_equal. lia. }
            pose proof (pow2_pos e Se). nia.
          - apply Z.leb_gt in Se. apply Z.leb_le in L.
            assert (2 ^ (53 - e) = 2 ^ 53 * 2 ^ (- e)).
            { rewrite <- pow2_split by lia. f_equal. }
            pose proof (pow2_pos (- e) ltac:(lia)). nia. }
        nia.
      * (* subnormal range *)
        assert (Es : s = 1074) by lia.
        unfold pow2_le in U.
        rewrite (proj2 (Z.leb_gt 0 (e + 1))) in U by lia.
        apply Z.leb_gt in U.
        assert (M : 2 ^ 1022 <= 2 ^ (- (e + 1)))
          by (apply Z.pow_le_mono_r; lia).
        assert (EP : P = 2 ^ 1022 * 2 ^ 52).
        { unfold P. rewrite Es. rewrite <- pow2_split by lia. reflexivity. }
        assert (a / b = 0) by (apply Z.div_small; nia).
        pose proof (pow2_pos 1022 ltac:(lia)).
        assert (2 ^ 52 = 4503599627370496) by reflexivity.
        nia.
Qed.

Lemma round64_pos_nonneg (a b : Z) :
  0 < a -> 0 < b -> (0 <= round64_pos a b)%Q.
Proof.
  intros Ha Hb. unfold round64_pos.
  destruct (0 <=? Z.max (ilog2 a b) (-1022) - 52) eqn:S.
  - apply Z.leb_le in S.
    pose proof (pow2_pos _ S) as HP.
    pose proof (rne_div_bounds a (b * 2 ^ (Z.max (ilog2 a b) (-1022) - 52))).
    assert (0 <= a / (b * 2 ^ (Z.max (ilog2 a b) (-1022) - 52)))
      by (apply Z.div_pos; nia).
    unfold Qle; cbn. nia.
  - pose proof (rne_div_bounds (a * 2 ^ (- (Z.max (ilog2 a b) (-1022) - 52))) b).
    apply Z.leb_gt in S.
    pose proof (pow2_pos (- (Z.max (ilog2 a b) (-1022) - 52)) ltac:(lia)).
    assert (0 <= a * 2 ^ (- (Z.max (ilog2 a b) (-1022) - 52)) / b)
      by (apply Z.div_pos; nia).
    unfold Qle; cbn. lia.
Qed.

Lemma round64_comp (x y : Q) : (x == y)%Q -> round64 x = round64 y.
Proof.
  intros E. unfold round64. rewrite (Qred_complete x y E). reflexivity.
Qed.

(** The numerator of a fraction in lowest terms is not larger than that
    of any other way of writing it. *)
Lemma Qred_num_bound (x : Q) (m : Z) (d : positive) :
  (x == m # d)%Q -> 0 <= m -> 0 <= Qnum (Qred x) <= m.
Proof.
  intros E Hm.
  assert (C : (Qred x == m # d)%Q)
    by (apply (Qeq_trans _ x); [apply Qred_correct|exact E]).
  pose proof (gcd_Qred x) as G.
  destruct (Qred x) as [n k]. cbn [Qnum Qden] in *.
  unfold Qeq in C. cbn [Qnum Qden] in C.
  assert (Hn : 0 <= n).
  { destruct (Z_lt_le_dec n 0) as [Neg|]; [exfalso|assumption].
    assert (n * Z.pos d < 0) by (apply Z.mul_neg_pos; lia).
    assert (0 <= m * Z.pos k) by (apply Z.mul_nonneg_nonneg; lia).
    lia. }
  split; [exact Hn|].
  assert (Dv : (Z.pos k | Z.pos d)).
  { apply (Z.gauss (Z.pos k) n (Z.pos d)).
    - exists m. lia.
    - rewrite Z.gcd_comm. exact G. }
  destruct Dv as [c Hc].
  assert (0 < c) by nia.
  assert (n * c = m) by nia.
  nia.
Qed.

Lemma Qfloor_Qred (x : Q) : Qfloor (Qred x) = Qfloor x.
Proof. apply Qfloor_comp, Qred_correct. Qed.

(** The binary64 quotient of a reading below [2^53]: same floor as the
    exact quotient, and finite. *)
Lemma round64_floor (x : Q) (m : Z) (d : positive) :
  (x == m # d)%Q -> 0 <= m < 2 ^ 53 ->
  Qfloor (round64 x) = Qfloor x /\ to_float64 x = Finite (round64 x).
Proof.
  intros E Hm.
  pose proof (Qred_num_bound x m d E ltac:(lia)) as Hn.
  assert (F : Qfloor (round64 x) = Qfloor x /\ (0 <= round64 x)%Q).
  { unfold round64. rewrite <- (Qfloor_Qred x).
    destruct (Qred x) as [n k]. cbn [Qnum] in Hn.
    destruct n as [|n|n]; [| |lia].
    - split; reflexivity || discriminate.
    - split.
      + rewrite Qfloor_Qred. apply round64_pos_floor; lia.
      + rewrite Qred_correct. apply round64_pos_nonneg; lia. }
  destruct F as [F N]. split; [exact F|].
  unfold to_float64.
  destruct (Qle_bool (inject_Z (2 ^ 1024)) (Qabs (round64 x))) eqn:B;
    [exfalso|reflexivity].
  apply Qle_bool_iff in B. rewrite (Qabs_pos _ N) in B.
  pose proof (Qlt_floor (round64 x)) as U. rewrite F in U.
  assert (K : Qfloor x <= m).
  { rewrite (Qfloor_comp _ _ E). unfold Qfloor.
    apply Z.div_le_upper_bound; [lia|]. nia. }
  assert (V : (inject_Z (2 ^ 1024) < inject_Z (Qfloor x + 1))%Q)
    by (eapply Qle_lt_trans; eassumption).
  rewrite <- Zlt_Qlt in V.
  assert (2 ^ 53 < 2 ^ 1024) by (apply Z.pow_lt_mono_r; lia).
  lia.
Qed.

Lemma Qred_inject_Z (n : Z) : Qred (inject_Z n) = inject_Z n.
Proof. apply Qcanon.Qred_identity. apply Z.gcd_1_r. Qed.

(** A positive [int] below [2^53] is a binary64 number. *)
Lemma round64_inject_Z (n : Z) :
  0 < n < 2 ^ 53 -> round64 (inject_Z n) = inject_Z n.
Proof.
  intros [Hn Hn53]. unfold round64.
  rewrite Qred_inject_Z. unfold inject_Z at 1.
  destruct n as [|n|n]; try lia.
  rewrite <- (Qred_inject_Z (Z.pos n)).
  apply Qred_complete.
  pose proof (ilog2_lower (Z.pos n) 1 ltac:(lia) ltac:(lia)) as L.
  pose proof (ilog2_upper (Z.pos n) 1 ltac:(lia) ltac:(lia)) as U.
  unfold round64_pos. set (e := ilog2 (Z.pos n) 1) in *.
  assert (He : e <= 52).
  { destruct (Z_le_gt_dec e 52) as [|G]; [assumption|exfalso].
    unfold pow2_le in L. rewrite (proj2 (Z.leb_le 0 e)) in L by lia.
    apply Z.leb_le in L.
    assert (2 ^ 53 <= 2 ^ e) by (apply Z.pow_le_mono_r; lia). lia. }
  destruct (0 <=? Z.max e (-1022) - 52) eqn:S.
  - apply Z.leb_le in S.
    replace (Z.max e (-1022) - 52) with 0 by lia.
    cbn [Z.pow Z.pow_pos Pos.iter Z.mul Pos.mul].
    rewrite rne_div_one, Z.mul_1_r. reflexivity.
  - apply Z.leb_gt in S.
    pose proof (pow2_pos (- (Z.max e (-1022) - 52)) ltac:(lia)) as HP.
    rewrite rne_div_one. unfold Qeq. cbn [Qnum Qden inject_Z].
    rewrite Z2Pos.id by exact HP. lia.
Qed.

(** In the normal range the significand has its 53 bits. *)
Lemma round64_pos_positive (a b : Z) :
  0 < a -> 0 < b -> -1022 <= ilog2 a b -> (0 < round64_pos a b)%Q.
Proof.
  intros Ha Hb He.
  pose proof (ilog2_lower a b Ha Hb) as L.
  unfold round64_pos. set (e := ilog2 a b) in *.
  rewrite Z.max_l by lia. unfold pow2_le in L.
  destruct (0 <=? e - 52) eqn:S.
  - apply Z.leb_le in S.
    rewrite (proj2 (Z.leb_le 0 e)) in L by lia. apply Z.leb_le in L.
    pose proof (pow2_pos (e - 52) S) as HP.
    assert (E : 2 ^ e = 2 ^ (e - 52) * 2 ^ 52).
    { rewrite <- pow2_split by lia. f_equal. lia. }
    pose proof (rne_div_bounds a (b * 2 ^ (e - 52))) as [B _].
    assert (2 ^ 52 <= a / (b * 2 ^ (e - 52)))
      by (apply Z.div_le_lower_bound; nia).
    assert (0 < 2 ^ 52) by reflexivity.
    unfold Qlt; cbn. nia.
  - apply Z.leb_gt in S.
    pose proof (pow2_pos (- (e - 52)) ltac:(lia)) as HP.
    pose proof (rne_div_bounds (a * 2 ^ (- (e - 52))) b) as [B _].
    assert (0 < 2 ^ 52) by reflexivity.
    assert (2 ^ 52 <= a * 2 ^ (- (e - 52)) / b).
    { apply Z.div_le_lower_bound; [exact Hb|].
      destruct (0 <=? e) eqn:Se.
      - apply Z.leb_le in Se. apply Z.leb_le in L.
        assert (E : 2 ^ 52 = 2 ^ e * 2 ^ (- (e - 52))).
        { rewrite <- pow2_split by lia. f_equal. lia. }
        pose proof (pow2_pos e Se). nia.
      - apply Z.leb_gt in Se. apply Z.leb_le in L.
        assert (E : 2 ^ (- (e - 52)) = 2 ^ (- e) * 2 ^ 52).
        { rewrite <- pow2_split by lia. f_equal. lia. }
        nia. }
    unfold Qlt; cbn. lia.
Qed.

(** Rounding does not go below a power of two. *)
Lemma round64_pos_large (a b n : Z) :
  0 < a -> 0 < b -> 52 <= n -> b * 2 ^ n <= a ->
  (inject_Z (2 ^ n) <= round64_pos a b)%Q.
Proof.
  intros Ha Hb Hn H.
  pose proof (ilog2_lower a b Ha Hb) as L.
  pose proof (ilog2_upper a b Ha Hb) as U.
  unfold round64_pos. set (e := ilog2 a b) in *.
  pose proof (pow2_pos n ltac:(lia)) as Pn.
  assert (He : n <= e).
  { destruct (Z_le_gt_dec n e) as [|G]; [assumption|exfalso].
    unfold pow2_le in U. destruct (0 <=? e + 1) eqn:S.
    - apply Z.leb_le in S. apply Z.leb_gt in U.
      assert (2 ^ (e + 1) <= 2 ^ n) by (apply Z.pow_le_mono_r; lia). nia.
    - apply Z.leb_gt in S. apply Z.leb_gt in U.
      pose proof (pow2_pos (- (e + 1)) ltac:(lia)). nia. }
  rewrite Z.max_l by lia.
  rewrite (proj2 (Z.leb_le 0 (e - 52))) by lia.
  unfold pow2_le in L. rewrite (proj2 (Z.leb_le 0 e)) in L by lia.
  apply Z.leb_le in L.
  pose proof (pow2_pos (e - 52) ltac:(lia)) as HP.
  assert (E : 2 ^ e = 2 ^ (e - 52) * 2 ^ 52).
  { rewrite <- pow2_split by lia. f_equal. lia. }
  pose proof (rne_div_bounds a (b * 2 ^ (e - 52))) as [B _].
  assert (2 ^ 52 <= a / (b * 2 ^ (e - 52)))
    by (apply Z.div_le_lower_bound; nia).
  assert (2 ^ n <= 2 ^ e) by (apply Z.pow_le_mono_r; lia).
  rewrite <- Zle_Qle. nia.
Qed.

(** A quotient from [2^64] on is not rounded below [2^64]. *)
Lemma round64_floor_large (x : Q) (n : Z) :
  52 <= n -> (inject_Z (2 ^ n) <= x)%Q -> 2 ^ n <= Qfloor (round64 x).
Proof.
  intros Hn H.
  pose proof (pow2_pos n ltac:(lia)) as Pn.
  rewrite <- (Qred_correct x) in H.
  unfold round64. destruct (Qred x) as [a b].
  unfold Qle in H. cbn [Qnum Qden inject_Z] in H.
  destruct a as [|a|a]; try lia.
  rewrite Qfloor_Qred, <- (Qfloor_Z (2 ^ n)).
  apply Qfloor_resp_le, round64_pos_large; lia.
Qed.

(** A quotient at or below [-2^-1022] is rounded to a negative number. *)
Lemma round64_floor_negative (x : Q) :
  (x <= - (1 # Z.to_pos (2 ^ 1022)))%Q -> Qfloor (round64 x) < 0.
Proof.
  intros H.
  pose proof (pow2_pos 1022 ltac:(lia)) as P.
  rewrite <- (Qred_correct x) in H.
  unfold round64. destruct (Qred x) as [a b].
  unfold Qle in H. cbn [Qnum Qden Qopp] in H.
  rewrite Z2Pos.id in H by exact P.
  destruct a as [|a|a]; try lia.
  rewrite Qfloor_Qred.
  assert (R : (0 < round64_pos (Z.pos a) (Z.pos b))%Q).
  { apply round64_pos_positive; try lia.
    pose proof (ilog2_upper (Z.pos a) (Z.pos b) ltac:(lia) ltac:(lia)) as U.
    set (e := ilog2 (Z.pos a) (Z.pos b)) in *.
    destruct (Z_le_gt_dec (-1022) e) as [|G]; [assumption|exfalso].
    unfold pow2_le in U. rewrite (proj2 (Z.leb_gt 0 (e + 1))) in U by lia.
    apply Z.leb_gt in U.
    assert (2 ^ 1022 <= 2 ^ (- (e + 1))) by (apply Z.pow_le_mono_r; lia).
    nia. }
  assert (F : (inject_Z (Qfloor (- round64_pos (Z.pos a) (Z.pos b))) < 0)%Q).
  { eapply Qle_lt_trans; [apply Qfloor_le|].
    apply Qopp_lt_compat in R. exact R. }
  change 0%Q with (inject_Z 0) in F. rewrite <- Zlt_Qlt in F. exact F.
Qed.

(** [float] of an [int] from [2^1024] on, of either sign, overflows. *)
Lemma to_float64_huge (n : Z) :
  2 ^ 1024 <= Z.abs n -> to_float64 (inject_Z n) = Infinite.
Proof.
  intros H.
  pose proof (pow2_pos 1024 ltac:(lia)) as P.
  unfold to_float64.
  assert (B : (inject_Z (2 ^ 1024) <= Qabs (round64 (inject_Z n)))%Q).
  { unfold round64. rewrite Qred_inject_Z. unfold inject_Z at 2.
    destruct n as [|a|a]; [cbn in H; lia| |].
    - assert (R := round64_pos_large (Z.pos a) 1 1024
                     ltac:(lia) ltac:(lia) ltac:(lia) ltac:(cbn in H; lia)).
      rewrite Qred_correct. rewrite Qabs_pos; [exact R|].
      eapply Qle_trans; [|exact R].
      change 0%Q with (inject_Z 0). rewrite <- Zle_Qle. lia.
    - assert (R := round64_pos_large (Z.pos a) 1 1024
                     ltac:(lia) ltac:(lia) ltac:(lia) ltac:(cbn in H; lia)).
      rewrite Qred_correct, Qabs_opp. rewrite Qabs_pos; [exact R|].
      eapply Qle_trans; [|exact R].
      change 0%Q with (inject_Z 0). rewrite <- Zle_Qle. lia. }
  apply Qle_bool_iff in B. rewrite B. reflexivity.
Qed.

(** Every binary64 number [0 <= x < 2^53] is a fraction with a numerator
    below [2^53]. *)
Lemma binary64_numerator (x : Q) :
  (round64 x == x)%Q -> (0 <= x)%Q -> (x < inject_Z (2 ^ 53))%Q ->
  exists (m : Z) (d : positive), (x == m # d)%Q /\ 0 <= m < 2 ^ 53.
Proof.
  intros R H0 H53.
  pose proof (Qred_correct x) as C.
  unfold round64 in R. destruct (Qred x) as [a b].
  destruct a as [| a | a].
  - exists 0, b. split; [now rewrite <- C | split; [lia | reflexivity]].
  - rewrite Qred_correct in R.
    pose proof (ilog2_upper (Z.pos a) (Z.pos b) ltac:(lia) ltac:(lia)) as U.
    unfold round64_pos in R. set (e := ilog2 (Z.pos a) (Z.pos b)) in *.
    destruct (0 <=? Z.max e (-1022) - 52) eqn:S.
    + apply Z.leb_le in S.
      pose proof (pow2_pos _ S) as HP.
      pose proof (rne_div_bounds (Z.pos a)
                    (Z.pos b * 2 ^ (Z.max e (-1022) - 52))) as [B _].
      assert (0 <= Z.pos a / (Z.pos b * 2 ^ (Z.max e (-1022) - 52)))
        by (apply Z.div_pos; nia).
      set (v := rne_div (Z.pos a) (Z.pos b * 2 ^ (Z.max e (-1022) - 52))
                * 2 ^ (Z.max e (-1022) - 52)) in *.
      exists v, 1%positive. split; [symmetry; exact R |].
      split; [unfold v; nia |].
      rewrite <- R in H53. rewrite <- Zlt_Qlt in H53. exact H53.
    + apply Z.leb_gt in S.
      set (s := - (Z.max e (-1022) - 52)) in *.
      pose proof (pow2_pos s ltac:(lia)) as HP.
      pose proof (rne_div_bounds (Z.pos a * 2 ^ s) (Z.pos b)) as [B1 B2].
      assert (N : 0 <= Z.pos a * 2 ^ s / Z.pos b)
        by (apply Z.div_pos; nia).
      assert (T : Z.pos a * 2 ^ s / Z.pos b < 2 ^ 53).
      { apply Z.div_lt_upper_bound; [lia |].
        unfold pow2_le in U.
        destruct (Z_le_gt_dec (-1022) e) as [Hn | Hn].
        - assert (Es : s = 52 - e) by lia.
          destruct (0 <=? e + 1) eqn:Se.
          + apply Z.leb_le in Se. apply Z.leb_gt in U.
            assert (E2 : 2 ^ 53 = 2 ^ (e + 1) * 2 ^ s).
            { rewrite <- pow2_split by lia. f_equal. lia. }
            pose proof (pow2_pos (e + 1) Se). nia.
          + apply Z.leb_gt in Se. apply Z.leb_gt in U.
            assert (E2 : 2 ^ s = 2 ^ (- (e + 1)) * 2 ^ 53).
            { rewrite <- pow2_split by lia. f_equal. lia. }
            assert (0 < 2 ^ 53) by reflexivity. nia.
        - assert (Es : s = 1074) by lia.
          rewrite (proj2 (Z.leb_gt 0 (e + 1))) in U by lia.
          apply Z.leb_gt in U.
          assert (2 ^ 1022 <= 2 ^ (- (e + 1)))
            by (apply Z.pow_le_mono_r; lia).
          assert (E2 : 2 ^ s = 2 ^ 1022 * 2 ^ 52).
          { rewrite Es. rewrite <- pow2_split by lia. reflexivity. }
          pose proof (pow2_pos 1022 ltac:(lia)).
          assert (2 ^ 52 = 4503599627370496) by reflexivity.
          assert (2 ^ 53 = 9007199254740992) by reflexivity.
          nia. }
      set (M := rne_div (Z.pos a * 2 ^ s) (Z.pos b)) in *.
      destruct (Z_lt_le_dec M (2 ^ 53)) as [Lt | Ge].
      * exists M, (Z.to_pos (2 ^ s)). split; [symmetry; exact R | lia].
      * assert (EM : M = 2 ^ 53) by lia.
        exists (2 ^ 52), (Z.to_pos (2 ^ (s - 1))).
        split; [| split; [discriminate | reflexivity]].
        rewrite <- R, EM. unfold Qeq. cbn [Qnum Qden].
        pose proof (pow2_pos (s - 1) ltac:(lia)) as HP1.
        rewrite !Z2Pos.id by assumption.
        replace s with (1 + (s - 1)) at 2 by lia.
        rewrite pow2_split by lia.
        change (2 ^ 53) with (2 * 2 ^ 52). change (2 ^ 1) with 2. ring.
  - exfalso. rewrite <- C in H0. unfold Qle in H0. cbn in H0. lia.
Qed.

(** ** Line 20 in binary64 *)

Lemma float_of_int_small (n : Z) :
  0 < n < 2 ^ 53 -> float_of_int n = Ok (inject_Z n).
Proof.
  intro H. unfold float_of_int.
  destruct (round64_floor (inject_Z n) n 1 (Qeq_refl _) ltac:(lia)) as [_ F].
  rewrite F, round64_inject_Z by exact H. reflexivity.
Qed.

Lemma float_of_int_huge (n : Z) :
  2 ^ 1024 <= Z.abs n -> float_of_int n = Raise OverflowError.
Proof.
  intro H. unfold float_of_int. now rewrite to_float64_huge.
Qed.

Lemma time_steps64_zero (now : Q) :
  time_steps64 now 0 = Raise ZeroDivisionError.
Proof. vm_compute. reflexivity. Qed.

Lemma time_steps64_huge (now : Q) (period : Z) :
  2 ^ 1024 <= Z.abs period -> time_steps64 now period = Raise OverflowError.
Proof.
  intro H. unfold time_steps64. now rewrite float_of_int_huge.
Qed.

(** With a period that is a binary64 number, line 20 is the floor of the
    rounded quotient. *)
Lemma time_steps64_small_period (now : Q) (period : Z) :
  0 < period < 2 ^ 53 ->
  time_steps64 now period
  = (k <- math_floor (to_float64 (now / inject_Z period)) ;;
     int_to_bytes_big 8 k).
Proof.
  intro H. unfold time_steps64. rewrite float_of_int_small by exact H.
  cbn [bind]. unfold float_truediv.
  destruct (Qeq_bool (inject_Z period) 0) eqn:E; [exfalso | reflexivity].
  apply Qeq_bool_iff in E. unfold Qeq in E. cbn in E. lia.
Qed.

Lemma quotient_form (now : Q) (m : Z) (d : positive) (period : Z) :
  (now == m # d)%Q -> 0 < period ->
  (now / inject_Z period == m # (d * Z.to_pos period))%Q.
Proof.
  intros E Hp. rewrite E. destruct period as [| p | p]; try lia.
  unfold Qeq, Qdiv, Qmult, Qinv. cbn. lia.
Qed.

(** Below [2^53] the binary64 counter is the exact one. *)
Lemma time_steps64_exact (now : Q) (m : Z) (d : positive) (period : Z) :
  (now == m # d)%Q -> 0 <= m < 2 ^ 53 -> 0 < period < 2 ^ 53 ->
  0 <= Qfloor (now / inject_Z period) < 2 ^ 53
  /\ time_steps64 now period = Ok (be_bytes 8 (Qfloor (now / inject_Z period)))
  /\ time_steps now period = Ok (be_bytes 8 (Qfloor (now / inject_Z period))).
Proof.
  intros E Hm Hp.
  pose proof (quotient_form now m d period E ltac:(lia)) as Q.
  assert (K : 0 <= Qfloor (now / inject_Z period) < 2 ^ 53).
  { rewrite (Qfloor_comp _ _ Q). unfold Qfloor. split.
    - apply Z.div_pos; lia.
    - apply Z.div_lt_upper_bound; [lia |]. nia. }
  assert (B : int_to_bytes_big 8 (Qfloor (now / inject_Z period))
              = Ok (be_bytes 8 (Qfloor (now / inject_Z period)))).
  { apply int_to_bytes_big_ok. change (256 ^ Z.of_nat 8) with (2 ^ 64). lia. }
  split; [exact K |]. split.
  - rewrite time_steps64_small_period by exact Hp.
    destruct (round64_floor _ m _ Q Hm) as [F T].
    rewrite T. cbn [math_floor bind]. rewrite F. exact B.
  - rewrite time_steps_eq by lia. exact B.
Qed.

Lemma time_steps64_overflow (x : Q) :
  Qfloor (round64 x) < 0 \/ 2 ^ 64 <= Qfloor (round64 x) ->
  (k <- math_floor (to_float64 x) ;; int_to_bytes_big 8 k)
  = Raise OverflowError.
Proof.
  intro H. unfold to_float64.
  destruct (Qle_bool _ _); [reflexivity |]. cbn [math_floor bind].
  destruct H as [H | H].
  - now apply int_to_bytes_big_negative.
  - now apply int_to_bytes_big_too_big.
Qed.

(** The rounding on known values: ties go to the even significand, the
    last place of a subnormal number is [2^-1074], and [float] overflows
    from [2^1024 - 2^970] on. *)
Lemma round64_examples :
  round64 (1 # 10) = 3602879701896397 # 36028797018963968
  /\ float_of_int (2 ^ 53 + 1) = Ok (inject_Z (2 ^ 53))
  /\ float_of_int (2 ^ 53 + 3) = Ok (inject_Z (2 ^ 53 + 4))
  /\ round64 (1 # Z.to_pos (2 ^ 1075)) = 0%Q
  /\ round64 (3 # Z.to_pos (2 ^ 1075)) = 1 # Z.to_pos (2 ^ 1073)
  /\ float_of_int (2 ^ 1024 - 2 ^ 970 - 1)
     = Ok (inject_Z (2 ^ 1024 - 2 ^ 971))
  /\ float_of_int (2 ^ 1024 - 2 ^ 970) = Raise OverflowError.
Proof.
  repeat split; vm_compute; reflexivity.
Qed.

(** Line 20 on readings and periods that binary64 rounds. *)
Lemma time_steps64_examples :
  time_steps64 (inject_Z (30 * 2 ^ 53 + 64)) 30
  = Ok (be_bytes 8 (2 ^ 53 + 2))
  /\ time_steps64 (inject_Z (2 ^ 53 - 1)) (2 ^ 53 + 1) = Ok (be_bytes 8 0)
  /\ time_steps64 (inject_Z (2 ^ 54)) (2 ^ 53 + 1) = Ok (be_bytes 8 2)
  /\ time_steps64 (- 1 # Z.to_pos (2 ^ 1074)) 30 = Ok (be_bytes 8 0)
  /\ time_steps64 (59 # 1) (10 ^ 400) = Raise OverflowError
  /\ time_steps64 (59 # 1) (- 30) = Raise OverflowError.
Proof.
  repeat split; vm_compute; reflexivity.
Qed.

Lemma time_steps64_Ok_inv (now : Q) (period : Z) (steps : bytes) :
  time_steps64 now period = Ok steps ->
  exists k, 0 <= k < 2 ^ 64 /\ steps = be_bytes 8 k.
Proof.
  unfold time_steps64. intro H.
  apply bind_Ok in H. destruct H as [y [_ H]].
  apply bind_Ok in H. destruct H as [q [_ H]].
  apply bind_Ok in H. destruct H as [k [_ H]].
  apply int_to_bytes_big_inv in H. now exists k.
Qed.

(** ** Exceptions of line 20 and of [str.encode] *)

Lemma time_steps_raise (now : Q) (period : Z) (e : exn) :
  time_steps now period = Raise e ->
  e = ZeroDivisionError \/ e = OverflowError.
Proof.
  unfold time_steps, time_div, int_to_bytes_big.
  destruct (period =? 0); cbn [bind]; [left; congruence |].
  destruct (_ <? 0); [right; congruence |].
  destruct (_ <=? _); [right; congruence | discriminate].
Qed.

Lemma time_steps64_raise (now : Q) (period : Z) (e : exn) :
  time_steps64 now period = Raise e ->
  e = ZeroDivisionError \/ e = OverflowError.
Proof.
  unfold time_steps64, float_of_int, float_truediv, int_to_bytes_big.
  destruct (to_float64 (inject_Z period)); cbn [bind];
    [| right; congruence].
  destruct (Qeq_bool _ _); cbn [bind]; [left; congruence |].
  destruct (to_float64 _); cbn [math_floor bind]; [| right; congruence].
  destruct (_ <? 0); [right; congruence |].
  destruct (_ <=? _); [right; congruence | discriminate].
Qed.

Lemma encode_raise (s : pystr) (e : exn) :
  encode s = Raise e -> e = UnicodeEncodeError.
Proof.
  intro H. destruct (forallb is_scalar s) eqn:Hs.
  - destruct (encode_scalar s Hs) as [key Hk]. congruence.
  - rewrite (encode_not_scalar s Hs) in H. congruence.
Qed.

(** ** [generate_totp] *)

Lemma hmac_digest_resolved (extra : registry) (key msg : bytes)
    (algorithm : pystr) (h : hash_alg) :
  hashlib_new extra algorithm = Ok h ->
  hmac_digest extra key msg algorithm = Ok (hmac h key msg).
Proof.
  intro H. unfold hmac_digest. now rewrite H.
Qed.

Lemma generate_totp_stages (extra : registry) (now : Q) (secret : pystr)
    (digits : nat) (period : Z) (algorithm : pystr)
    (steps key : bytes) (h : hash_alg) :
  time_steps now period = Ok steps ->
  encode secret = Ok key ->
  hashlib_new extra algorithm = Ok h ->
  generate_totp extra now secret digits period algorithm
  = truncate_digest (hmac h key steps) digits.
Proof.
  intros Hs Hk Hh. unfold generate_totp.
  rewrite Hs, Hk. cbn [bind].
  now rewrite (hmac_digest_resolved _ _ _ _ _ Hh).
Qed.

Lemma supported_digest_length (algorithm : pystr) (h : hash_alg)
    (key msg : bytes) :
  supported_algorithm algorithm = Some h ->
  (20 <= List.length (hmac h key msg))%nat.
Proof.
  intro H. destruct (supported_sized _ _ H) as [Hs Hd].
  now rewrite hmac_length.
Qed.

(** C1.  With a supported algorithm, a secret whose bytes are [key] and the
    counter [steps], [generate_totp] takes the HMAC of the counter under
    the key, reads the offset from the low nibble of the last digest byte,
    combines the four bytes from there (first one masked by 0x7F)
    big-endian into a number [binary] with [0 <= binary < 2^31], and
    returns [binary mod 10^digits] in decimal, padded on the left with
    zeros to [digits] characters. *)
Theorem generate_totp_hotp_core (extra : registry) (now : Q) (secret : pystr)
    (digits : nat) (period : Z) (algorithm : pystr)
    (h : hash_alg) (key steps : bytes) :
  supported_algorithm algorithm = Some h ->
  encode secret = Ok key ->
  time_steps now period = Ok steps ->
  let digest := hmac h key steps in
  let binary := spec_binary digest in
  hmac_digest extra key steps algorithm = Ok digest
  /\ 0 <= binary < 2 ^ 31
  /\ exists code,
       generate_totp extra now secret digits period algorithm = Ok code
       /\ code = rjust (str_of_int (binary mod 10 ^ Z.of_nat digits)) digits 48
       /\ Forall is_digit code
       /\ decimal_value code = binary mod 10 ^ Z.of_nat digits
       /\ List.length code = Nat.max 1 digits.
Proof.
  intros Hsup Hkey Hsteps digest binary.
  pose proof (supported_resolved extra _ _ Hsup) as Hres.
  pose proof (supported_digest_length _ _ key steps Hsup) as Hlen.
  split; [now apply hmac_digest_resolved |].
  split; [now apply spec_binary_range |].
  exists (rjust (str_of_int (binary mod 10 ^ Z.of_nat digits)) digits 48).
  split.
  - rewrite (generate_totp_stages _ _ _ _ _ _ _ _ _ Hsteps Hkey Hres).
    now apply truncate_digest_spec.
  - split; [reflexivity | apply code_text].
Qed.

Lemma generate_totp_hotp_core_witness :
  exists code,
    generate_totp plain_build (59 # 1) (lit "12345678901234567890") 6 30
      (lit "SHA1") = Ok code
    /\ List.length code = 6%nat.
Proof.
  destruct (generate_totp_hotp_core plain_build (59 # 1)
              (lit "12345678901234567890") 6 30 (lit "SHA1") SHA1
              (list_byte_of_string "12345678901234567890") (be_bytes 8 1)
              eq_refl eq_refl eq_refl)
    as [_ [_ [code [Hc [_ [_ [_ Hl]]]]]]].
  exists code. split; [exact Hc | exact Hl].
Defined.

(** C2.  RFC 6238 test vector: secret "12345678901234567890", SHA-1, eight
    digits, period 30, clock reading 59 (counter 1) give "94287082". *)
Theorem generate_totp_rfc6238_vector (extra : registry) :
  Qfloor ((59 # 1) / inject_Z 30) = 1
  /\ time_steps (59 # 1) 30 = Ok (be_bytes 8 1)
  /\ generate_totp extra (59 # 1) (lit "12345678901234567890") 8 30 (lit "SHA1")
     = Ok (lit "94287082").
Proof.
  repeat split; vm_compute; reflexivity.
Qed.

Lemma generate_totp64_stages (extra : registry) (now : Q) (secret : pystr)
    (digits : nat) (period : Z) (algorithm : pystr)
    (steps key : bytes) (h : hash_alg) :
  time_steps64 now period = Ok steps ->
  encode secret = Ok key ->
  hashlib_new extra algorithm = Ok h ->
  generate_totp64 extra now secret digits period algorithm
  = truncate_digest (hmac h key steps) digits.
Proof.
  intros Hs Hk Hh. unfold generate_totp64.
  rewrite Hs, Hk. cbn [bind].
  now rewrite (hmac_digest_resolved _ _ _ _ _ Hh).
Qed.

Lemma generate_totp64_Ok_inv (extra : registry) (now : Q) (secret : pystr)
    (digits : nat) (period : Z) (algorithm : pystr) (code : pystr) :
  generate_totp64 extra now secret digits period algorithm = Ok code ->
  exists steps key h,
    time_steps64 now period = Ok steps
    /\ encode secret = Ok key
    /\ hashlib_new extra algorithm = Ok h
    /\ truncate_digest (hmac h key steps) digits = Ok code.
Proof.
  unfold generate_totp64. intro H.
  apply bind_Ok in H. destruct H as [steps [Hs H]].
  apply bind_Ok in H. destruct H as [key [Hk H]].
  apply bind_Ok in H. destruct H as [d [Hd H]].
  unfold hmac_digest in Hd. apply bind_Ok in Hd.
  destruct Hd as [h [Hh Hd]]. injection Hd as <-.
  now exists steps, key, h.
Qed.





Lemma generate_totp_Ok_inv (extra : registry) (now : Q) (secret : pystr)
    (digits : nat) (period : Z) (algorithm : pystr) (code : pystr) :
  generate_totp extra now secret digits period algorithm = Ok code ->
  exists steps key h,
    time_steps now period = Ok steps
    /\ encode secret = Ok key
    /\ hashlib_new extra algorithm = Ok h
    /\ truncate_digest (hmac h key steps) digits = Ok code.
Proof.
  unfold generate_totp. intro H.
  apply bind_Ok in H. destruct H as [steps [Hs H]].
  apply bind_Ok in H. destruct H as [key [Hk H]].
  apply bind_Ok in H. destruct H as [d [Hd H]].
  unfold hmac_digest in Hd. apply bind_Ok in Hd.
  destruct Hd as [h [Hh Hd]]. injection Hd as <-.
  now exists steps, key, h.
Qed.


(** C5.  With [digits] from 6 to 10, lines 23 to 30 turn every digest of
    20 bytes or more into exactly [digits] characters, all decimal digits:
    the decimal text of the truncated 31-bit value of that digest modulo
    [10^digits], with zeros put in front; with six digits and a truncated
    value that is 0 modulo [10^6] the text is "000000".  With a positive
    period and a supported algorithm every string that
    [generate_totp64] returns is that text for the HMAC digest of the
    counter of line 20 under the encoded secret, and a string is returned
    whenever the counter exists and the secret can be encoded, as for
    every binary64 clock reading [0 <= now < 2^53] with a period below
    [2^53]. *)
Theorem generate_totp64_code_shape (extra : registry) (now : Q)
    (secret : pystr) (digits : nat) (period : Z) (algorithm : pystr)
    (h : hash_alg) :
  (6 <= digits <= 10)%nat ->
  0 < period ->
  supported_algorithm algorithm = Some h ->
  (forall digest : bytes,
     (20 <= List.length digest)%nat ->
     let binary := spec_binary digest in
     let code := repeat 48 (digits - List.length
                              (str_of_int (binary mod 10 ^ Z.of_nat digits)))
                   ++ str_of_int (binary mod 10 ^ Z.of_nat digits) in
     0 <= binary < 2 ^ 31
     /\ truncate_digest digest digits = Ok code
     /\ List.length code = digits
     /\ Forall is_digit code
     /\ decimal_value code = binary mod 10 ^ Z.of_nat digits
     /\ (digits = 6%nat -> binary mod 10 ^ 6 = 0 -> code = lit "000000"))
  /\ (forall code,
        generate_totp64 extra now secret digits period algorithm = Ok code ->
        exists steps key,
          time_steps64 now period = Ok steps
          /\ encode secret = Ok key
          /\ hmac_digest extra key steps algorithm = Ok (hmac h key steps)
          /\ (20 <= List.length (hmac h key steps))%nat
          /\ truncate_digest (hmac h key steps) digits = Ok code
          /\ List.length code = digits
          /\ Forall is_digit code
          /\ decimal_value code
             = spec_binary (hmac h key steps) mod 10 ^ Z.of_nat digits
          /\ (digits = 6%nat ->
              spec_binary (hmac h key steps) mod 10 ^ 6 = 0 ->
              code = lit "000000"))
  /\ (forall steps key,
        time_steps64 now period = Ok steps ->
        encode secret = Ok key ->
        exists code,
          generate_totp64 extra now secret digits period algorithm = Ok code)
  /\ (forall (m : Z) (d : positive) key,
        (now == m # d)%Q -> 0 <= m < 2 ^ 53 -> period < 2 ^ 53 ->
        encode secret = Ok key ->
        exists code,
          generate_totp64 extra now secret digits period algorithm = Ok code).
Proof.
  intros Hd Hp Hsup.
  pose proof (supported_resolved extra _ _ Hsup) as Hres.
  assert (Hex : forall steps key,
            time_steps64 now period = Ok steps ->
            encode secret = Ok key ->
            exists code,
              generate_totp64 extra now secret digits period algorithm
              = Ok code).
  { intros steps key Hs Hk.
    rewrite (generate_totp64_stages _ _ _ _ _ _ _ _ _ Hs Hk Hres).
    rewrite truncate_digest_spec
      by (now apply (supported_digest_length algorithm)).
    eexists; reflexivity. }
  split; [| split; [| split; [exact Hex |]]].
  - intros digest Hlen binary code.
    destruct (code_text binary digits) as [Hdig [Hval Hl]].
    split; [now apply spec_binary_range |].
    split; [now apply truncate_digest_spec |].
    split.
    { change (List.length
                (rjust (str_of_int (binary mod 10 ^ Z.of_nat digits)) digits 48)
              = digits).
      rewrite Hl. lia. }
    split; [exact Hdig |]. split; [exact Hval |].
    intros -> Hz. unfold code. change (Z.of_nat 6) with 6. now rewrite Hz.
  - intros code Hc.
    destruct (generate_totp64_Ok_inv _ _ _ _ _ _ _ Hc)
      as [steps [key [h' [Hs [Hk [Hh Ht]]]]]].
    rewrite Hres in Hh. injection Hh as <-.
    exists steps, key.
    split; [exact Hs |]. split; [exact Hk |].
    split; [now apply hmac_digest_resolved |].
    pose proof (supported_digest_length _ _ key steps Hsup) as Hlen.
    split; [exact Hlen |]. split; [exact Ht |].
    rewrite truncate_digest_spec in Ht by exact Hlen.
    injection Ht as <-.
    destruct (code_text (spec_binary (hmac h key steps)) digits)
      as [Hdig [Hval Hl]].
    split; [rewrite Hl; lia |]. split; [exact Hdig |].
    split; [exact Hval |].
    intros -> Hz. change (Z.of_nat 6) with 6. now rewrite Hz.
  - intros m d key En Hm Hp53 Hk.
    destruct (time_steps64_exact now m d period En Hm ltac:(lia))
      as [_ [Hs _]].
    exact (Hex _ _ Hs Hk).
Qed.

Lemma generate_totp64_code_shape_witness :
  truncate_digest (repeat x00 20) 6 = Ok (lit "000000")
  /\ (exists code,
        generate_totp64 plain_build (59 # 1) (lit "12345678901234567890")
          6 30 (lit "SHA1") = Ok code).
Proof.
  assert (Hr : (6 <= 6 <= 10)%nat) by lia.
  assert (Hm : 0 <= 59 < 2 ^ 53) by (split; [discriminate | reflexivity]).
  destruct (generate_totp64_code_shape plain_build (59 # 1)
              (lit "12345678901234567890") 6 30 (lit "SHA1") SHA1
              Hr eq_refl eq_refl)
    as [Hshape [_ [_ Hex]]].
  split.
  - destruct (Hshape (repeat x00 20) ltac:(simpl; lia))
      as [_ [Ht [_ [_ [_ Hz]]]]].
    rewrite Ht. apply (f_equal Ok). apply Hz; reflexivity.
  - exact (Hex 59 1%positive (list_byte_of_string "12345678901234567890")
             (Qeq_refl _) Hm eq_refl eq_refl).
Defined.




(** C9.  On the digest of a supported algorithm (at least 20 bytes) the
    reads of lines 23 to 28 are in range: the offset that line 23 takes
    from the last byte is at most 15, [offset + 4] does not exceed the
    digest length, the four reads at [offset .. offset + 3] succeed, and
    the code that lines 23 to 30 return is computed from exactly those
    four bytes.  So with a supported algorithm [generate_totp] never
    raises [IndexError], with line 20 exact or in binary64. *)
Theorem truncation_reads_in_bounds (extra : registry) (algorithm : pystr)
    (h : hash_alg) (key msg : bytes) (digits : nat) :
  supported_algorithm algorithm = Some h ->
  exists digest last,
    hmac_digest extra key msg algorithm = Ok digest
    /\ (20 <= List.length digest)%nat
    /\ bytes_index digest (-1) = Ok last
    /\ 0 <= Z.land last 0xf <= 15
    /\ Z.land last 0xf + 4 <= Z.of_nat (List.length digest)
    /\ (forall i, 0 <= i <= 3 ->
          bytes_index digest (Z.land last 0xf + i)
          = Ok (byte_val (nth (Z.to_nat (Z.land last 0xf + i)) digest x00)))
    /\ truncate_digest digest digits
       = Ok (rjust
               (str_of_int
                  (Z.lor
                     (Z.lor
                        (Z.lor
                           (Z.shiftl
                              (Z.land
                                 (byte_val
                                    (nth (Z.to_nat (Z.land last 0xf))
                                       digest x00)) 0x7f) 24)
                           (Z.shiftl
                              (Z.land
                                 (byte_val
                                    (nth (Z.to_nat (Z.land last 0xf + 1))
                                       digest x00)) 0xff) 16))
                        (Z.shiftl
                           (Z.land
                              (byte_val
                                 (nth (Z.to_nat (Z.land last 0xf + 2))
                                    digest x00)) 0xff) 8))
                     (Z.land
                        (byte_val
                           (nth (Z.to_nat (Z.land last 0xf + 3))
                              digest x00)) 0xff)
                   mod 10 ^ Z.of_nat digits)) digits 48)
    /\ (forall now secret period,
          generate_totp extra now secret digits period algorithm
          <> Raise IndexError
          /\ generate_totp64 extra now secret digits period algorithm
             <> Raise IndexError).
Proof.
  intro Hsup.
  pose proof (supported_digest_length _ _ key msg Hsup) as Hlen.
  pose proof (supported_resolved extra _ _ Hsup) as Hres.
  set (digest := hmac h key msg) in *.
  assert (Hne : digest <> [])
    by (intro E; rewrite E in Hlen; simpl in Hlen; lia).
  exists digest, (byte_val (last digest x00)).
  assert (Ho : 0 <= Z.land (byte_val (last digest x00)) 0xf <= 15).
  { change 0xf with (Z.ones 4). rewrite Z.land_ones by lia.
    pose proof (Z.mod_pos_bound (byte_val (last digest x00)) (2 ^ 4)
                  ltac:(lia)) as Hm.
    change (2 ^ 4) with 16 in *. change (Z.ones 4) with 15. lia. }
  set (offset := Z.land (byte_val (last digest x00)) 0xf) in *.
  assert (Hr : forall i, 0 <= i <= 3 ->
             bytes_index digest (offset + i)
             = Ok (byte_val (nth (Z.to_nat (offset + i)) digest x00)))
    by (intros i Hi; apply bytes_index_nth; lia).
  split; [apply hmac_digest_resolved, Hres |].
  split; [exact Hlen |].
  split; [now apply bytes_index_last |].
  split; [exact Ho |]. split; [lia |]. split; [exact Hr |].
  split.
  - unfold truncate_digest. rewrite (bytes_index_last _ Hne). cbn [bind].
    fold offset.
    pose proof (Hr 0 ltac:(lia)) as H0. rewrite Z.add_0_r in H0.
    rewrite H0, (Hr 1), (Hr 2), (Hr 3) by lia. reflexivity.
  - intros now secret period. split.
    + unfold generate_totp.
      destruct (time_steps now period) as [steps | e] eqn:Hs.
      2:{ cbn [bind]. destruct (time_steps_raise _ _ _ Hs); congruence. }
      cbn [bind].
      destruct (encode secret) as [k | e] eqn:Hk.
      2:{ cbn [bind]. rewrite (encode_raise _ _ Hk). discriminate. }
      cbn [bind].
      rewrite (hmac_digest_resolved _ _ _ _ _ Hres). cbn [bind].
      rewrite truncate_digest_spec
        by (now apply (supported_digest_length algorithm)).
      discriminate.
    + unfold generate_totp64.
      destruct (time_steps64 now period) as [steps | e] eqn:Hs.
      2:{ cbn [bind]. destruct (time_steps64_raise _ _ _ Hs); congruence. }
      cbn [bind].
      destruct (encode secret) as [k | e] eqn:Hk.
      2:{ cbn [bind]. rewrite (encode_raise _ _ Hk). discriminate. }
      cbn [bind].
      rewrite (hmac_digest_resolved _ _ _ _ _ Hres). cbn [bind].
      rewrite truncate_digest_spec
        by (now apply (supported_digest_length algorithm)).
      discriminate.
Qed.

Lemma truncation_reads_in_bounds_witness :
  exists digest last,
    hmac_digest plain_build [] [] (lit "SHA512") = Ok digest
    /\ (20 <= List.length digest)%nat
    /\ bytes_index digest (-1) = Ok last
    /\ 0 <= Z.land last 0xf <= 15.
Proof.
  destruct (truncation_reads_in_bounds plain_build (lit "SHA512") SHA512 [] []
              6 eq_refl)
    as [digest [last [H1 [H2 [H3 [H4 _]]]]]].
  exists digest, last. exact (conj H1 (conj H2 (conj H3 H4))).
Defined.

(** C3, as the specification states it, fails: an algorithm outside
    SHA1, SHA256 and SHA512 that the hash library resolves is accepted.
    With "SHA384" the call returns a code. *)
Lemma generate_totp_accepts_sha384 :
  supported_algorithm (lit "SHA384") = None
  /\ generate_totp plain_build (59 # 1) (lit "12345678901234567890") 8 30
       (lit "SHA384") = Ok (lit "46080675").
Proof.
  split; vm_compute; reflexivity.
Qed.

(** C3, amended.  [generate_totp] checks nothing itself; what fails is
    what its library calls reject.  A period of 0 raises
    [ZeroDivisionError]; a negative period at a positive clock reading
    raises [OverflowError]; an algorithm name that the hash library does
    not resolve never yields a code, and raises [ValueError] once the
    counter and the encoded secret are there.  A name that the library
    resolves to a hash of at least 20 bytes is accepted. *)
Theorem generate_totp_rejections (extra : registry) (now : Q) (secret : pystr)
    (digits : nat) (period : Z) (algorithm : pystr) :
  (period = 0 ->
   generate_totp extra now secret digits period algorithm
   = Raise ZeroDivisionError)
  /\ (period < 0 -> (0 < now)%Q ->
      generate_totp extra now secret digits period algorithm
      = Raise OverflowError)
  /\ (hashlib_new extra algorithm = Raise ValueError ->
      (exists e,
         generate_totp extra now secret digits period algorithm = Raise e)
      /\ forall steps key,
           time_steps now period = Ok steps -> encode secret = Ok key ->
           generate_totp extra now secret digits period algorithm
           = Raise ValueError)
  /\ (forall h steps key,
        hashlib_new extra algorithm = Ok h ->
        sized h -> (20 <= digest_size h)%nat ->
        time_steps now period = Ok steps -> encode secret = Ok key ->
        exists code,
          generate_totp extra now secret digits period algorithm = Ok code).
Proof.
  repeat split.
  - intros ->. reflexivity.
  - intros Hp Hn. unfold generate_totp.
    rewrite time_steps_eq by lia.
    now rewrite int_to_bytes_big_negative by (now apply floor_div_negative).
  - unfold generate_totp, hmac_digest.
    destruct (time_steps now period) as [steps | e]; [| now exists e].
    destruct (encode secret) as [key | e]; [| now exists e].
    cbn [bind]. rewrite H. now exists ValueError.
  - intros steps key Hs Hk. unfold generate_totp, hmac_digest.
    now rewrite Hs, Hk, H.
  - intros h steps key Hh Hsz Hd Hs Hk.
    rewrite (generate_totp_stages _ _ _ _ _ _ _ _ _ Hs Hk Hh).
    rewrite truncate_digest_spec by (rewrite hmac_length by exact Hsz; exact Hd).
    eexists; reflexivity.
Qed.

Lemma generate_totp_rejections_witness :
  generate_totp plain_build (59 # 1) (lit "12345678901234567890") 6 0 (lit "SHA1")
  = Raise ZeroDivisionError
  /\ generate_totp plain_build (59 # 1) (lit "12345678901234567890") 6 (-30)
       (lit "SHA1") = Raise OverflowError
  /\ generate_totp plain_build (59 # 1) (lit "12345678901234567890") 6 30
       (lit "sha7") = Raise ValueError.
Proof.
  assert (Hn : (0 < 59 # 1)%Q) by reflexivity.
  split; [| split].
  - exact (proj1 (generate_totp_rejections plain_build (59 # 1)
                    (lit "12345678901234567890") 6 0 (lit "SHA1")) eq_refl).
  - exact (proj1 (proj2 (generate_totp_rejections plain_build (59 # 1)
                    (lit "12345678901234567890") 6 (-30) (lit "SHA1")))
             eq_refl Hn).
  - exact (proj2 (proj1 (proj2 (proj2 (generate_totp_rejections plain_build
                    (59 # 1) (lit "12345678901234567890") 6 30 (lit "sha7"))))
             eq_refl) (be_bytes 8 1)
             (list_byte_of_string "12345678901234567890") eq_refl eq_refl).
Defined.

(** ** Base32 *)

Lemma rstrip_clean (s : pystr) (c : Z) :
  Forall (fun x => x <> c) s -> rstrip s c = s.
Proof.
  induction 1 as [| x s Hx _ IH]; [reflexivity |].
  cbn [rstrip]. rewrite IH. destruct s; [| reflexivity].
  destruct (Z.eqb_spec x c); [contradiction | reflexivity].
Qed.

Lemma rstrip_repeat (c : Z) (p : nat) : rstrip (repeat c p) c = [].
Proof.
  induction p as [| p IH]; [reflexivity |].
  cbn [repeat rstrip]. now rewrite IH, Z.eqb_refl.
Qed.

Lemma rstrip_padding (s : pystr) (c : Z) (p : nat) :
  rstrip (s ++ repeat c p) c = rstrip s c.
Proof.
  induction s as [| x s IH]; [apply rstrip_repeat |].
  cbn [app rstrip]. now rewrite IH.
Qed.

Lemma b32_rev_char (v : Z) :
  0 <= v < 32 -> b32_rev (byte_val (b32_char v)) = Some v.
Proof.
  intros [Hlo Hhi]. destruct v as [| p | p]; try lia; [reflexivity |].
  do 5 (destruct p as [p | p |]; try lia; try reflexivity).
Qed.

(** No base32 character is ['='], ['&'] or ['?']. *)
Lemma b32_char_plain (v : Z) :
  byte_val (b32_char v) <> 61
  /\ byte_val (b32_char v) <> 38
  /\ byte_val (b32_char v) <> 63.
Proof.
  unfold b32_char.
  destruct (nth_in_or_default (Z.to_nat v) b32_alphabet x00) as [H | ->];
    [| repeat split; discriminate].
  revert H. generalize (nth (Z.to_nat v) b32_alphabet x00). intros b H.
  unfold b32_alphabet in H. cbn in H.
  repeat (destruct H as [<- | H]; [repeat split; discriminate |]).
  contradiction.
Qed.

Lemma b32_char_not_pad (v : Z) : byte_val (b32_char v) <> 61.
Proof. apply b32_char_plain. Qed.

Lemma b32_values_chars (ds : list Z) :
  Forall (fun d => 0 <= d < 32) ds ->
  b32_values (map (fun d => byte_val (b32_char d)) ds) = Some ds.
Proof.
  induction 1 as [| d ds Hd _ IH]; [reflexivity |].
  cbn [map b32_values]. now rewrite b32_rev_char, IH.
Qed.

Lemma padded_value (s : bytes) (j : nat) :
  int_from_bytes_big (s ++ repeat x00 j)
  = int_from_bytes_big s * 256 ^ Z.of_nat j.
Proof.
  unfold int_from_bytes_big.
  rewrite map_app, from_digits_app, length_map, repeat_length by lia.
  enough (E : from_digits 256 (map byte_val (repeat x00 j)) = 0) by lia.
  induction j as [| j IH]; [reflexivity |].
  cbn [repeat map]. rewrite from_digits_cons, IH by lia. reflexivity.
Qed.

Lemma quantum_value (n : nat) (m : Z) :
  (1 <= n <= 5)%nat -> 0 <= m < 256 ^ Z.of_nat n ->
  ((m * 256 ^ Z.of_nat (5 - n) / 32 ^ Z.of_nat (8 - b32_data_chars n))
     mod 32 ^ Z.of_nat (b32_data_chars n))
  * 2 ^ (5 * Z.of_nat (8 - b32_data_chars n))
  = m * 256 ^ Z.of_nat (5 - n).
Proof.
  intros Hn Hm.
  destruct n as [| [| [| [| [| [| n]]]]]]; try lia;
    cbn [b32_data_chars Nat.sub Z.of_nat Pos.of_succ_nat Pos.succ] in *;
    Z.div_mod_to_equations; lia.
Qed.

Lemma quantum_text_digits (k : nat) (c : Z) :
  (k <= 8)%nat ->
  quantum_text k c
  = map (fun d => byte_val (b32_char d))
        (be_digits 32 k (c / 32 ^ Z.of_nat (8 - k))).
Proof.
  intro Hk. unfold quantum_text, b32_quantum.
  now rewrite firstn_map, map_map, be_digits_firstn by lia.
Qed.

Lemma quantum_text_clean (k : nat) (c : Z) :
  (k <= 8)%nat -> Forall (fun x => x <> 61) (quantum_text k c).
Proof.
  intro Hk. rewrite quantum_text_digits by exact Hk.
  apply Forall_forall. intros x Hx.
  apply in_map_iff in Hx. destruct Hx as [d [<- _]].
  apply b32_char_not_pad.
Qed.

Lemma quantum_text_length (k : nat) (c : Z) :
  (k <= 8)%nat -> List.length (quantum_text k c) = k.
Proof.
  intro Hk. rewrite quantum_text_digits by exact Hk.
  rewrite length_map. apply be_digits_length.
Qed.

Lemma b32_leftover_data (n : nat) :
  (1 <= n <= 5)%nat -> b32_leftover (8 - b32_data_chars n) = Some n.
Proof.
  intro H. destruct n as [| [| [| [| [| [| n]]]]]]; try lia; reflexivity.
Qed.

Lemma b32_data_chars_le (n : nat) : (2 <= b32_data_chars n <= 8)%nat.
Proof.
  destruct n as [| [| [| [| [| n]]]]]; simpl; lia.
Qed.

(** Decoding the characters of one group of [n] bytes gives the bytes
    back. *)
Lemma b32_decode_group (final : bool) (s : bytes) :
  (1 <= List.length s <= 5)%nat ->
  final = true \/ List.length s = 5%nat ->
  let n := List.length s in
  let k := b32_data_chars n in
  b32_decode_quantum final
    (quantum_text k (int_from_bytes_big (s ++ repeat x00 (5 - n)))
       ++ repeat 61 (8 - k))
  = Some s.
Proof.
  intros Hn Hfinal n k.
  pose proof (b32_data_chars_le n) as Hk. fold k in Hk.
  set (c := int_from_bytes_big (s ++ repeat x00 (5 - n))).
  assert (Hbody : (if final
                   then rstrip (quantum_text k c ++ repeat 61 (8 - k)) 61
                   else quantum_text k c ++ repeat 61 (8 - k))
                  = quantum_text k c).
  { destruct Hfinal as [-> | H5].
    - rewrite rstrip_padding. apply rstrip_clean, quantum_text_clean. lia.
    - destruct final.
      + rewrite rstrip_padding. apply rstrip_clean, quantum_text_clean. lia.
      + subst k. fold n in H5. rewrite H5. cbn [b32_data_chars Nat.sub repeat].
        apply app_nil_r. }
  unfold b32_decode_quantum. rewrite Hbody.
  rewrite quantum_text_length by lia.
  unfold k at 1. rewrite b32_leftover_data by exact Hn.
  rewrite quantum_text_digits by lia.
  rewrite b32_values_chars by (apply be_digits_range; lia).
  rewrite from_be_digits by lia.
  rewrite Z.shiftl_mul_pow2 by lia.
  subst c. rewrite padded_value. unfold k.
  rewrite quantum_value by (try apply from_bytes_range; exact Hn).
  rewrite <- padded_value.
  replace 5%nat with (List.length (s ++ repeat x00 (5 - n))) at 1
    by (rewrite length_app, repeat_length; fold n; lia).
  rewrite be_bytes_from_bytes.
  subst n. rewrite firstn_app, firstn_all, Nat.sub_diag.
  cbn [firstn]. now rewrite app_nil_r.
Qed.

Lemma b32encode_short (s : bytes) :
  (1 <= List.length s <= 4)%nat ->
  decode_ascii (b32encode s)
  = quantum_text (b32_data_chars (List.length s))
      (int_from_bytes_big (s ++ repeat x00 (5 - List.length s)))
    ++ repeat 61 (8 - b32_data_chars (List.length s)).
Proof.
  intro H. unfold decode_ascii, quantum_text.
  destruct s as [| b0 [| b1 [| b2 [| b3 [| b4 r]]]]]; simpl in H; try lia;
    cbn [b32encode]; rewrite map_app, map_repeat; reflexivity.
Qed.

Lemma b32encode_full (b0 b1 b2 b3 b4 : byte) (rest : bytes) :
  decode_ascii (b32encode (b0 :: b1 :: b2 :: b3 :: b4 :: rest))
  = quantum_text 8 (int_from_bytes_big [b0; b1; b2; b3; b4])
    ++ decode_ascii (b32encode rest).
Proof.
  unfold decode_ascii, quantum_text. cbn [b32encode]. rewrite map_app.
  rewrite firstn_all2; [reflexivity |].
  unfold b32_quantum. rewrite length_map, be_digits_length. lia.
Qed.

Lemma bytes_ind5 (P : bytes -> Prop) :
  P [] ->
  (forall s, (1 <= List.length s <= 4)%nat -> P s) ->
  (forall b0 b1 b2 b3 b4 rest, P rest -> P (b0 :: b1 :: b2 :: b3 :: b4 :: rest)) ->
  forall s, P s.
Proof.
  intros H0 Hs H5. fix IH 1.
  intros [| b0 [| b1 [| b2 [| b3 [| b4 rest]]]]];
    try (apply Hs; simpl; lia).
  - exact H0.
  - apply H5, IH.
Qed.

Lemma b32decode_group_cons (g t : pystr) :
  List.length g = 8%nat ->
  b32decode (g ++ t)
  = match t with
    | [] => b32_decode_quantum true g
    | _ => match b32_decode_quantum false g, b32decode t with
           | Some a, Some b => Some (a ++ b)
           | _, _ => None
           end
    end.
Proof.
  intro H.
  destruct g as [| c0 [| c1 [| c2 [| c3 [| c4 [| c5 [| c6 [| c7 [| c8 g]]]]]]]]];
    simpl in H; try lia.
  reflexivity.
Qed.

(** The encoded text: characters of the alphabet, then fewer than eight
    ['='], eight characters to a group. *)
Lemma b32_text_shape (key : bytes) :
  exists body p,
    decode_ascii (b32encode key) = body ++ repeat 61 p
    /\ Forall (fun x => x <> 61) body
    /\ (p < 8)%nat
    /\ ((List.length body + p) mod 8 = 0)%nat.
Proof.
  induction key as [| s Hs | b0 b1 b2 b3 b4 rest IH] using bytes_ind5.
  - exists [], 0%nat.
    split; [reflexivity |]. split; [constructor |]. split; [lia | reflexivity].
  - pose proof (b32_data_chars_le (List.length s)) as Hk.
    rewrite b32encode_short by exact Hs.
    eexists; eexists. split; [reflexivity |].
    split; [apply quantum_text_clean; lia |].
    split; [lia |].
    rewrite quantum_text_length by lia.
    replace (b32_data_chars (List.length s) + (8 - b32_data_chars (List.length s)))%nat
      with 8%nat by lia.
    reflexivity.
  - destruct IH as [body [p [E [Hc [Hp Hm]]]]].
    rewrite b32encode_full, E.
    exists (quantum_text 8 (int_from_bytes_big [b0; b1; b2; b3; b4]) ++ body), p.
    split; [now rewrite app_assoc |].
    split; [apply Forall_app; split; [apply quantum_text_clean; lia | exact Hc] |].
    split; [exact Hp |].
    rewrite length_app, quantum_text_length by lia.
    replace (8 + List.length body + p)%nat
      with (List.length body + p + 1 * 8)%nat by lia.
    now rewrite Nat.Div0.mod_add.
Qed.

(** Stripping the padding loses nothing: it can be put back. *)
Lemma b32_strip_restore (key : bytes) :
  restore_padding (rstrip (decode_ascii (b32encode key)) 61)
  = decode_ascii (b32encode key)
  /\ ~ In 61 (rstrip (decode_ascii (b32encode key)) 61).
Proof.
  destruct (b32_text_shape key) as [body [p [E [Hc [Hp Hm]]]]].
  rewrite E, rstrip_padding, rstrip_clean by exact Hc.
  split.
  - unfold restore_padding. do 2 f_equal.
    pose proof (Nat.mod_upper_bound (List.length body) 8 ltac:(lia)) as Hb.
    pose proof (Nat.div_mod_eq (List.length body) 8) as Hd.
    pose proof (Nat.div_mod_eq (List.length body + p) 8) as Hd'.
    rewrite Hm in Hd'.
    set (r := (List.length body mod 8)%nat) in *.
    destruct (Nat.eq_dec r 0) as [Hr | Hr].
    + rewrite Hr. cbn. lia.
    + rewrite Nat.mod_small by lia. lia.
  - intro Hin. rewrite Forall_forall in Hc. now apply (Hc 61 Hin).
Qed.

(** Decoding inverts encoding. *)
Lemma b32decode_encode (key : bytes) :
  b32decode (decode_ascii (b32encode key)) = Some key.
Proof.
  induction key as [| s Hs | b0 b1 b2 b3 b4 rest IH] using bytes_ind5.
  - reflexivity.
  - pose proof (b32_data_chars_le (List.length s)) as Hk.
    rewrite b32encode_short by exact Hs.
    rewrite <- (app_nil_r (_ ++ repeat 61 _)).
    rewrite b32decode_group_cons
      by (rewrite length_app, repeat_length, quantum_text_length; lia).
    apply b32_decode_group; [lia | now left].
  - rewrite b32encode_full.
    rewrite b32decode_group_cons by (apply quantum_text_length; lia).
    pose proof (b32_decode_group true [b0; b1; b2; b3; b4]
                  ltac:(simpl; lia) (or_introl eq_refl)) as Ht.
    pose proof (b32_decode_group false [b0; b1; b2; b3; b4]
                  ltac:(simpl; lia) (or_intror eq_refl)) as Hf.
    cbn [List.length b32_data_chars Nat.sub repeat] in Ht, Hf.
    rewrite !app_nil_r in Ht, Hf.
    destruct (decode_ascii (b32encode rest)) as [| x t].
    + cbn in IH. injection IH as <-. exact Ht.
    + now rewrite Hf, IH.
Qed.

(** ** Text of the URI and reading it back *)

Lemma not_in_existsb (c : Z) (s : pystr) :
  existsb (Z.eqb c) s = false -> ~ In c s.
Proof.
  intros H Hin.
  assert (E : existsb (Z.eqb c) s = true)
    by (apply existsb_exists; exists c; split; [exact Hin | apply Z.eqb_refl]).
  congruence.
Qed.

Lemma not_in_app (c : Z) (s t : pystr) :
  ~ In c s -> ~ In c t -> ~ In c (s ++ t).
Proof.
  intros Hs Ht H. apply in_app_iff in H. tauto.
Qed.

Lemma strip_prefix_app (p r : pystr) : strip_prefix p (p ++ r) = Some r.
Proof.
  induction p as [| a p IH]; [now destruct r |].
  cbn [app strip_prefix]. now rewrite Z.eqb_refl.
Qed.

Lemma split_first_at (c : Z) (a b : pystr) :
  ~ In c a -> split_first c (a ++ c :: b) = (a, Some b).
Proof.
  induction a as [| x a IH]; intro H.
  - cbn. now rewrite Z.eqb_refl.
  - cbn [app split_first].
    destruct (Z.eqb_spec x c) as [-> | _]; [exfalso; apply H; now left |].
    rewrite IH; [reflexivity |]. intro Hin. apply H. now right.
Qed.

Lemma split_all_clean (c : Z) (a : pystr) :
  ~ In c a -> split_all c a = [a].
Proof.
  induction a as [| x a IH]; intro H; [reflexivity |].
  cbn [split_all].
  destruct (Z.eqb_spec x c) as [-> | _]; [exfalso; apply H; now left |].
  rewrite IH; [reflexivity |]. intro Hin. apply H. now right.
Qed.

Lemma split_all_at (c : Z) (a b : pystr) :
  ~ In c a -> split_all c (a ++ c :: b) = a :: split_all c b.
Proof.
  induction a as [| x a IH]; intro H.
  - cbn. now rewrite Z.eqb_refl.
  - cbn [app split_all].
    destruct (Z.eqb_spec x c) as [-> | _]; [exfalso; apply H; now left |].
    rewrite IH; [reflexivity |]. intro Hin. apply H. now right.
Qed.

Lemma str_of_int_negative (n : Z) :
  n < 0 -> str_of_int n = 45 :: str_of_int (- n).
Proof.
  intro H. unfold str_of_int.
  rewrite (proj2 (Z.ltb_lt n 0)) by lia.
  now rewrite (proj2 (Z.ltb_ge (- n) 0)) by lia.
Qed.

(** The decimal text of an [int] holds digits and at most a minus sign. *)
Lemma str_of_int_chars (n : Z) (c : Z) :
  In c (str_of_int n) -> is_digit c \/ c = 45.
Proof.
  destruct (Z.lt_ge_cases n 0) as [Hneg | Hpos].
  - rewrite str_of_int_negative by exact Hneg. intros [<- | H]; [now right |].
    destruct (str_of_int_nonneg (- n) ltac:(lia)) as [Hd _].
    rewrite Forall_forall in Hd. left. now apply Hd.
  - destruct (str_of_int_nonneg n Hpos) as [Hd _].
    rewrite Forall_forall in Hd. intro H. left. now apply Hd.
Qed.

Lemma str_of_int_no_amp (n : Z) : ~ In 38 (str_of_int n).
Proof.
  intro H. apply str_of_int_chars in H. unfold is_digit in H. lia.
Qed.

(** The secret field: base32 characters only. *)
Lemma secret_field_plain (key : bytes) (c : Z) :
  c = 61 \/ c = 38 \/ c = 63 ->
  ~ In c (rstrip (decode_ascii (b32encode key)) 61).
Proof.
  intro Hc.
  assert (Hall : forall s, ~ In c (decode_ascii (b32encode s)) \/ c = 61).
  { induction s as [| s Hs | b0 b1 b2 b3 b4 rest IH] using bytes_ind5.
    - left. intros [].
    - destruct (Z.eq_dec c 61) as [-> | Hne]; [now right | left].
      rewrite b32encode_short by exact Hs.
      pose proof (b32_data_chars_le (List.length s)) as Hk.
      apply not_in_app.
      + rewrite quantum_text_digits by lia. intro Hin.
        apply in_map_iff in Hin. destruct Hin as [d [E _]].
        pose proof (b32_char_plain d). lia.
      + intro Hin. apply repeat_spec in Hin. lia.
    - destruct (Z.eq_dec c 61) as [-> | Hne]; [now right | left].
      destruct IH as [IH | IH]; [| contradiction].
      rewrite b32encode_full. apply not_in_app; [| exact IH].
      rewrite quantum_text_digits by lia. intro Hin.
      apply in_map_iff in Hin. destruct Hin as [d [E _]].
      pose proof (b32_char_plain d). lia. }
  destruct (Z.eq_dec c 61) as [-> | Hne]; [apply b32_strip_restore |].
  destruct (Hall key) as [Hk | Hk]; [| contradiction].
  destruct (b32_text_shape key) as [body [p [E [Hcl _]]]].
  rewrite E in *. rewrite rstrip_padding, rstrip_clean by exact Hcl.
  intro Hin. apply Hk. apply in_app_iff. now left.
Qed.

Lemma generate_totp_url_text (secret issuer user algorithm : pystr)
    (digits period : Z) (key : bytes) :
  encode secret = Ok key ->
  generate_totp_url secret issuer user algorithm digits period
  = Ok (uri_text key issuer user algorithm digits period).
Proof.
  intro H. unfold generate_totp_url. now rewrite H.
Qed.

Lemma read_uri_text (key : bytes) (issuer user algorithm : pystr)
    (digits period : Z) :
  ~ In 63 issuer -> ~ In 63 user -> ~ In 38 issuer -> ~ In 38 algorithm ->
  read_uri (uri_text key issuer user algorithm digits period)
  = Some (issuer ++ lit ":" ++ user,
          [(lit "secret", rstrip (decode_ascii (b32encode key)) 61);
           (lit "issuer", issuer);
           (lit "algorithm", algorithm);
           (lit "digits", str_of_int digits);
           (lit "period", str_of_int period)]).
Proof.
  intros Hqi Hqu Hai Haa.
  set (field := rstrip (decode_ascii (b32encode key)) 61).
  assert (Hf : ~ In 38 field) by (apply secret_field_plain; auto).
  assert (E : uri_text key issuer user algorithm digits period
              = lit "otpauth://totp/"
                  ++ (issuer ++ lit ":" ++ user)
                  ++ 63 :: ((lit "secret=" ++ field)
                  ++ 38 :: (lit "issuer=" ++ issuer)
                  ++ 38 :: (lit "algorithm=" ++ algorithm)
                  ++ 38 :: (lit "digits=" ++ str_of_int digits)
                  ++ 38 :: (lit "period=" ++ str_of_int period))).
  { unfold uri_text. fold field. rewrite <- !app_assoc. reflexivity. }
  rewrite E. unfold read_uri. rewrite strip_prefix_app.
  rewrite split_first_at
    by (repeat apply not_in_app; auto; apply not_in_existsb; reflexivity).
  unfold query_params.
  rewrite !split_all_at, split_all_clean
    by (apply not_in_app; auto using str_of_int_no_amp;
        apply not_in_existsb; reflexivity).
  reflexivity.
Qed.

(** ** [generate_totp_url] *)

Lemma in_existsb (c : Z) (s : pystr) :
  existsb (Z.eqb c) s = true -> In c s.
Proof.
  intro H. apply existsb_exists in H. destruct H as [x [Hin E]].
  apply Z.eqb_eq in E. now subst x.
Qed.

(** C7, as the specification states it, fails: the URI cannot always be
    read back.  With the issuer "A&B" the issuer parameter reads "A"; and
    two calls with different secrets, users and algorithms return the same
    URI, so no way of reading recovers the inputs of both. *)
Lemma generate_totp_url_not_read_back :
  (exists uri,
     generate_totp_url (lit "a") (lit "A&B") (lit "U") (lit "SHA1") 6 30 = Ok uri
     /\ uri_param (lit "issuer") uri = Some (lit "A"))
  /\ generate_totp_url (lit "a") (lit "I") (lit "U")
       (lit "X?secret=MI&issuer=I&algorithm=SHA1") 6 30
     = generate_totp_url (lit "b") (lit "I")
         (lit "U?secret=ME&issuer=I&algorithm=X") (lit "SHA1") 6 30
  /\ encode (lit "a") <> encode (lit "b").
Proof.
  split; [| split].
  - eexists. split; vm_compute; reflexivity.
  - vm_compute. reflexivity.
  - vm_compute. discriminate.
Qed.

(** C7, amended.  The URI is the text
    [otpauth://totp/{issuer}:{user}?secret=..&issuer=..&algorithm=..&digits=..&period=..]
    with the inputs put in as they are; the secret field is the base32
    text of the secret bytes without ['='], and decoding it with the
    padding restored gives the secret bytes; digits and period are in
    decimal and read back as the numbers.  Reading the URI back gives
    the label and the five fields exactly as put in when issuer and user
    hold no ['?'] and issuer and algorithm hold no ['&']. *)
Theorem generate_totp_url_roundtrip (secret issuer user algorithm : pystr)
    (digits period : Z) (key : bytes) :
  encode secret = Ok key ->
  let field := rstrip (decode_ascii (b32encode key)) 61 in
  exists uri,
    generate_totp_url secret issuer user algorithm digits period = Ok uri
    /\ uri = lit "otpauth://totp/" ++ issuer ++ lit ":" ++ user
               ++ lit "?secret=" ++ field
               ++ lit "&issuer=" ++ issuer
               ++ lit "&algorithm=" ++ algorithm
               ++ lit "&digits=" ++ str_of_int digits
               ++ lit "&period=" ++ str_of_int period
    /\ ~ In 61 field
    /\ b32decode (restore_padding field) = Some key
    /\ int_of_str (str_of_int digits) = Some digits
    /\ int_of_str (str_of_int period) = Some period
    /\ (~ In 63 issuer -> ~ In 63 user ->
        ~ In 38 issuer -> ~ In 38 algorithm ->
        uri_label uri = Some (issuer ++ lit ":" ++ user)
        /\ uri_param (lit "secret") uri = Some field
        /\ uri_param (lit "issuer") uri = Some issuer
        /\ uri_param (lit "algorithm") uri = Some algorithm
        /\ uri_param (lit "digits") uri = Some (str_of_int digits)
        /\ uri_param (lit "period") uri = Some (str_of_int period)).
Proof.
  intros Hk field.
  exists (uri_text key issuer user algorithm digits period).
  split; [now apply generate_totp_url_text |].
  split; [reflexivity |].
  split; [apply b32_strip_restore |].
  split.
  { unfold field. rewrite (proj1 (b32_strip_restore key)).
    apply b32decode_encode. }
  split; [apply int_of_str_of_int |].
  split; [apply int_of_str_of_int |].
  intros Hqi Hqu Hai Haa.
  unfold uri_label, uri_param.
  rewrite (read_uri_text key issuer user algorithm digits period Hqi Hqu Hai Haa).
  repeat split.
Qed.

Lemma generate_totp_url_roundtrip_witness :
  exists uri,
    generate_totp_url (lit "SuperDuper!#123!#1231") (lit "BasselTech Test")
      (lit "Bassel Admin") (lit "SHA1") 6 30 = Ok uri
    /\ b32decode (restore_padding (lit "KN2XAZLSIR2XAZLSEERTCMRTEERTCMRTGE"))
       = Some (list_byte_of_string "SuperDuper!#123!#1231")
    /\ uri_param (lit "issuer") uri = Some (lit "BasselTech Test").
Proof.
  destruct (generate_totp_url_roundtrip (lit "SuperDuper!#123!#1231")
              (lit "BasselTech Test") (lit "Bassel Admin") (lit "SHA1") 6 30
              (list_byte_of_string "SuperDuper!#123!#1231") eq_refl)
    as [uri [Hu [_ [_ [Hd [_ [_ Hr]]]]]]].
  assert (N1 : ~ In 63 (lit "BasselTech Test"))
    by (apply not_in_existsb; reflexivity).
  assert (N2 : ~ In 63 (lit "Bassel Admin"))
    by (apply not_in_existsb; reflexivity).
  assert (N3 : ~ In 38 (lit "BasselTech Test"))
    by (apply not_in_existsb; reflexivity).
  assert (N4 : ~ In 38 (lit "SHA1"))
    by (apply not_in_existsb; reflexivity).
  destruct (Hr N1 N2 N3 N4) as [_ [_ [Hi _]]].
  exists uri. split; [exact Hu |]. split; [exact Hd | exact Hi].
Defined.

(** C8, as the specification states it, fails: nothing is
    percent-encoded.  The example call at the end of the module returns a
    URI with the spaces of issuer and user in it. *)
Lemma generate_totp_url_raw_space :
  generate_totp_url (lit "SuperDuper!#123!#1231") (lit "BasselTech Test")
    (lit "Bassel Admin") (lit "SHA1") 6 30
  = Ok (lit "otpauth://totp/BasselTech Test:Bassel Admin?secret=KN2XAZLSIR2XAZLSEERTCMRTEERTCMRTGE&issuer=BasselTech Test&algorithm=SHA1&digits=6&period=30")
  /\ In 32 (lit "BasselTech Test")
  /\ In 32 (lit "otpauth://totp/BasselTech Test:Bassel Admin?secret=KN2XAZLSIR2XAZLSEERTCMRTEERTCMRTGE&issuer=BasselTech Test&algorithm=SHA1&digits=6&period=30").
Proof.
  split; [vm_compute; reflexivity |].
  split; apply in_existsb; reflexivity.
Qed.

(** C8, amended.  Issuer and user are put into the URI as they are: the
    URI starts with [otpauth://totp/], the issuer, [':'] and the user,
    holds the issuer again after [&issuer=], is exactly as long as its
    parts, and every character of issuer or user, unsafe or not, occurs
    in it unescaped. *)
Theorem generate_totp_url_verbatim (secret issuer user algorithm : pystr)
    (digits period : Z) (key : bytes) :
  encode secret = Ok key ->
  exists uri field rest,
    generate_totp_url secret issuer user algorithm digits period = Ok uri
    /\ uri = lit "otpauth://totp/" ++ issuer ++ lit ":" ++ user
               ++ lit "?secret=" ++ field ++ lit "&issuer=" ++ issuer ++ rest
    /\ List.length uri
       = (32 + 2 * List.length issuer + List.length user
          + List.length field + List.length rest)%nat
    /\ forall c, In c issuer \/ In c user -> In c uri.
Proof.
  intro Hk.
  exists (uri_text key issuer user algorithm digits period),
    (rstrip (decode_ascii (b32encode key)) 61),
    (lit "&algorithm=" ++ algorithm ++ lit "&digits=" ++ str_of_int digits
       ++ lit "&period=" ++ str_of_int period).
  split; [now apply generate_totp_url_text |].
  split; [reflexivity |].
  split.
  - unfold uri_text. rewrite !length_app.
    change (List.length (lit "otpauth://totp/")) with 15%nat.
    change (List.length (lit ":")) with 1%nat.
    change (List.length (lit "?secret=")) with 8%nat.
    change (List.length (lit "&issuer=")) with 8%nat.
    change (List.length (lit "&algorithm=")) with 11%nat.
    change (List.length (lit "&digits=")) with 8%nat.
    change (List.length (lit "&period=")) with 8%nat.
    lia.
  - intros c Hc. unfold uri_text. rewrite !in_app_iff. tauto.
Qed.

Lemma generate_totp_url_verbatim_witness :
  exists uri,
    generate_totp_url (lit "k") (lit "a b") (lit "c&d") (lit "SHA1") 6 30 = Ok uri
    /\ In 32 uri /\ In 38 uri.
Proof.
  destruct (generate_totp_url_verbatim (lit "k") (lit "a b") (lit "c&d")
              (lit "SHA1") 6 30 (list_byte_of_string "k") eq_refl)
    as [uri [field [rest [Hu [_ [_ Hin]]]]]].
  exists uri. split; [exact Hu |]. split.
  - apply Hin. left. apply in_existsb. reflexivity.
  - apply Hin. right. apply in_existsb. reflexivity.
Defined.



(** * Further properties of the module *)

(** ** Outcome of [generate_totp_url] *)

(** X1.  With [digits] and [period] of at most 4300 decimal digits (the
    longest [int] that an f-string formats), [generate_totp_url] fails in
    one way only: it raises [UnicodeEncodeError] when the secret holds a
    code point that UTF-8 cannot encode (a surrogate), and returns a URI
    for every other secret, whatever issuer, user and algorithm are; a
    period of 0 or a negative digit count is formatted like any number. *)
Theorem generate_totp_url_outcome (secret issuer user algorithm : pystr)
    (digits period : Z) :
  Z.abs digits < 10 ^ 4300 ->
  Z.abs period < 10 ^ 4300 ->
  (forallb is_scalar secret = true ->
   exists uri,
     generate_totp_url secret issuer user algorithm digits period = Ok uri)
  /\ (forallb is_scalar secret = false ->
      generate_totp_url secret issuer user algorithm digits period
      = Raise UnicodeEncodeError)
  /\ (forall e,
        generate_totp_url secret issuer user algorithm digits period = Raise e ->
        e = UnicodeEncodeError /\ forallb is_scalar secret = false).
Proof.
  intros _ _. split; [| split].
  - intro H. destruct (encode_scalar secret H) as [key Hk].
    eexists. exact (generate_totp_url_text _ _ _ _ _ _ _ Hk).
  - intro H. unfold generate_totp_url. now rewrite (encode_not_scalar secret H).
  - intros e He. destruct (forallb is_scalar secret) eqn:Hs.
    + destruct (encode_scalar secret Hs) as [key Hk].
      rewrite (generate_totp_url_text _ _ _ _ _ _ _ Hk) in He. discriminate.
    + unfold generate_totp_url in He.
      rewrite (encode_not_scalar secret Hs) in He.
      injection He as <-. now split.
Qed.

Lemma generate_totp_url_outcome_witness :
  (exists uri,
     generate_totp_url (lit "k") (lit "I") (lit "U") (lit "SHA1") (-1) 0 = Ok uri)
  /\ generate_totp_url [0xD800] (lit "I") (lit "U") (lit "SHA1") 6 30
     = Raise UnicodeEncodeError.
Proof.
  assert (H0 : Z.abs 0 < 10 ^ 4300) by (vm_compute; reflexivity).
  assert (H1 : Z.abs (-1) < 10 ^ 4300) by (vm_compute; reflexivity).
  assert (H6 : Z.abs 6 < 10 ^ 4300) by (vm_compute; reflexivity).
  assert (H30 : Z.abs 30 < 10 ^ 4300) by (vm_compute; reflexivity).
  split.
  - exact (proj1 (generate_totp_url_outcome (lit "k") (lit "I") (lit "U")
                    (lit "SHA1") (-1) 0 H1 H0) eq_refl).
  - exact (proj1 (proj2 (generate_totp_url_outcome [0xD800] (lit "I") (lit "U")
                    (lit "SHA1") 6 30 H6 H30)) eq_refl).
Defined.

(** ** Lines 23 to 30 on any digest *)

Lemma bytes_index_range (bs : bytes) (i b : Z) :
  bytes_index bs i = Ok b -> 0 <= b < 256.
Proof.
  unfold bytes_index. cbv zeta.
  destruct (_ || _); [discriminate |].
  destruct (nth_error _ _); [| discriminate].
  intro H. injection H as <-. apply byte_val_range.
Qed.

(** X2.  The reads of lines 23 to 28 decide the outcome on any digest: an
    empty digest, or one shorter than [offset + 4] with [offset] the low
    nibble of its last byte, raises [IndexError]; every other digest gives
    a code.  So a digest of 19 bytes or more never fails, and a shorter
    one fails exactly for the offsets that reach past its end. *)
Theorem truncate_digest_outcome (hash_digest : bytes) (digits : nat) :
  let offset := byte_val (last hash_digest x00) mod 16 in
  (hash_digest = [] -> truncate_digest hash_digest digits = Raise IndexError)
  /\ (hash_digest <> [] ->
      Z.of_nat (List.length hash_digest) < offset + 4 ->
      truncate_digest hash_digest digits = Raise IndexError)
  /\ (hash_digest <> [] ->
      offset + 4 <= Z.of_nat (List.length hash_digest) ->
      exists code, truncate_digest hash_digest digits = Ok code)
  /\ ((19 <= List.length hash_digest)%nat ->
      exists code, truncate_digest hash_digest digits = Ok code).
Proof.
  intro offset.
  assert (Ho : 0 <= offset < 16) by (apply Z.mod_pos_bound; lia).
  assert (Hland : hash_digest <> [] ->
                  truncate_digest hash_digest digits
                  = (b0 <- bytes_index hash_digest offset ;;
                     b1 <- bytes_index hash_digest (offset + 1) ;;
                     b2 <- bytes_index hash_digest (offset + 2) ;;
                     b3 <- bytes_index hash_digest (offset + 3) ;;
                     Ok (rjust (str_of_int
                           (Z.lor (Z.lor (Z.lor (Z.shiftl (Z.land b0 0x7f) 24)
                                                (Z.shiftl (Z.land b1 0xff) 16))
                                         (Z.shiftl (Z.land b2 0xff) 8))
                                  (Z.land b3 0xff)
                            mod 10 ^ Z.of_nat digits)) digits 48))).
  { intro Hne. unfold truncate_digest.
    rewrite (bytes_index_last _ Hne). cbn [bind].
    replace (Z.land (byte_val (last hash_digest x00)) 0xf) with offset;
      [reflexivity |].
    unfold offset. change 0xf with (Z.ones 4).
    now rewrite Z.land_ones by lia. }
  assert (Hok : hash_digest <> [] ->
                offset + 4 <= Z.of_nat (List.length hash_digest) ->
                exists code, truncate_digest hash_digest digits = Ok code).
  { intros Hne Hfit. rewrite (Hland Hne).
    rewrite !bytes_index_nth by lia. cbn [bind]. eexists; reflexivity. }
  split; [intros ->; reflexivity |].
  split; [| split; [exact Hok |]].
  - intros Hne Hshort. rewrite (Hland Hne).
    destruct (Z.le_gt_cases (Z.of_nat (List.length hash_digest)) offset).
    { now rewrite bytes_index_out by lia. }
    rewrite (bytes_index_nth _ offset) by lia. cbn [bind].
    destruct (Z.le_gt_cases (Z.of_nat (List.length hash_digest)) (offset + 1)).
    { now rewrite bytes_index_out by lia. }
    rewrite (bytes_index_nth _ (offset + 1)) by lia. cbn [bind].
    destruct (Z.le_gt_cases (Z.of_nat (List.length hash_digest)) (offset + 2)).
    { now rewrite bytes_index_out by lia. }
    rewrite (bytes_index_nth _ (offset + 2)) by lia. cbn [bind].
    now rewrite bytes_index_out by lia.
  - intro Hlen. apply Hok; [| lia].
    intros ->. simpl in Hlen. lia.
Qed.

Lemma truncate_digest_outcome_witness :
  truncate_digest (repeat xff 16) 6 = Raise IndexError
  /\ exists code, truncate_digest (repeat x00 16) 6 = Ok code.
Proof.
  destruct (truncate_digest_outcome (repeat xff 16) 6) as [_ [Hshort _]].
  destruct (truncate_digest_outcome (repeat x00 16) 6) as [_ [_ [Hfit _]]].
  split.
  - apply Hshort; [discriminate | reflexivity].
  - apply Hfit; [discriminate | vm_compute; discriminate].
Defined.

(** ** Line 20: which clock readings give a counter *)

(** X3.  The first stage that fails decides the exception of
    [generate_totp64], in the order of lines 20 and 21.  Line 20 comes
    first: a period of 0 raises [ZeroDivisionError] and a period from
    [2^1024] on in magnitude, too large for a float, raises
    [OverflowError], whatever the clock, the secret and the algorithm
    are, and any exception of line 20 is the exception of the call.  With
    a counter, a secret that cannot be encoded raises
    [UnicodeEncodeError] whatever the algorithm is; then an unknown
    algorithm name raises [ValueError]; with all in order the result is
    what lines 23 to 30 read off the HMAC digest. *)
Theorem generate_totp64_first_failure (extra : registry) (now : Q)
    (secret : pystr) (digits : nat) (period : Z) (algorithm : pystr) :
  (period = 0 ->
   generate_totp64 extra now secret digits period algorithm
   = Raise ZeroDivisionError)
  /\ (2 ^ 1024 <= Z.abs period ->
      generate_totp64 extra now secret digits period algorithm
      = Raise OverflowError)
  /\ (forall e,
        time_steps64 now period = Raise e ->
        (e = ZeroDivisionError \/ e = OverflowError)
        /\ generate_totp64 extra now secret digits period algorithm = Raise e)
  /\ (forall steps,
        time_steps64 now period = Ok steps ->
        forallb is_scalar secret = false ->
        generate_totp64 extra now secret digits period algorithm
        = Raise UnicodeEncodeError)
  /\ (forall steps,
        time_steps64 now period = Ok steps ->
        forallb is_scalar secret = true ->
        hashlib_new extra algorithm = Raise ValueError ->
        generate_totp64 extra now secret digits period algorithm
        = Raise ValueError)
  /\ (forall steps h,
        time_steps64 now period = Ok steps ->
        forallb is_scalar secret = true ->
        hashlib_new extra algorithm = Ok h ->
        exists key,
          encode secret = Ok key
          /\ generate_totp64 extra now secret digits period algorithm
             = truncate_digest (hmac h key steps) digits).
Proof.
  split.
  { intros ->. unfold generate_totp64. now rewrite time_steps64_zero. }
  split.
  { intro Hp. unfold generate_totp64. now rewrite time_steps64_huge. }
  split.
  { intros e He. split; [exact (time_steps64_raise _ _ _ He) |].
    unfold generate_totp64. now rewrite He. }
  split.
  { intros steps Hs Hsc. unfold generate_totp64.
    now rewrite Hs, (encode_not_scalar secret Hsc). }
  split.
  { intros steps Hs Hsc Hh. destruct (encode_scalar secret Hsc) as [key Hkey].
    unfold generate_totp64, hmac_digest. now rewrite Hs, Hkey, Hh. }
  intros steps h Hs Hsc Hh. destruct (encode_scalar secret Hsc) as [key Hkey].
  exists key. split; [exact Hkey |].
  exact (generate_totp64_stages _ _ _ _ _ _ _ _ _ Hs Hkey Hh).
Qed.

Lemma generate_totp64_first_failure_witness :
  generate_totp64 plain_build (59 # 1) [0xD800] 6 0 (lit "sha7")
  = Raise ZeroDivisionError
  /\ generate_totp64 plain_build (59 # 1) [0xD800] 6 (10 ^ 400) (lit "sha7")
     = Raise OverflowError
  /\ generate_totp64 plain_build (59 # 1) [0xD800] 6 30 (lit "sha7")
     = Raise UnicodeEncodeError
  /\ generate_totp64 plain_build (59 # 1) (lit "k") 6 30 (lit "sha7")
     = Raise ValueError.
Proof.
  assert (Hbig : 2 ^ 1024 <= Z.abs (10 ^ 400)) by (vm_compute; discriminate).
  assert (Hs : time_steps64 (59 # 1) 30 = Ok (be_bytes 8 1))
    by (vm_compute; reflexivity).
  split; [| split; [| split]].
  - exact (proj1 (generate_totp64_first_failure plain_build (59 # 1) [0xD800]
                    6 0 (lit "sha7")) eq_refl).
  - exact (proj1 (proj2 (generate_totp64_first_failure plain_build (59 # 1)
                    [0xD800] 6 (10 ^ 400) (lit "sha7"))) Hbig).
  - exact (proj1 (proj2 (proj2 (proj2 (generate_totp64_first_failure
                    plain_build (59 # 1) [0xD800] 6 30 (lit "sha7")))))
             (be_bytes 8 1) Hs eq_refl).
  - exact (proj1 (proj2 (proj2 (proj2 (proj2 (generate_totp64_first_failure
                    plain_build (59 # 1) (lit "k") 6 30 (lit "sha7"))))))
             (be_bytes 8 1) Hs eq_refl eq_refl).
Defined.

Lemma time_steps_Ok_inv (now : Q) (period : Z) (steps : bytes) :
  time_steps now period = Ok steps ->
  period <> 0
  /\ 0 <= Qfloor (now / inject_Z period) < 2 ^ 64
  /\ steps = be_bytes 8 (Qfloor (now / inject_Z period)).
Proof.
  intro H. destruct (Z.eq_dec period 0) as [-> | Hp]; [discriminate |].
  rewrite time_steps_eq in H by exact Hp.
  apply int_to_bytes_big_inv in H. now split.
Qed.

(** Where the floor lies, read off the clock. *)
Lemma floor_clock_range (now : Q) (period : Z) :
  0 < period ->
  ((0 <= now /\ now < inject_Z (2 ^ 64 * period))%Q ->
   0 <= Qfloor (now / inject_Z period) < 2 ^ 64)
  /\ ((now < 0 \/ inject_Z (2 ^ 64 * period) <= now)%Q ->
      Qfloor (now / inject_Z period) < 0
      \/ 2 ^ 64 <= Qfloor (now / inject_Z period)).
Proof.
  intro Hp. pose proof (inject_Z_pos period Hp) as Hq.
  destruct (floor_div_bounds now period Hp) as [Hlo Hhi].
  set (k := Qfloor (now / inject_Z period)) in *.
  split.
  - intros [Hn Hlt]. split.
    + now apply floor_div_nonneg.
    + assert (H : (inject_Z (k * period) < inject_Z (2 ^ 64 * period))%Q).
      { rewrite inject_Z_mult. eapply Qle_lt_trans; [exact Hlo | exact Hlt]. }
      rewrite <- Zlt_Qlt in H. nia.
  - intros [Hneg | Hbig].
    + left.
      assert (H : (inject_Z (k * period) < inject_Z 0)%Q).
      { rewrite inject_Z_mult. eapply Qle_lt_trans; [exact Hlo | exact Hneg]. }
      rewrite <- Zlt_Qlt in H. nia.
    + right.
      assert (H : (inject_Z (2 ^ 64 * period) < inject_Z ((k + 1) * period))%Q).
      { rewrite (inject_Z_mult (k + 1)).
        eapply Qle_lt_trans; [exact Hbig | exact Hhi]. }
      rewrite <- Zlt_Qlt in H. nia.
Qed.

(** A reading a nanosecond or more before the epoch has a quotient in the
    normal range of binary64. *)
Lemma quotient_before_epoch (now : Q) (period : Z) :
  0 < period < 2 ^ 53 ->
  (now <= - (1 # 1000000000))%Q ->
  (now / inject_Z period <= - (1 # Z.to_pos (2 ^ 1022)))%Q.
Proof.
  intros Hp H. destruct now as [n d]. destruct period as [| p | p]; try lia.
  unfold Qle in *. cbn [Qnum Qden Qopp Qdiv Qmult Qinv inject_Z] in *.
  pose proof (pow2_pos 1022 ltac:(lia)) as P.
  rewrite Z2Pos.id by exact P.
  rewrite Pos2Z.inj_mul. rewrite Z.mul_1_r.
  assert (B : 1000000000 * 2 ^ 53 <= 2 ^ 1022).
  { change (2 ^ 1022) with (2 ^ 83 * 2 ^ 939).
    pose proof (pow2_pos 939 ltac:(lia)).
    assert (1000000000 * 2 ^ 53 <= 2 ^ 83) by (vm_compute; discriminate).
    nia. }
  nia.
Qed.

Lemma quotient_past_range (now : Q) (period : Z) :
  0 < period ->
  (inject_Z (2 ^ 64 * period) <= now)%Q ->
  (inject_Z (2 ^ 64) <= now / inject_Z period)%Q.
Proof.
  intros Hp H. apply Qle_shift_div_l; [now apply inject_Z_pos |].
  now rewrite <- inject_Z_mult.
Qed.

(** X4.  With a period [0 < period < 2^53] line 20 gives a counter for
    every binary64 clock reading [0 <= now < 2^53], the encoding of
    [floor(now / period)]; a reading a nanosecond or more before the
    epoch raises [OverflowError], and so does a reading from
    [2^64 * period] on. *)
Theorem time_steps64_clock_range (now : Q) (period : Z) :
  0 < period < 2 ^ 53 ->
  (forall (m : Z) (d : positive),
     (now == m # d)%Q -> 0 <= m < 2 ^ 53 ->
     time_steps64 now period = Ok (be_bytes 8 (Qfloor (now / inject_Z period))))
  /\ ((now <= - (1 # 1000000000))%Q ->
      time_steps64 now period = Raise OverflowError)
  /\ ((inject_Z (2 ^ 64 * period) <= now)%Q ->
      time_steps64 now period = Raise OverflowError).
Proof.
  intro Hp. split; [| split].
  - intros m d E Hm.
    exact (proj1 (proj2 (time_steps64_exact now m d period E Hm Hp))).
  - intro H. rewrite time_steps64_small_period by exact Hp.
    apply time_steps64_overflow. left.
    apply round64_floor_negative, quotient_before_epoch; assumption.
  - intro H. rewrite time_steps64_small_period by exact Hp.
    apply time_steps64_overflow. right.
    apply round64_floor_large; [lia |].
    apply quotient_past_range; [lia | exact H].
Qed.

Lemma time_steps64_clock_range_witness :
  time_steps64 (1700000000 # 1) 30 = Ok (be_bytes 8 56666666)
  /\ time_steps64 (- 1 # 2) 30 = Raise OverflowError.
Proof.
  assert (Hp : 0 < 30 < 2 ^ 53) by (split; reflexivity).
  assert (Hm : 0 <= 1700000000 < 2 ^ 53)
    by (split; [discriminate | reflexivity]).
  assert (H2 : (- 1 # 2 <= - (1 # 1000000000))%Q) by discriminate.
  split.
  - exact (proj1 (time_steps64_clock_range (1700000000 # 1) 30 Hp)
             1700000000 1%positive (Qeq_refl _) Hm).
  - exact (proj1 (proj2 (time_steps64_clock_range (- 1 # 2) 30 Hp)) H2).
Defined.

(** X5.  For binary64 clock readings [0 <= now < 2^53] and a period
    [0 < period < 2^53], two readings get the same 8 counter bytes if and
    only if they have the same [floor(now / period)]: the eight bytes
    tell the time windows apart. *)
Theorem time_steps64_same_iff_window (now1 now2 : Q) (m1 m2 : Z)
    (d1 d2 : positive) (period : Z) :
  (now1 == m1 # d1)%Q -> 0 <= m1 < 2 ^ 53 ->
  (now2 == m2 # d2)%Q -> 0 <= m2 < 2 ^ 53 ->
  0 < period < 2 ^ 53 ->
  (time_steps64 now1 period = time_steps64 now2 period
   <-> Qfloor (now1 / inject_Z period) = Qfloor (now2 / inject_Z period)).
Proof.
  intros E1 H1 E2 H2 Hp.
  destruct (time_steps64_exact now1 m1 d1 period E1 H1 Hp) as [K1 [S1 _]].
  destruct (time_steps64_exact now2 m2 d2 period E2 H2 Hp) as [K2 [S2 _]].
  rewrite S1, S2. split; [| now intros ->].
  intro E.
  apply (f_equal (fun o => match o with
                           | Ok s => int_from_bytes_big s
                           | Raise _ => 0
                           end)) in E.
  cbv beta iota in E.
  rewrite !from_bytes_be_bytes in E.
  change (256 ^ Z.of_nat 8) with (2 ^ 64) in E.
  now rewrite !Z.mod_small in E by lia.
Qed.

Lemma time_steps64_same_iff_window_witness :
  time_steps64 (59 # 1) 30 <> time_steps64 (60 # 1) 30.
Proof.
  assert (Hp : 0 < 30 < 2 ^ 53) by (split; reflexivity).
  assert (H1 : 0 <= 59 < 2 ^ 53) by (split; [discriminate | reflexivity]).
  assert (H2 : 0 <= 60 < 2 ^ 53) by (split; [discriminate | reflexivity]).
  intro E.
  apply (proj1 (time_steps64_same_iff_window (59 # 1) (60 # 1) 59 60 1 1 30
                  (Qeq_refl _) H1 (Qeq_refl _) H2 Hp)) in E.
  vm_compute in E. discriminate E.
Defined.

Lemma Qfloor_succ (x : Q) : Qfloor (x + 1) = Qfloor x + 1.
Proof.
  destruct x as [n d]. unfold Qplus, Qfloor. cbn [Qnum Qden].
  rewrite Pos.mul_1_r, Z.mul_1_r, Z.mul_1_l.
  rewrite <- (Z.mul_1_l (Z.pos d)) at 1. apply Z.div_add. discriminate.
Qed.

(** X6.  For binary64 clock readings [0 <= now < 2^53] and a period
    [0 < period < 2^53] the counter never runs backwards and steps by
    one per period: a later reading gives a counter value that is not
    smaller, and the reading one period later gives the next value. *)
Theorem time_steps64_advance (now1 now2 : Q) (m1 m2 : Z) (d1 d2 : positive)
    (period : Z) :
  (now1 == m1 # d1)%Q -> 0 <= m1 < 2 ^ 53 ->
  (now2 == m2 # d2)%Q -> 0 <= m2 < 2 ^ 53 ->
  0 < period < 2 ^ 53 ->
  exists k1 k2,
    time_steps64 now1 period = Ok (be_bytes 8 k1)
    /\ time_steps64 now2 period = Ok (be_bytes 8 k2)
    /\ int_from_bytes_big (be_bytes 8 k1) = k1
    /\ int_from_bytes_big (be_bytes 8 k2) = k2
    /\ ((now1 <= now2)%Q -> k1 <= k2)
    /\ ((now2 == now1 + inject_Z period)%Q -> k2 = k1 + 1).
Proof.
  intros E1 H1 E2 H2 Hp.
  pose proof (inject_Z_pos period ltac:(lia)) as Hq.
  assert (Hnz : ~ (inject_Z period == 0)%Q)
    by (intro E; rewrite E in Hq; now apply Qlt_irrefl in Hq).
  destruct (time_steps64_exact now1 m1 d1 period E1 H1 Hp) as [K1 [S1 _]].
  destruct (time_steps64_exact now2 m2 d2 period E2 H2 Hp) as [K2 [S2 _]].
  exists (Qfloor (now1 / inject_Z period)), (Qfloor (now2 / inject_Z period)).
  split; [exact S1 |]. split; [exact S2 |].
  split.
  { rewrite from_bytes_be_bytes. change (256 ^ Z.of_nat 8) with (2 ^ 64).
    apply Z.mod_small. lia. }
  split.
  { rewrite from_bytes_be_bytes. change (256 ^ Z.of_nat 8) with (2 ^ 64).
    apply Z.mod_small. lia. }
  split.
  - intro Hle. apply Qfloor_resp_le. unfold Qdiv.
    apply Qmult_le_compat_r; [exact Hle |].
    apply Qlt_le_weak, Qinv_lt_0_compat, Hq.
  - intro E. rewrite <- Qfloor_succ. apply Qfloor_comp.
    rewrite E. unfold Qdiv. rewrite Qmult_plus_distr_l.
    now rewrite Qmult_inv_r.
Qed.

Lemma time_steps64_advance_witness :
  exists k1 k2,
    time_steps64 (59 # 1) 30 = Ok (be_bytes 8 k1)
    /\ time_steps64 (89 # 1) 30 = Ok (be_bytes 8 k2)
    /\ k2 = k1 + 1.
Proof.
  assert (Hp : 0 < 30 < 2 ^ 53) by (split; reflexivity).
  assert (H1 : 0 <= 59 < 2 ^ 53) by (split; [discriminate | reflexivity]).
  assert (H2 : 0 <= 89 < 2 ^ 53) by (split; [discriminate | reflexivity]).
  destruct (time_steps64_advance (59 # 1) (89 # 1) 59 89 1 1 30
              (Qeq_refl _) H1 (Qeq_refl _) H2 Hp)
    as [k1 [k2 [S1 [S2 [_ [_ [_ Hn]]]]]]].
  exists k1, k2. split; [exact S1 |]. split; [exact S2 |].
  apply Hn. reflexivity.
Defined.

(** ** The code under different digit counts *)

Lemma be_digits_skipn (b : Z) (k len : nat) (n : Z) :
  (k <= len)%nat -> skipn (len - k) (be_digits b len n) = be_digits b k n.
Proof.
  induction len as [| len IH]; intro H.
  - now replace k with 0%nat by lia.
  - destruct (Nat.eq_dec k (S len)) as [-> | Hne].
    + now rewrite Nat.sub_diag.
    + replace (S len - k)%nat with (S (len - k)) by lia.
      cbn [be_digits skipn]. apply IH. lia.
Qed.

Lemma be_digits_small (b : Z) (len : nat) (n : Z) :
  0 < b -> 0 <= n < b ->
  be_digits b (S len) n = repeat 0 len ++ [n].
Proof.
  intros Hb Hn. induction len as [| len IH].
  - cbn. now rewrite Z.div_1_r, Z.mod_small.
  - change (be_digits b (S (S len)) n)
      with ((n / b ^ Z.of_nat (S len)) mod b :: be_digits b (S len) n).
    rewrite IH. cbn [repeat app]. f_equal.
    rewrite Z.div_small; [reflexivity |].
    rewrite Nat2Z.inj_succ, Z.pow_succ_r by lia.
    assert (0 < b ^ Z.of_nat len) by (apply Z.pow_pos_nonneg; lia). nia.
Qed.

Lemma be_digits_zero (b : Z) (len : nat) :
  0 < b -> be_digits b len 0 = repeat 0 len.
Proof.
  intro Hb. induction len as [| len IH]; [reflexivity |].
  cbn [be_digits repeat]. now rewrite IH, Z.div_0_l, Z.mod_0_l
    by (try apply Z.pow_nonzero; lia).
Qed.

(** The text of line 30 is the list of the [digits] low decimal digits. *)
Lemma code_digits (v : Z) (digits : nat) :
  (1 <= digits)%nat ->
  rjust (str_of_int (v mod 10 ^ Z.of_nat digits)) digits 48
  = map digit_char (be_digits 10 digits v).
Proof.
  intro Hd.
  destruct (code_text v digits) as [Hdig [Hval Hlen]]. cbv zeta in *.
  set (code := rjust (str_of_int (v mod 10 ^ Z.of_nat digits)) digits 48) in *.
  assert (Hds : Forall (fun d => 0 <= d < 10) (map (fun c => c - 48) code)).
  { apply Forall_forall. intros d Hin. apply in_map_iff in Hin.
    destruct Hin as [c [<- Hc]]. rewrite Forall_forall in Hdig.
    specialize (Hdig c Hc). unfold is_digit in Hdig. lia. }
  pose proof (be_digits_from 10 ltac:(lia) _ Hds) as E.
  rewrite length_map, Hlen in E. fold (decimal_value code) in E.
  rewrite Hval in E. replace (Nat.max 1 digits) with digits in E by lia.
  rewrite be_digits_mod in E by lia. rewrite E, map_map.
  rewrite <- (map_id code) at 1. apply map_ext.
  intro c. unfold digit_char. lia.
Qed.

Lemma truncate_digest_value (hash_digest : bytes) (digits : nat) (code : pystr) :
  truncate_digest hash_digest digits = Ok code ->
  exists binary,
    0 <= binary < 2 ^ 31
    /\ forall digits',
         truncate_digest hash_digest digits'
         = Ok (rjust (str_of_int (binary mod 10 ^ Z.of_nat digits')) digits' 48).
Proof.
  unfold truncate_digest. intro H.
  apply bind_Ok in H. destruct H as [l [Hl H]].
  apply bind_Ok in H. destruct H as [b0 [H0 H]].
  apply bind_Ok in H. destruct H as [b1 [H1 H]].
  apply bind_Ok in H. destruct H as [b2 [H2 H]].
  apply bind_Ok in H. destruct H as [b3 [H3 _]].
  pose proof (bytes_index_range _ _ _ H0) as R0.
  pose proof (bytes_index_range _ _ _ H1) as R1.
  pose proof (bytes_index_range _ _ _ H2) as R2.
  pose proof (bytes_index_range _ _ _ H3) as R3.
  eexists. split; [| intro digits'; rewrite Hl; cbn [bind];
                     rewrite H0, H1, H2, H3; reflexivity].
  rewrite truncation_bits by assumption.
  pose proof (Z.mod_pos_bound b0 128 ltac:(lia)). lia.
Qed.

Lemma generate_totp_value (extra : registry) (now : Q) (secret : pystr)
    (digits : nat) (period : Z) (algorithm : pystr) (code : pystr) :
  generate_totp extra now secret digits period algorithm = Ok code ->
  exists binary,
    0 <= binary < 2 ^ 31
    /\ forall digits',
         generate_totp extra now secret digits' period algorithm
         = Ok (rjust (str_of_int (binary mod 10 ^ Z.of_nat digits')) digits' 48).
Proof.
  intro H.
  destruct (generate_totp_Ok_inv _ _ _ _ _ _ _ H)
    as [steps [key [h [Hs [Hk [Hh Ht]]]]]].
  destruct (truncate_digest_value _ _ _ Ht) as [binary [Hb Hall]].
  exists binary. split; [exact Hb |]. intro digits'.
  rewrite (generate_totp_stages _ _ _ _ _ _ _ _ _ Hs Hk Hh). apply Hall.
Qed.



(** X8.  The number that a returned code spells is always below 2^31.
    So from ten digits on nothing is gained: a code of [digits >= 10]
    characters is [digits - 10] zeros followed by ten characters of which
    the first is '0', '1' or '2'. *)
Theorem generate_totp_below_2_31 (extra : registry) (now : Q)
    (secret : pystr) (digits : nat) (period : Z) (algorithm : pystr)
    (code : pystr) :
  generate_totp extra now secret digits period algorithm = Ok code ->
  0 <= decimal_value code < 2 ^ 31
  /\ ((10 <= digits)%nat ->
      exists c rest,
        code = repeat 48 (digits - 10) ++ c :: rest
        /\ 48 <= c <= 50
        /\ List.length rest = 9%nat).
Proof.
  intro H.
  destruct (generate_totp_value _ _ _ _ _ _ _ H) as [binary [Hb Hall]].
  rewrite (Hall digits) in H. injection H as <-.
  destruct (code_text binary digits) as [_ [Hval _]]. cbv zeta in Hval.
  assert (Hp : 0 < 10 ^ Z.of_nat digits) by (apply Z.pow_pos_nonneg; lia).
  pose proof (Z.mod_pos_bound binary _ Hp) as Hm.
  split.
  - rewrite Hval. split; [lia |].
    pose proof (Z.mod_le binary _ (proj1 Hb) Hp). lia.
  - intro Hd. rewrite code_digits by lia.
    rewrite <- (firstn_skipn (digits - 10) (be_digits 10 digits binary)).
    rewrite be_digits_firstn, be_digits_skipn by lia.
    replace (digits - (digits - 10))%nat with 10%nat by lia.
    change (10 ^ Z.of_nat 10) with 10000000000.
    rewrite (Z.div_small binary) by lia.
    rewrite be_digits_zero by lia.
    change (be_digits 10 10 binary)
      with ((binary / 10 ^ 9) mod 10 :: be_digits 10 9 binary).
    rewrite map_app, map_repeat. cbn [map].
    eexists; eexists. split; [reflexivity |].
    split.
    + unfold digit_char. change (10 ^ 9) with 1000000000.
      assert (0 <= binary / 1000000000 < 3)
        by (split; [apply Z.div_pos; lia | apply Z.div_lt_upper_bound; lia]).
      rewrite Z.mod_small by lia. lia.
    + rewrite length_map. apply be_digits_length.
Qed.

Lemma generate_totp_below_2_31_witness :
  0 <= decimal_value (lit "1094287082") < 2 ^ 31.
Proof.
  exact (proj1 (generate_totp_below_2_31 plain_build (59 # 1)
                  (lit "12345678901234567890") 10 30 (lit "SHA1")
                  (lit "1094287082") eq_refl)).
Defined.

(** ** Secrets that share a key *)

Lemma hmac_zero_padded (h : hash_alg) (key msg : bytes) :
  (List.length key < block_size h)%nat ->
  hmac h (key ++ [x00]) msg = hmac h key msg.
Proof.
  intro H. unfold hmac.
  rewrite length_app. cbn [List.length].
  rewrite (proj2 (Nat.ltb_ge (block_size h) (List.length key + 1))) by lia.
  rewrite (proj2 (Nat.ltb_ge (block_size h) (List.length key))) by lia.
  rewrite length_app. cbn [List.length].
  replace (block_size h - List.length key)%nat
    with (S (block_size h - (List.length key + 1))) by lia.
  cbn [repeat]. now rewrite <- app_assoc.
Qed.

(** X9.  A NUL character at the end of the secret does not change the
    code: HMAC fills a key shorter than the block of the hash (64 bytes
    for SHA-1 and SHA-256, 128 for SHA-512) with zero bytes, so the
    secrets [s] and [s + '\0'] give the same outcome at every clock
    reading. *)
Theorem generate_totp_trailing_nul (extra : registry) (now : Q)
    (secret : pystr) (digits : nat) (period : Z) (algorithm : pystr)
    (key : bytes) (h : hash_alg) :
  encode secret = Ok key ->
  hashlib_new extra algorithm = Ok h ->
  (List.length key < block_size h)%nat ->
  generate_totp extra now (secret ++ [0]) digits period algorithm
  = generate_totp extra now secret digits period algorithm.
Proof.
  intros Hk Hh Hlen.
  assert (Hk0 : encode (secret ++ [0]) = Ok (key ++ [x00]))
    by (apply encode_app; [exact Hk | reflexivity]).
  unfold generate_totp, hmac_digest.
  destruct (time_steps now period) as [steps | e]; [| reflexivity].
  cbn [bind]. rewrite Hk, Hk0, Hh. cbn [bind].
  now rewrite hmac_zero_padded.
Qed.

Lemma generate_totp_trailing_nul_witness :
  generate_totp plain_build (59 # 1) (lit "12345678901234567890" ++ [0]) 8 30
    (lit "SHA1")
  = generate_totp plain_build (59 # 1) (lit "12345678901234567890") 8 30
      (lit "SHA1").
Proof.
  assert (Hlen : (List.length (list_byte_of_string "12345678901234567890")
                  < block_size SHA1)%nat) by (cbn; lia).
  exact (generate_totp_trailing_nul plain_build (59 # 1)
           (lit "12345678901234567890") 8 30 (lit "SHA1")
           (list_byte_of_string "12345678901234567890") SHA1
           eq_refl eq_refl Hlen).
Defined.

(** ** The secret field of the URI *)

Lemma b32_char_alphabet (v : Z) :
  0 <= v < 32 ->
  65 <= byte_val (b32_char v) <= 90 \/ 50 <= byte_val (b32_char v) <= 55.
Proof.
  intros [Hlo Hhi].
  assert (B : (65 <=? byte_val (b32_char v)) && (byte_val (b32_char v) <=? 90)
              || (50 <=? byte_val (b32_char v)) && (byte_val (b32_char v) <=? 55)
              = true).
  { destruct v as [| p | p]; try lia; [reflexivity |].
    do 5 (destruct p as [p | p |]; try lia; try reflexivity). }
  apply orb_true_iff in B.
  destruct B as [B | B]; apply andb_true_iff in B; destruct B as [B1 B2];
    apply Z.leb_le in B1; apply Z.leb_le in B2; [left | right]; now split.
Qed.

Lemma quantum_text_alphabet (k : nat) (c : Z) :
  (k <= 8)%nat ->
  Forall (fun x => 65 <= x <= 90 \/ 50 <= x <= 55) (quantum_text k c).
Proof.
  intro Hk. rewrite quantum_text_digits by exact Hk.
  apply Forall_forall. intros x Hx.
  apply in_map_iff in Hx. destruct Hx as [d [<- Hd]].
  apply b32_char_alphabet.
  pose proof (be_digits_range 32 ltac:(lia) k (c / 32 ^ Z.of_nat (8 - k))) as Hr.
  rewrite Forall_forall in Hr. now apply Hr.
Qed.

Lemma b32_field_shape (key : bytes) :
  exists p,
    decode_ascii (b32encode key)
    = rstrip (decode_ascii (b32encode key)) 61 ++ repeat 61 p
    /\ Forall (fun x => 65 <= x <= 90 \/ 50 <= x <= 55)
         (rstrip (decode_ascii (b32encode key)) 61)
    /\ List.length (rstrip (decode_ascii (b32encode key)) 61)
       = ((8 * List.length key + 4) / 5)%nat.
Proof.
  assert (H : exists body p,
             decode_ascii (b32encode key) = body ++ repeat 61 p
             /\ Forall (fun x => 65 <= x <= 90 \/ 50 <= x <= 55) body
             /\ List.length body = ((8 * List.length key + 4) / 5)%nat).
  { induction key as [| s Hs | b0 b1 b2 b3 b4 rest IH] using bytes_ind5.
    - exists [], 0%nat. repeat split. constructor.
    - pose proof (b32_data_chars_le (List.length s)) as Hk.
      rewrite b32encode_short by exact Hs.
      eexists; eexists. split; [reflexivity |].
      split; [apply quantum_text_alphabet; lia |].
      rewrite quantum_text_length by lia.
      destruct (List.length s) as [| [| [| [| [| n]]]]]; try lia; reflexivity.
    - destruct IH as [body [p [E [Ha Hl]]]].
      rewrite b32encode_full, E.
      exists (quantum_text 8 (int_from_bytes_big [b0; b1; b2; b3; b4]) ++ body), p.
      split; [now rewrite app_assoc |].
      split; [apply Forall_app; split;
              [apply quantum_text_alphabet; lia | exact Ha] |].
      rewrite length_app, quantum_text_length, Hl by lia.
      cbn [List.length].
      replace (8 * S (S (S (S (S (List.length rest))))) + 4)%nat
        with (8 * List.length rest + 4 + 8 * 5)%nat by lia.
      rewrite Nat.div_add by lia. lia. }
  destruct H as [body [p [E [Ha Hl]]]].
  assert (Hc : Forall (fun x => x <> 61) body).
  { eapply Forall_impl; [| exact Ha]. cbv beta. intros x Hx. lia. }
  exists p. rewrite E, rstrip_padding, rstrip_clean by exact Hc.
  now split.
Qed.

(** X10.  The secret field of the URI has [ceil(8 n / 5)] characters for a
    secret of [n] bytes, all of them capital letters or digits from '2' to
    '7'. *)
Theorem generate_totp_url_secret_field (secret issuer user algorithm : pystr)
    (digits period : Z) (key : bytes) :
  encode secret = Ok key ->
  exists field,
    generate_totp_url secret issuer user algorithm digits period
    = Ok (lit "otpauth://totp/" ++ issuer ++ lit ":" ++ user
            ++ lit "?secret=" ++ field
            ++ lit "&issuer=" ++ issuer
            ++ lit "&algorithm=" ++ algorithm
            ++ lit "&digits=" ++ str_of_int digits
            ++ lit "&period=" ++ str_of_int period)
    /\ List.length field = ((8 * List.length key + 4) / 5)%nat
    /\ 5 * Z.of_nat (List.length field) < 8 * Z.of_nat (List.length key) + 5
    /\ 8 * Z.of_nat (List.length key) <= 5 * Z.of_nat (List.length field)
    /\ Forall (fun x => 65 <= x <= 90 \/ 50 <= x <= 55) field.
Proof.
  intro Hk. destruct (b32_field_shape key) as [p [_ [Ha Hl]]].
  exists (rstrip (decode_ascii (b32encode key)) 61).
  split; [exact (generate_totp_url_text _ _ _ _ _ _ _ Hk) |].
  split; [exact Hl |].
  rewrite Hl.
  pose proof (Nat.div_mod_eq (8 * List.length key + 4) 5) as Hd.
  pose proof (Nat.mod_upper_bound (8 * List.length key + 4) 5 ltac:(lia)) as Hm.
  repeat split; try exact Ha; lia.
Qed.

Lemma generate_totp_url_secret_field_witness :
  exists field,
    generate_totp_url (lit "SuperDuper!#123!#1231") (lit "I") (lit "U")
      (lit "SHA1") 6 30
    = Ok (lit "otpauth://totp/I:U?secret=" ++ field
            ++ lit "&issuer=I&algorithm=SHA1&digits=6&period=30")
    /\ List.length field = 34%nat.
Proof.
  destruct (generate_totp_url_secret_field (lit "SuperDuper!#123!#1231")
              (lit "I") (lit "U") (lit "SHA1") 6 30
              (list_byte_of_string "SuperDuper!#123!#1231") eq_refl)
    as [field [Hu [Hl _]]].
  exists field. split; [exact Hu | exact Hl].
Defined.

(** ** The secret behind a URI *)

Lemma lor_high (hi n x : Z) :
  0 <= n -> 0 <= x < 2 ^ n -> Z.lor (hi * 2 ^ n) x = hi * 2 ^ n + x.
Proof.
  intros Hn Hx. rewrite <- (lor_shiftl hi x n Hn Hx).
  now rewrite Z.shiftl_mul_pow2 by exact Hn.
Qed.

Lemma Ok_inj {A : Type} (a b : A) : Ok a = Ok b -> a = b.
Proof. intro H. now injection H. Qed.

(** The bytes of one character, as numbers. *)
Lemma utf8_char_values (c : Z) (bs : bytes) :
  utf8_char c = Ok bs ->
  (0 <= c < 128 /\ map byte_val bs = [c])
  \/ (128 <= c < 2048
      /\ map byte_val bs = [192 + c / 64; 128 + c mod 64])
  \/ (2048 <= c < 65536
      /\ map byte_val bs
         = [224 + c / 4096; 128 + (c / 64) mod 64; 128 + c mod 64])
  \/ (65536 <= c < 1114112
      /\ map byte_val bs
         = [240 + c / 262144; 128 + (c / 4096) mod 64;
            128 + (c / 64) mod 64; 128 + c mod 64]).
Proof.
  unfold utf8_char.
  assert (L6 : forall x, Z.land x 0x3F = x mod 64)
    by (intro x; change 0x3F with (Z.ones 6); now rewrite Z.land_ones by lia).
  assert (S6 : forall x, Z.shiftr x 6 = x / 64)
    by (intro x; now rewrite Z.shiftr_div_pow2 by lia).
  assert (S12 : forall x, Z.shiftr x 12 = x / 4096)
    by (intro x; now rewrite Z.shiftr_div_pow2 by lia).
  assert (S18 : forall x, Z.shiftr x 18 = x / 262144)
    by (intro x; now rewrite Z.shiftr_div_pow2 by lia).
  assert (M : forall x, 0 <= x mod 64 < 64)
    by (intro x; apply Z.mod_pos_bound; lia).
  assert (C : forall x, Z.lor 0x80 (x mod 64) = 128 + x mod 64)
    by (intro x; apply (lor_high 2 6); [lia | apply M]).
  destruct (Z.ltb_spec c 0) as [| H0]; [discriminate |].
  destruct (Z.ltb_spec c 0x80) as [H1 | H1].
  { intro E. apply Ok_inj in E. subst bs. left. split; [lia |].
    cbn [map]. now rewrite byte_val_of_small by lia. }
  destruct (Z.ltb_spec c 0x800) as [H2 | H2].
  { intro E. apply Ok_inj in E. subst bs. right; left. split; [lia |].
    rewrite L6, S6, C. cbn [map].
    assert (0 <= c / 64 < 32)
      by (split; [apply Z.div_pos; lia | apply Z.div_lt_upper_bound; lia]).
    rewrite (lor_high 6 5) by lia. pose proof (M c).
    now rewrite !byte_val_of_small by lia. }
  destruct ((0xD800 <=? c) && (c <=? 0xDFFF)); [discriminate |].
  destruct (Z.ltb_spec c 0x10000) as [H3 | H3].
  { intro E. apply Ok_inj in E. subst bs. right; right; left. split; [lia |].
    rewrite !L6, S6, S12, !C. cbn [map].
    assert (0 <= c / 4096 < 16)
      by (split; [apply Z.div_pos; lia | apply Z.div_lt_upper_bound; lia]).
    rewrite (lor_high 14 4) by lia. pose proof (M c). pose proof (M (c / 64)).
    now rewrite !byte_val_of_small by lia. }
  destruct (Z.ltb_spec c 0x110000) as [H4 | H4]; [| discriminate].
  intro E. apply Ok_inj in E. subst bs. right; right; right. split; [lia |].
  rewrite !L6, S6, S12, S18, !C. cbn [map].
  assert (0 <= c / 262144 < 8)
    by (split; [apply Z.div_pos; lia | apply Z.div_lt_upper_bound; lia]).
  rewrite (lor_high 30 3) by lia.
  pose proof (M c). pose proof (M (c / 64)). pose proof (M (c / 4096)).
  now rewrite !byte_val_of_small by lia.
Qed.

Lemma cons_inj {A : Type} (a b : A) (l m : list A) :
  a :: l = b :: m -> a = b /\ l = m.
Proof. intro H. now injection H. Qed.

(** No encoded character is the beginning of another one. *)
Lemma utf8_char_prefix (c1 c2 : Z) (b1 b2 r1 r2 : bytes) :
  utf8_char c1 = Ok b1 -> utf8_char c2 = Ok b2 ->
  b1 ++ r1 = b2 ++ r2 -> c1 = c2.
Proof.
  intros H1 H2 E.
  apply (f_equal (map byte_val)) in E. rewrite !map_app in E.
  destruct (utf8_char_values _ _ H1) as [[R1 V1] | [[R1 V1] | [[R1 V1] | [R1 V1]]]];
    destruct (utf8_char_values _ _ H2) as [[R2 V2] | [[R2 V2] | [[R2 V2] | [R2 V2]]]];
    rewrite V1, V2 in E; cbn [app] in E;
    repeat match goal with
           | H : _ :: _ = _ :: _ |- _ =>
               apply cons_inj in H; let H' := fresh "Q" in destruct H as [H' H]
           end;
    Z.div_mod_to_equations; lia.
Qed.

Lemma utf8_char_nonempty (c : Z) (bs : bytes) : utf8_char c = Ok bs -> bs <> [].
Proof.
  intros H ->.
  destruct (utf8_char_values _ _ H) as [[_ V] | [[_ V] | [[_ V] | [_ V]]]];
    discriminate V.
Qed.

(** Different strings have different encodings. *)
Lemma encode_injective (s1 s2 : pystr) (key : bytes) :
  encode s1 = Ok key -> encode s2 = Ok key -> s1 = s2.
Proof.
  revert s2 key. induction s1 as [| c1 s1 IH]; intros [| c2 s2] key H1 H2.
  - reflexivity.
  - cbn [encode] in *. injection H1 as <-.
    apply bind_Ok in H2. destruct H2 as [b [Hb H2]].
    apply bind_Ok in H2. destruct H2 as [k [_ H2]]. injection H2 as H2.
    apply utf8_char_nonempty in Hb. destruct b; [contradiction | discriminate].
  - cbn [encode] in *. injection H2 as <-.
    apply bind_Ok in H1. destruct H1 as [b [Hb H1]].
    apply bind_Ok in H1. destruct H1 as [k [_ H1]]. injection H1 as H1.
    apply utf8_char_nonempty in Hb. destruct b; [contradiction | discriminate].
  - cbn [encode] in *.
    apply bind_Ok in H1. destruct H1 as [b1 [Hb1 H1]].
    apply bind_Ok in H1. destruct H1 as [k1 [Hk1 H1]]. injection H1 as <-.
    apply bind_Ok in H2. destruct H2 as [b2 [Hb2 H2]].
    apply bind_Ok in H2. destruct H2 as [k2 [Hk2 H2]]. injection H2 as E.
    assert (c2 = c1) by (eapply utf8_char_prefix; eassumption). subst c2.
    rewrite Hb1 in Hb2. injection Hb2 as <-.
    apply app_inv_head in E. subst k2.
    f_equal. eapply IH; eassumption.
Qed.

(** X11.  With issuer, user, algorithm, digits and period fixed, the URI
    determines the secret: two secrets that give the same URI are the same
    string (UTF-8 and base32 lose nothing). *)
Theorem generate_totp_url_secret_injective (secret1 secret2 : pystr)
    (issuer user algorithm : pystr) (digits period : Z) (uri : pystr) :
  generate_totp_url secret1 issuer user algorithm digits period = Ok uri ->
  generate_totp_url secret2 issuer user algorithm digits period = Ok uri ->
  secret1 = secret2.
Proof.
  intros H1 H2.
  pose proof H1 as G1. pose proof H2 as G2.
  unfold generate_totp_url in G1, G2.
  apply bind_Ok in G1. destruct G1 as [k1 [Hk1 _]].
  apply bind_Ok in G2. destruct G2 as [k2 [Hk2 _]].
  rewrite (generate_totp_url_text _ _ _ _ _ _ _ Hk1) in H1.
  rewrite (generate_totp_url_text _ _ _ _ _ _ _ Hk2) in H2.
  apply Ok_inj in H1. apply Ok_inj in H2.
  assert (E : uri_text k1 issuer user algorithm digits period
              = uri_text k2 issuer user algorithm digits period)
    by congruence.
  unfold uri_text in E.
  do 5 apply app_inv_head in E.
  apply app_inv_tail in E.
  assert (Ek : k1 = k2).
  { pose proof (b32decode_encode k1) as D1.
    pose proof (b32decode_encode k2) as D2.
    rewrite <- (proj1 (b32_strip_restore k1)) in D1.
    rewrite <- (proj1 (b32_strip_restore k2)) in D2.
    rewrite <- E in D2. rewrite D1 in D2. now injection D2. }
  subst k2. eapply encode_injective; eassumption.
Qed.

Lemma generate_totp_url_secret_injective_witness :
  lit "k" = lit "k".
Proof.
  exact (generate_totp_url_secret_injective (lit "k") (lit "k")
           (lit "I") (lit "U") (lit "SHA1") 6 30
           (lit "otpauth://totp/I:U?secret=NM&issuer=I&algorithm=SHA1&digits=6&period=30")
           eq_refl eq_refl).
Defined.

(** ** Hash names *)

Lemma sha_names_resolved (extra : registry) (algorithm : pystr) :
  In algorithm (map lit ["SHA1"; "sha1"; "SHA224"; "sha224"; "SHA256";
                         "sha256"; "SHA384"; "sha384"; "SHA512"; "sha512"]%string) ->
  exists h,
    hashlib_new extra algorithm = Ok h
    /\ sized h /\ (20 <= digest_size h)%nat.
Proof.
  cbn [map In]. intro H.
  repeat (destruct H as [<- | H];
          [first [ exists SHA1; split; [reflexivity |];
                   split; [intro m; apply sha1_length | simpl; lia]
                 | exists SHA224; split; [reflexivity |];
                   split; [intro m; apply sha224_length | simpl; lia]
                 | exists SHA256; split; [reflexivity |];
                   split; [intro m; apply sha256_length | simpl; lia]
                 | exists SHA384; split; [reflexivity |];
                   split; [intro m; apply sha384_length | simpl; lia]
                 | exists SHA512; split; [reflexivity |];
                   split; [intro m; apply sha512_length | simpl; lia] ] |]).
  contradiction.
Qed.

Lemma example_key :
  encode (lit "SuperDuper!#123!#1231")
  = Ok (list_byte_of_string "SuperDuper!#123!#1231").
Proof. reflexivity. Qed.

Lemma sha_names_total (extra : registry) (now : Q) (secret : pystr)
    (digits : nat) (period : Z) (algorithm : pystr) :
  In algorithm (map lit ["SHA1"; "sha1"; "SHA224"; "sha224"; "SHA256";
                         "sha256"; "SHA384"; "sha384"; "SHA512"; "sha512"]%string) ->
  forall steps key,
    time_steps now period = Ok steps -> encode secret = Ok key ->
    exists code,
      generate_totp extra now secret digits period algorithm = Ok code
      /\ List.length code = Nat.max 1 digits
      /\ Forall is_digit code.
Proof.
  intros Hin steps key Hs Hk.
  destruct (sha_names_resolved extra algorithm Hin) as [h [Hh [Hsz Hd]]].
  exists (rjust (str_of_int (spec_binary (hmac h key steps)
                             mod 10 ^ Z.of_nat digits)) digits 48).
  split.
  - rewrite (generate_totp_stages _ _ _ _ _ _ _ _ _ Hs Hk Hh).
    apply truncate_digest_spec. rewrite hmac_length by exact Hsz. exact Hd.
  - destruct (code_text (spec_binary (hmac h key steps)) digits) as [Hdig [_ Hl]].
    split; [exact Hl | exact Hdig].
Qed.

(** X12.  With any SHA-1 or SHA-2 name, in capitals or in lower case
    (SHA1, SHA224, SHA256, SHA384, SHA512), lines 21 to 30 never fail:
    the only exceptions of [generate_totp] are those of the clock
    ([ZeroDivisionError], [OverflowError]) and of the secret
    ([UnicodeEncodeError]), and a code of [digits] characters comes back
    whenever the counter exists and the secret can be encoded. *)
Theorem generate_totp_sha_names (extra : registry) (now : Q)
    (secret : pystr) (digits : nat) (period : Z) (algorithm : pystr) :
  In algorithm (map lit ["SHA1"; "sha1"; "SHA224"; "sha224"; "SHA256";
                         "sha256"; "SHA384"; "sha384"; "SHA512"; "sha512"]%string) ->
  (forall e,
     generate_totp extra now secret digits period algorithm = Raise e ->
     e = ZeroDivisionError \/ e = OverflowError \/ e = UnicodeEncodeError)
  /\ (forall steps key,
        time_steps now period = Ok steps -> encode secret = Ok key ->
        exists code,
          generate_totp extra now secret digits period algorithm = Ok code
          /\ List.length code = Nat.max 1 digits
          /\ Forall is_digit code).
Proof.
  intro Hin. split; [| now apply sha_names_total].
  intros e He. unfold generate_totp in He.
  destruct (time_steps now period) as [steps | e1] eqn:Hs.
  - destruct (encode secret) as [key | e2] eqn:Hk.
    + destruct (sha_names_total extra now secret digits period algorithm Hin
                  steps key Hs Hk) as [code [Hc _]].
      unfold generate_totp in Hc. rewrite Hs, Hk in Hc.
      rewrite Hc in He. discriminate He.
    + cbn [bind] in He. apply (f_equal (fun o => match o with
                                                 | Raise x => x
                                                 | Ok _ => e
                                                 end)) in He.
      cbn beta iota in He. subst e2.
      destruct (forallb is_scalar secret) eqn:Hsc.
      * destruct (encode_scalar secret Hsc) as [key Hkey].
        rewrite Hkey in Hk. discriminate Hk.
      * rewrite (encode_not_scalar secret Hsc) in Hk.
        right; right. congruence.
  - cbn [bind] in He.
    assert (e1 = e) by congruence. subst e1.
    destruct (Z.eq_dec period 0) as [-> | Hp].
    + rewrite time_steps_zero in Hs. left. congruence.
    + rewrite time_steps_eq in Hs by exact Hp.
      unfold int_to_bytes_big in Hs.
      destruct (_ <? 0); [right; left; congruence |].
      destruct (_ <=? _); [right; left; congruence | discriminate Hs].
Qed.

Lemma generate_totp_sha_names_witness :
  exists code,
    generate_totp plain_build (59 # 1) (lit "12345678901234567890") 8 30
      (lit "sha224") = Ok code
    /\ List.length code = 8%nat.
Proof.
  assert (Hin : In (lit "sha224")
                  (map lit ["SHA1"; "sha1"; "SHA224"; "sha224"; "SHA256";
                            "sha256"; "SHA384"; "sha384"; "SHA512";
                            "sha512"]%string))
    by (cbn [map In]; tauto).
  destruct (proj2 (generate_totp_sha_names plain_build (59 # 1)
                     (lit "12345678901234567890") 8 30 (lit "sha224") Hin)
              (be_bytes 8 1) (list_byte_of_string "12345678901234567890")
              eq_refl eq_refl)
    as [code [Hc [Hl _]]].
  exists code. split; [exact Hc | exact Hl].
Defined.

(** ** Running the module *)

Lemma example_url :
  generate_totp_url (lit "SuperDuper!#123!#1231") (lit "BasselTech Test")
    (lit "Bassel Admin") default_algorithm 6 30
  = Ok (lit "otpauth://totp/BasselTech Test:Bassel Admin?secret=KN2XAZLSIR2XAZLSEERTCMRTEERTCMRTGE&issuer=BasselTech Test&algorithm=SHA1&digits=6&period=30").
Proof. vm_compute. reflexivity. Qed.

Lemma module_body_steps (extra : registry) (now : Q) (code : pystr) :
  generate_totp extra now (lit "SuperDuper!#123!#1231") 6 30 default_algorithm
  = Ok code ->
  module_body extra now
  = ([code;
      lit "otpauth://totp/BasselTech Test:Bassel Admin?secret=KN2XAZLSIR2XAZLSEERTCMRTEERTCMRTGE&issuer=BasselTech Test&algorithm=SHA1&digits=6&period=30"],
     None).
Proof.
  intro H. unfold module_body. now rewrite H, example_url.
Qed.

Lemma module_body_raise (extra : registry) (now : Q) (e : exn) :
  generate_totp extra now (lit "SuperDuper!#123!#1231") 6 30 default_algorithm
  = Raise e ->
  module_body extra now = ([], Some e).
Proof.
  intro H. unfold module_body. now rewrite H.
Qed.

(** X13.  Run at a clock reading from the epoch up to [2^64 * 30]
    seconds, the module prints two things and raises nothing: a code of
    six decimal digits for the example secret, then always the same URI.
    At a clock reading outside that range the first call raises
    [OverflowError] and nothing is printed. *)
Theorem module_body_output (extra : registry) (now : Q) :
  ((0 <= now /\ now < inject_Z (2 ^ 64 * 30))%Q ->
   exists code,
     module_body extra now
     = ([code;
         lit "otpauth://totp/BasselTech Test:Bassel Admin?secret=KN2XAZLSIR2XAZLSEERTCMRTEERTCMRTGE&issuer=BasselTech Test&algorithm=SHA1&digits=6&period=30"],
        None)
     /\ generate_totp extra now (lit "SuperDuper!#123!#1231") 6 30 (lit "SHA1")
        = Ok code
     /\ List.length code = 6%nat
     /\ Forall is_digit code)
  /\ ((now < 0 \/ inject_Z (2 ^ 64 * 30) <= now)%Q ->
      module_body extra now = ([], Some OverflowError)).
Proof.
  assert (Hp : 0 < 30) by reflexivity.
  destruct (floor_clock_range now 30 Hp) as [Hfin Hfout].
  assert (Hin : (0 <= now /\ now < inject_Z (2 ^ 64 * 30))%Q ->
                time_steps now 30
                = Ok (be_bytes 8 (Qfloor (now / inject_Z 30)))).
  { intro Hr. rewrite time_steps_eq by discriminate.
    apply int_to_bytes_big_ok. exact (Hfin Hr). }
  assert (Hout : (now < 0 \/ inject_Z (2 ^ 64 * 30) <= now)%Q ->
                 time_steps now 30 = Raise OverflowError).
  { intro Hr. rewrite time_steps_eq by discriminate.
    destruct (Hfout Hr) as [Hk | Hk].
    - now apply int_to_bytes_big_negative.
    - now apply int_to_bytes_big_too_big. }
  assert (Hname : In default_algorithm
                    (map lit ["SHA1"; "sha1"; "SHA224"; "sha224"; "SHA256";
                              "sha256"; "SHA384"; "sha384"; "SHA512";
                              "sha512"]%string))
    by (left; reflexivity).
  split.
  - intro Hr. specialize (Hin Hr).
    destruct (sha_names_total extra now (lit "SuperDuper!#123!#1231") 6 30
                default_algorithm Hname _ _ Hin example_key)
      as [code [Hc [Hl Hd]]].
    exists code. split; [now apply module_body_steps |].
    split; [exact Hc |]. split; [exact Hl | exact Hd].
  - intro Hr. specialize (Hout Hr).
    apply module_body_raise. unfold generate_totp. now rewrite Hout.
Qed.

Lemma module_body_output_witness :
  module_body plain_build (59 # 1)
  = ([lit "784426";
      lit "otpauth://totp/BasselTech Test:Bassel Admin?secret=KN2XAZLSIR2XAZLSEERTCMRTEERTCMRTGE&issuer=BasselTech Test&algorithm=SHA1&digits=6&period=30"],
     None)
  /\ module_body plain_build (- 1 # 1) = ([], Some OverflowError).
Proof.
  assert (H1 : (0 <= 59 # 1 /\ 59 # 1 < inject_Z (2 ^ 64 * 30))%Q)
    by (split; [discriminate | reflexivity]).
  assert (H2 : (- 1 # 1 < 0 \/ inject_Z (2 ^ 64 * 30) <= - 1 # 1)%Q)
    by (left; reflexivity).
  destruct (proj1 (module_body_output plain_build (59 # 1)) H1)
    as [code [Hm [Hc _]]].
  split; [| exact (proj2 (module_body_output plain_build (- 1 # 1)) H2)].
  rewrite Hm. f_equal. f_equal.
  assert (E : Ok code = Ok (lit "784426")) by (rewrite <- Hc; reflexivity).
  now apply Ok_inj in E.
Defined.
